(** * Trajectory data tools: a shallow embedding and its verified properties

    The development follows the two source files of the repository:

    - [data_tools.py]: [read_parquet], [plot_trajectory_spacetime_diagram] and
      [analysis_movement_data];
    - [update_parquet_meta.py]: [update_parquet_meta].

    Python dictionaries whose iteration order is irrelevant to the result are
    finite maps ([gmap]); the track mapping, whose iteration order the
    classifier follows, is an association list in iteration order.  Python
    exceptions are values of [exn] in a result type. *)

From stdpp Require Import gmap strings list fin_maps pretty.
From Stdlib Require Import ZArith NArith Lia Ascii PrimFloat.
From Stdlib Require DecimalFacts DecimalPos DecimalN Uint63.

Open Scope Z_scope.

(** ** Python values shared by the modules *)

(** An entry of a Python dict read with [in] / [.get]: the key is missing,
    the value is [None], or there is a value. *)
Inductive field (A : Type) : Type :=
| Absent
| PyNone
| Val (a : A).
Arguments Absent {A}.
Arguments PyNone {A}.
Arguments Val {A} a.

(** [d.get(k)]: a missing key and a stored [None] both read as [None]. *)
Definition get {A} (f : field A) : option A :=
  match f with
  | Val a => Some a
  | _ => None
  end.

(** [l[0]] and [l[-1]] of a Python sequence ([None]: IndexError). *)
Definition seq_first {A} (l : list A) : option A := head l.
Definition seq_last {A} (l : list A) : option A := last l.

(** Vehicle identifiers are integers or strings. *)
Inductive ident : Type :=
| IdInt (z : Z)
| IdStr (s : string).

#[global] Instance ident_eq_dec : EqDecision ident.
Proof. solve_decision. Defined.

(** An element of [lane_sequence]: a value [int()] converts, or one on which
    [int()] raises (NaN, [None], a non-numeric string). *)
Inductive lane_elem : Type :=
| LaneNum (z : Z)
| LaneBad.

Definition py_int (e : lane_elem) : option Z :=
  match e with
  | LaneNum z => Some z
  | LaneBad => None
  end.

(** ** The movement classifier ([analysis_movement_data]) *)

Module Classifier.

(** The fields of a track that the classifier reads. *)
Record Track : Type := mkTrack {
  frame_index : field (list Z);
  lane_sequence : field (list lane_elem)
}.

(** The metadata object: [lane_sequence_to_movement_map] may be missing. *)
Record Meta : Type := mkMeta {
  lane_sequence_to_movement_map : option (gmap string string)
}.

(** The counters of pass 2. *)
Record counters : Type := mkCounters {
  movement_counts : gmap string nat;
  od_counts : gmap string nat;
  od_vehicles : gmap string (list ident);
  valid_movement_vehicles : nat;
  undefined_filtered_count : nat
}.

Definition init : counters :=
  mkCounters ∅ ∅ ∅ 0 0.

(** [f"{start_lane}-{end_lane}"] *)
Definition od_key_of (start_lane end_lane : Z) : string :=
  pretty start_lane +:+ "-" +:+ pretty end_lane.

(** Pass 1, one track: the track contributes its first and last frame when
    [frame_index] is present, not [None] and not empty. *)
Definition frame_span (t : Track) : option (Z * Z) :=
  match frame_index t with
  | Val fs =>
      match seq_first fs, seq_last fs with
      | Some s, Some e => Some (s, e)
      | _, _ => None
      end
  | _ => None
  end.

Definition all_start_frames (tracks : list Track) : list Z :=
  omap (λ t, fst <$> frame_span t) tracks.

Definition all_end_frames (tracks : list Track) : list Z :=
  omap (λ t, snd <$> frame_span t) tracks.

(** Python's [min] and [max] of a list ([None]: ValueError on an empty one). *)
Definition py_min (l : list Z) : option Z :=
  match l with
  | [] => None
  | x :: l' => Some (fold_left Z.min l' x)
  end.

Definition py_max (l : list Z) : option Z :=
  match l with
  | [] => None
  | x :: l' => Some (fold_left Z.max l' x)
  end.

(** [movement_counts[name] = movement_counts.get(name, 0) + 1] *)
Definition incr (k : string) (m : gmap string nat) : gmap string nat :=
  <[k := (default 0%nat (m !! k) + 1)%nat]> m.

(** [if od_key not in od_vehicles: od_vehicles[od_key] = []] followed by
    [od_vehicles[od_key].append(vid)] *)
Definition record_vehicle (k : string) (vid : ident)
    (m : gmap string (list ident)) : gmap string (list ident) :=
  <[k := default [] (m !! k) ++ [vid]]> m.

(** The counting tail of the loop body (source lines 283-292). *)
Definition count (movement_name od_key : string) (vid : ident)
    (st : counters) : counters :=
  {| movement_counts := incr movement_name (movement_counts st);
     od_counts := incr od_key (od_counts st);
     od_vehicles := record_vehicle od_key vid (od_vehicles st);
     valid_movement_vehicles :=
       if decide (movement_name = "Undefined")
       then valid_movement_vehicles st
       else S (valid_movement_vehicles st);
     undefined_filtered_count := undefined_filtered_count st |}.

(** The boundary-filtered branch (source lines 279-280). *)
Definition filtered (st : counters) : counters :=
  {| movement_counts := movement_counts st;
     od_counts := od_counts st;
     od_vehicles := od_vehicles st;
     valid_movement_vehicles := valid_movement_vehicles st;
     undefined_filtered_count := S (undefined_filtered_count st) |}.

(** The OD key of a track: [None] when the loop body reaches a [continue]
    before building it ([lane_sequence] absent, [None] or empty, or a
    failing [int()]). *)
Definition track_od_key (t : Track) : option string :=
  match get (lane_sequence t) with
  | None => None
  | Some lane_seq =>
      match seq_first lane_seq, seq_last lane_seq with
      | Some a, Some b =>
          match py_int a, py_int b with
          | Some start_lane, Some end_lane => Some (od_key_of start_lane end_lane)
          | _, _ => None
          end
      | _, _ => None
      end
  end.

(** [lane_map[od_key] if od_key in lane_map else "Undefined"] *)
Definition movement_of (lane_map : gmap string string) (od_key : string) : string :=
  match lane_map !! od_key with
  | Some name => name
  | None => "Undefined"
  end.

(** The frame indices are elements of numpy [int64] arrays, as
    [read_parquet] hands them over, and so are [global_min_frame] and
    [global_max_frame]: the sums [global_min_frame+3] and
    [global_max_frame-3] of source line 278 are [int64] values, which wrap
    around at the ends of the range. *)
Definition int64_min : Z := -9223372036854775808.
Definition int64_max : Z := 9223372036854775807.

Definition is_int64 (z : Z) : Prop := int64_min ≤ z ≤ int64_max.

Definition wrap64 (z : Z) : Z :=
  (z + 9223372036854775808) mod 18446744073709551616 - 9223372036854775808.

(** The exclusion test of source line 278. *)
Definition at_boundary (global_min_frame global_max_frame v_start v_end : Z) : bool :=
  (v_start <? wrap64 (global_min_frame + 3)) ||
  (v_end >? wrap64 (global_max_frame - 3)).

(** One iteration of the pass-2 loop (source lines 244-292). *)
Definition step (global_min_frame global_max_frame : Z)
    (lane_map : gmap string string) (st : counters) (item : ident * Track) : counters :=
  let '(vid, track) := item in
  match track_od_key track with
  | None => st
  | Some od_key =>
      let movement_name := movement_of lane_map od_key in
      if decide (movement_name = "Undefined") then
        match get (frame_index track) with
        | None => st
        | Some vehicle_frames =>
            match seq_first vehicle_frames, seq_last vehicle_frames with
            | Some v_start, Some v_end =>
                if at_boundary global_min_frame global_max_frame v_start v_end
                then filtered st
                else count movement_name od_key vid st
            | _, _ => st
            end
        end
      else count movement_name od_key vid st
  end.

Definition pass2 (global_min_frame global_max_frame : Z)
    (lane_map : gmap string string) (st : counters)
    (items : list (ident * Track)) : counters :=
  fold_left (step global_min_frame global_max_frame lane_map) items st.

(** [meta_data.get('lane_sequence_to_movement_map', {})] *)
Definition lane_map_of (meta : Meta) : gmap string string :=
  default ∅ (lane_sequence_to_movement_map meta).

(** The global frame range of pass 1; [None] is the early
    ["No valid frames found."] return. *)
Definition global_range (tracks : list Track) : option (Z * Z) :=
  match py_min (all_start_frames tracks), py_max (all_end_frames tracks) with
  | Some lo, Some hi => Some (lo, hi)
  | _, _ => None
  end.

(** The state of the counters when the function returns; [None] when it
    returned early, before pass 2. *)
Definition run (trajectory_data : list (ident * Track)) (meta_data : Meta)
    : option counters :=
  match global_range (snd <$> trajectory_data) with
  | None => None
  | Some (global_min_frame, global_max_frame) =>
      Some (pass2 global_min_frame global_max_frame (lane_map_of meta_data)
                  init trajectory_data)
  end.

(** The returned value: [{}] on the early return, else [movement_counts]. *)
Definition analysis_movement_data (trajectory_data : list (ident * Track))
    (meta_data : Meta) : gmap string nat :=
  match run trajectory_data meta_data with
  | None => ∅
  | Some st => movement_counts st
  end.

(** What one loop iteration did to the counters.  [excluded]: the track is
    left out of every count and tallied as boundary-filtered. *)
Definition excluded (before after : counters) : Prop :=
  movement_counts after = movement_counts before ∧
  od_counts after = od_counts before ∧
  od_vehicles after = od_vehicles before ∧
  undefined_filtered_count after = S (undefined_filtered_count before).

(** [counted_as name k vid]: the track is counted under the label [name] and
    the OD key [k].  The count of [name] in [movement_counts] and the count
    of [k] in [od_counts] are one more than before (a key that was missing
    counts as 0), the vehicle list of [k] in [od_vehicles] is the one before
    (empty when the key was missing) with [vid] appended, every other entry
    of the three dictionaries is as before, and the boundary tally does not
    move. *)
Definition counted_as (name k : string) (vid : ident)
    (before after : counters) : Prop :=
  (∀ name', movement_counts after !! name' =
     if decide (name' = name)
     then Some (S (default 0%nat (movement_counts before !! name)))
     else movement_counts before !! name') ∧
  (∀ k', od_counts after !! k' =
     if decide (k' = k)
     then Some (S (default 0%nat (od_counts before !! k)))
     else od_counts before !! k') ∧
  (∀ k', od_vehicles after !! k' =
     if decide (k' = k)
     then Some (default [] (od_vehicles before !! k) ++ [vid])
     else od_vehicles before !! k') ∧
  undefined_filtered_count after = undefined_filtered_count before.

(** [skipped]: the iteration hit a bare [continue]. *)
Definition skipped (before after : counters) : Prop := after = before.

(** *** Basic facts *)

Lemma py_min_spec (l : list Z) (m : Z) :
  py_min l = Some m ↔ m ∈ l ∧ ∀ x, x ∈ l → m ≤ x.
Proof.
  assert (Hfold : ∀ l' a, (fold_left Z.min l' a ∈ a :: l') ∧
                          ∀ x, x ∈ a :: l' → fold_left Z.min l' a ≤ x).
  { induction l' as [|y l' IH]; intros a; simpl.
    - split; [left|]. intros x Hx. apply list_elem_of_singleton in Hx. lia.
    - destruct (IH (Z.min a y)) as [Hin Hle]. split.
      + apply elem_of_cons in Hin as [Hin|Hin].
        * rewrite Hin. destruct (Z.min_spec a y) as [[_ ->]|[_ ->]];
            [left | right; left].
        * right; right; exact Hin.
      + intros x Hx.
        assert (Hm : fold_left Z.min l' (Z.min a y) ≤ Z.min a y)
          by (apply Hle; left).
        apply elem_of_cons in Hx as [->|Hx]; [lia|].
        apply elem_of_cons in Hx as [->|Hx]; [lia|].
        apply Hle. right; exact Hx. }
  destruct l as [|a l']; simpl.
  - split; [discriminate|]. intros [Hin _]. inversion Hin.
  - destruct (Hfold l' a) as [Hin Hle]. split.
    + intros [= <-]. split; assumption.
    + intros [Hin' Hle']. f_equal.
      specialize (Hle _ Hin'). specialize (Hle' _ Hin). lia.
Qed.

Lemma py_max_spec (l : list Z) (m : Z) :
  py_max l = Some m ↔ m ∈ l ∧ ∀ x, x ∈ l → x ≤ m.
Proof.
  assert (Hfold : ∀ l' a, (fold_left Z.max l' a ∈ a :: l') ∧
                          ∀ x, x ∈ a :: l' → x ≤ fold_left Z.max l' a).
  { induction l' as [|y l' IH]; intros a; simpl.
    - split; [left|]. intros x Hx. apply list_elem_of_singleton in Hx. lia.
    - destruct (IH (Z.max a y)) as [Hin Hle]. split.
      + apply elem_of_cons in Hin as [Hin|Hin].
        * rewrite Hin. destruct (Z.max_spec a y) as [[_ ->]|[_ ->]];
            [right; left | left].
        * right; right; exact Hin.
      + intros x Hx.
        assert (Hm : Z.max a y ≤ fold_left Z.max l' (Z.max a y))
          by (apply Hle; left).
        apply elem_of_cons in Hx as [->|Hx]; [lia|].
        apply elem_of_cons in Hx as [->|Hx]; [lia|].
        apply Hle. right; exact Hx. }
  destruct l as [|a l']; simpl.
  - split; [discriminate|]. intros [Hin _]. inversion Hin.
  - destruct (Hfold l' a) as [Hin Hle]. split.
    + intros [= <-]. split; assumption.
    + intros [Hin' Hle']. f_equal.
      specialize (Hle _ Hin'). specialize (Hle' _ Hin). lia.
Qed.

Lemma frame_span_starts (tracks : list Track) (t : Track) (s e : Z) :
  t ∈ tracks → frame_span t = Some (s, e) →
  s ∈ all_start_frames tracks ∧ e ∈ all_end_frames tracks.
Proof.
  intros Hin Hspan. unfold all_start_frames, all_end_frames.
  split; apply list_elem_of_omap; exists t; rewrite Hspan; auto.
Qed.

Lemma global_range_is_Some (tracks : list Track) (t : Track) (s e : Z) :
  t ∈ tracks → frame_span t = Some (s, e) →
  ∃ lo hi, global_range tracks = Some (lo, hi).
Proof.
  intros Hin Hspan.
  destruct (frame_span_starts tracks t s e Hin Hspan) as [Hs He].
  unfold global_range.
  destruct (all_start_frames tracks) as [|a la]; [inversion Hs|].
  destruct (all_end_frames tracks) as [|b lb]; [inversion He|].
  simpl. eauto.
Qed.

Lemma pass2_app lo hi lane_map st (l1 l2 : list (ident * Track)) :
  pass2 lo hi lane_map st (l1 ++ l2) =
  pass2 lo hi lane_map (pass2 lo hi lane_map st l1) l2.
Proof. unfold pass2. apply fold_left_app. Qed.

Lemma pass2_cons lo hi lane_map st (x : ident * Track) (l : list (ident * Track)) :
  pass2 lo hi lane_map st (x :: l) =
  pass2 lo hi lane_map (step lo hi lane_map st x) l.
Proof. reflexivity. Qed.

Lemma filtered_excluded (st : counters) : excluded st (filtered st).
Proof. repeat split. Qed.

Lemma lookup_incr (k k' : string) (m : gmap string nat) :
  incr k m !! k' =
  if decide (k' = k) then Some (S (default 0%nat (m !! k))) else m !! k'.
Proof.
  unfold incr. destruct (decide (k' = k)) as [->|Hne].
  - rewrite lookup_insert_eq, Nat.add_1_r. reflexivity.
  - apply lookup_insert_ne. congruence.
Qed.

Lemma lookup_record_vehicle (k k' : string) (vid : ident)
    (m : gmap string (list ident)) :
  record_vehicle k vid m !! k' =
  if decide (k' = k) then Some (default [] (m !! k) ++ [vid]) else m !! k'.
Proof.
  unfold record_vehicle. destruct (decide (k' = k)) as [->|Hne].
  - apply lookup_insert_eq.
  - apply lookup_insert_ne. congruence.
Qed.

Lemma count_counted_as name k vid (st : counters) :
  counted_as name k vid st (count name k vid st).
Proof.
  split; [|split; [|split]]; simpl.
  - intros name'. apply lookup_incr.
  - intros k'. apply lookup_incr.
  - intros k'. apply lookup_record_vehicle.
  - reflexivity.
Qed.

Lemma excluded_not_counted name k vid (before after : counters) :
  excluded before after → counted_as name k vid before after → False.
Proof. intros (_ & _ & _ & H1) (_ & _ & _ & H2). lia. Qed.


Lemma at_boundary_true lo hi s e :
  at_boundary lo hi s e = true ↔ s < wrap64 (lo + 3) ∨ e > wrap64 (hi - 3).
Proof.
  unfold at_boundary. rewrite orb_true_iff, Z.ltb_lt, Z.gtb_gt. reflexivity.
Qed.

(** On [int64] frames in order, from the global first frame to the first
    frame of the track, to its last frame, to the global last frame, the
    wrapped sums decide as the sums of integers do: a sum that wraps
    belongs to a track that the other comparison excludes. *)
Lemma at_boundary_in_order lo hi s e :
  is_int64 lo → is_int64 hi → is_int64 s → is_int64 e →
  lo ≤ s → s ≤ e → e ≤ hi →
  at_boundary lo hi s e = true ↔ s < lo + 3 ∨ e > hi - 3.
Proof.
  rewrite at_boundary_true. unfold is_int64, int64_min, int64_max, wrap64.
  intros Hlo Hhi Hs He H1 H2 H3.
  Z.to_euclidean_division_equations. lia.
Qed.

(** The frame indices of a track are [int64] values. *)
Definition int64_frames (t : Track) : Prop :=
  ∀ fs, frame_index t = Val fs → Forall is_int64 fs.

Lemma frame_span_int64 (t : Track) (s e : Z) :
  int64_frames t → frame_span t = Some (s, e) → is_int64 s ∧ is_int64 e.
Proof.
  unfold int64_frames, frame_span, seq_first, seq_last. intros Hint.
  destruct (frame_index t) as [| |fs] eqn:Hfs; try discriminate.
  specialize (Hint fs eq_refl). rewrite Forall_forall in Hint.
  destruct (head fs) as [s'|] eqn:Hs; [|discriminate].
  destruct (last fs) as [e'|] eqn:He; [|discriminate].
  intros [= <- <-]. split; apply Hint.
  - apply head_Some_elem_of, Hs.
  - apply last_Some_elem_of, He.
Qed.

(** The global range bounds the frames of every track, and its ends are
    frames of the data. *)
Lemma global_range_bounds (tracks : list Track) (lo hi : Z) :
  global_range tracks = Some (lo, hi) →
  (∀ t s e, t ∈ tracks → frame_span t = Some (s, e) → lo ≤ s ∧ e ≤ hi) ∧
  (Forall int64_frames tracks → is_int64 lo ∧ is_int64 hi).
Proof.
  unfold global_range.
  destruct (py_min (all_start_frames tracks)) as [lo'|] eqn:Hlo; [|discriminate].
  destruct (py_max (all_end_frames tracks)) as [hi'|] eqn:Hhi; [|discriminate].
  intros [= <- <-].
  apply py_min_spec in Hlo as [Hlo_in Hlo]. apply py_max_spec in Hhi as [Hhi_in Hhi].
  split.
  - intros t s e Hin Hspan.
    destruct (frame_span_starts tracks t s e Hin Hspan) as [Hs He]. auto.
  - intros Hint. rewrite Forall_forall in Hint.
    unfold all_start_frames in Hlo_in. unfold all_end_frames in Hhi_in.
    apply list_elem_of_omap in Hlo_in as (t1 & Hin1 & H1).
    apply list_elem_of_omap in Hhi_in as (t2 & Hin2 & H2).
    destruct (frame_span t1) as [[s1 e1]|] eqn:Hs1; [|discriminate].
    destruct (frame_span t2) as [[s2 e2]|] eqn:Hs2; [|discriminate].
    simpl in H1, H2. injection H1 as <-. injection H2 as <-.
    split.
    + apply (frame_span_int64 t1 s1 e1); auto.
    + apply (frame_span_int64 t2 s2 e2); auto.
Qed.


(** Outside the data model the sums do wrap: with frames at the lower end
    of the [int64] range and a track whose first frame is after its last,
    [global_max_frame-3] wraps to a large value, and the test lets a track
    pass whose last frame is above [global_max_frame - 3]. *)
Example at_boundary_wraps :
  at_boundary int64_min (int64_min + 2) (int64_min + 3) (int64_min + 1) = false ∧
  int64_min + 1 > (int64_min + 2) - 3.
Proof. split; [vm_compute; reflexivity | unfold int64_min; lia]. Qed.

(** *** The verdict on a track does not depend on the counters *)

(** What an iteration of the loop does with a track. *)
Inductive verdict : Type :=
| Skip
| Filter
| Count (movement_name od_key : string).

Definition verdict_of (lo hi : Z) (lane_map : gmap string string) (t : Track)
    : verdict :=
  match track_od_key t with
  | None => Skip
  | Some od_key =>
      let movement_name := movement_of lane_map od_key in
      if decide (movement_name = "Undefined") then
        match frame_span t with
        | None => Skip
        | Some (v_start, v_end) =>
            if at_boundary lo hi v_start v_end then Filter
            else Count movement_name od_key
        end
      else Count movement_name od_key
  end.

Definition act (v : verdict) (vid : ident) (st : counters) : counters :=
  match v with
  | Skip => st
  | Filter => filtered st
  | Count name k => count name k vid st
  end.

Lemma step_act lo hi lane_map st vid t :
  step lo hi lane_map st (vid, t) = act (verdict_of lo hi lane_map t) vid st.
Proof.
  unfold step, verdict_of, frame_span.
  destruct (track_od_key t) as [k|]; [|reflexivity]. cbv zeta.
  destruct (decide (movement_of lane_map k = "Undefined")); [|reflexivity].
  destruct (frame_index t) as [| |fs]; simpl; try reflexivity.
  destruct (seq_first fs), (seq_last fs); try reflexivity.
  destruct (at_boundary lo hi z z0); reflexivity.
Qed.

(** A track whose OD key maps to a label other than "Undefined" gets the
    verdict [Count], whatever its [frame_index] holds. *)
Lemma verdict_mapped lo hi lane_map t k name :
  track_od_key t = Some k → lane_map !! k = Some name → name ≠ "Undefined" →
  verdict_of lo hi lane_map t = Count name k.
Proof.
  intros Hk Hmap Hname. unfold verdict_of, movement_of. rewrite Hk, Hmap.
  cbv zeta. destruct (decide (name = "Undefined")); [contradiction|reflexivity].
Qed.

(** The track with its [frame_index] replaced. *)
Definition with_frame_index (fi : field (list Z)) (t : Track) : Track :=
  {| frame_index := fi; lane_sequence := lane_sequence t |}.

Lemma track_od_key_with_frame_index fi t :
  track_od_key (with_frame_index fi t) = track_od_key t.
Proof. reflexivity. Qed.

(** *** Tracks with a mapped OD key *)

Lemma run_split meta pre post vid t lo hi :
  global_range (snd <$> (pre ++ (vid, t) :: post)) = Some (lo, hi) →
  run (pre ++ (vid, t) :: post) meta =
    Some (pass2 lo hi (lane_map_of meta)
            (step lo hi (lane_map_of meta)
               (pass2 lo hi (lane_map_of meta) init pre) (vid, t)) post).
Proof.
  intros Hrange. unfold run. rewrite Hrange, pass2_app, pass2_cons. reflexivity.
Qed.

(** Example data: one track with lane sequence 3, 5, 7 whose frames [0, 2]
    touch the global boundary, and a map that sends "3-7" to the literal
    label "Undefined". *)
Definition boundary_track : Track :=
  {| frame_index := Val [0; 1; 2];
     lane_sequence := Val [LaneNum 3; LaneNum 5; LaneNum 7] |}.

Definition undefined_label_meta : Meta :=
  {| lane_sequence_to_movement_map := Some {[ "3-7" := "Undefined" ]} |}.

(** C2, counterexample.  The OD key "3-7" of the track is present in the
    movement map, with the label "Undefined"; the track touches the frame
    boundary, and the classifier boundary-filters it instead of counting it:
    nothing is counted and [undefined_filtered_count] is 1. *)
Lemma mapped_to_Undefined_is_boundary_filtered :
  track_od_key boundary_track = Some "3-7" ∧
  lane_map_of undefined_label_meta !! "3-7" = Some "Undefined" ∧
  run [(IdInt 1, boundary_track)] undefined_label_meta = Some (filtered init) ∧
  excluded init (filtered init) ∧
  ¬ counted_as "Undefined" "3-7" (IdInt 1) init (filtered init) ∧
  analysis_movement_data [(IdInt 1, boundary_track)] undefined_label_meta = ∅.
Proof.
  split; [reflexivity|]. split; [reflexivity|]. split; [reflexivity|].
  split; [apply filtered_excluded|]. split; [|reflexivity].
  intros Hc. eapply excluded_not_counted; [apply filtered_excluded|exact Hc].
Qed.

(** C2, amended.  A track whose OD key the movement map sends to a label
    other than "Undefined" is counted in its loop iteration, whatever its
    [frame_index] holds, whenever the run reaches pass 2 (some track of the
    mapping has a non-empty [frame_index]): [movement_counts] of the label
    and [od_counts] of the key go up by one, the identifier is appended to
    [od_vehicles] of the key, and the track is not boundary-filtered. *)
Theorem mapped_track_counted_regardless_of_frames
    (meta : Meta) (pre post : list (ident * Track)) (vid : ident) (t : Track)
    (k name : string) (lo hi : Z) :
  track_od_key t = Some k →
  lane_map_of meta !! k = Some name →
  name ≠ "Undefined" →
  global_range (snd <$> (pre ++ (vid, t) :: post)) = Some (lo, hi) →
  let go := pass2 lo hi (lane_map_of meta) in
  let before := go init pre in
  let after := step lo hi (lane_map_of meta) before (vid, t) in
  run (pre ++ (vid, t) :: post) meta = Some (go after post) ∧
  counted_as name k vid before after ∧
  ¬ excluded before after ∧
  valid_movement_vehicles after = S (valid_movement_vehicles before).
Proof.
  intros Hk Hmap Hname Hrange. cbv zeta.
  split; [apply run_split, Hrange|].
  rewrite step_act, (verdict_mapped lo hi _ t k name Hk Hmap Hname). simpl.
  split; [apply count_counted_as|]. split.
  - intros Hex. eapply excluded_not_counted; [exact Hex|apply count_counted_as].
  - destruct (decide (name = "Undefined")); [contradiction|reflexivity].
Qed.

(** Example data: a mapped track that carries no [frame_index] at all. *)
Definition frameless_track : Track :=
  {| frame_index := Absent;
     lane_sequence := Val [LaneNum 3; LaneNum 5; LaneNum 7] |}.

Definition through_meta : Meta :=
  {| lane_sequence_to_movement_map := Some {[ "3-7" := "NB_Through" ]} |}.

(** C10, counterexample.  The only track of the mapping has a mapped OD key
    (label "NB_Through") and no [frame_index].  Pass 1 reads [frame_index]
    of every track, finds no frame, and the classifier returns the empty
    result before pass 2: the track is not counted. *)
Lemma mapped_track_without_frames_not_counted :
  track_od_key frameless_track = Some "3-7" ∧
  lane_map_of through_meta !! "3-7" = Some "NB_Through" ∧
  run [(IdInt 1, frameless_track)] through_meta = None ∧
  analysis_movement_data [(IdInt 1, frameless_track)] through_meta = ∅.
Proof. repeat split. Qed.

(** C10, amended.  When pass 1 found a global frame range (some track of
    the mapping has a non-empty [frame_index]), a track whose OD key maps to
    a label other than "Undefined" is counted although its own [frame_index]
    is absent, [None] or empty: the count of its label and the count of its
    OD key go up by one, its identifier is appended to the vehicle list of
    the key, and [valid_movement_vehicles] goes up by one.  The loop
    iteration of such a track gives the same counters for every value of
    its [frame_index], and counts it for every such value: pass 2 reads
    that field only for tracks that classify as "Undefined". *)
Theorem mapped_track_counted_without_frames
    (meta : Meta) (pre post : list (ident * Track)) (vid : ident) (t : Track)
    (k name : string) (lo hi : Z) :
  track_od_key t = Some k →
  lane_map_of meta !! k = Some name →
  name ≠ "Undefined" →
  frame_index t = Absent ∨ frame_index t = PyNone ∨ frame_index t = Val [] →
  global_range (snd <$> (pre ++ (vid, t) :: post)) = Some (lo, hi) →
  let go := pass2 lo hi (lane_map_of meta) in
  let before := go init pre in
  let after := step lo hi (lane_map_of meta) before (vid, t) in
  run (pre ++ (vid, t) :: post) meta = Some (go after post) ∧
  counted_as name k vid before after ∧
  ¬ excluded before after ∧
  valid_movement_vehicles after = S (valid_movement_vehicles before) ∧
  ∀ (fi : field (list Z)) (st : counters),
    step lo hi (lane_map_of meta) st (vid, with_frame_index fi t) =
    step lo hi (lane_map_of meta) st (vid, t) ∧
    counted_as name k vid st
      (step lo hi (lane_map_of meta) st (vid, with_frame_index fi t)).
Proof.
  intros Hk Hmap Hname _ Hrange. cbv zeta.
  assert (Hstep : ∀ fi st,
            step lo hi (lane_map_of meta) st (vid, with_frame_index fi t) =
            count name k vid st).
  { intros fi st. rewrite step_act, (verdict_mapped lo hi _ _ k name); auto. }
  assert (Hstep' : ∀ st,
            step lo hi (lane_map_of meta) st (vid, t) = count name k vid st).
  { intros st. rewrite step_act, (verdict_mapped lo hi _ _ k name); auto. }
  split; [apply run_split, Hrange|].
  rewrite Hstep'.
  split; [apply count_counted_as|]. split; [|split].
  - intros Hex. eapply excluded_not_counted; [exact Hex|apply count_counted_as].
  - simpl. destruct (decide (name = "Undefined")); [contradiction|reflexivity].
  - intros fi st. rewrite Hstep, Hstep'.
    split; [reflexivity|]. apply count_counted_as.
Qed.

(** *** Independence of the iteration order *)

(** The three aggregates whose values must not depend on the order. *)
Definition tallies (st : counters) : gmap string nat * gmap string nat * nat :=
  (movement_counts st, od_counts st, undefined_filtered_count st).

Lemma incr_comm (k1 k2 : string) (m : gmap string nat) :
  incr k1 (incr k2 m) = incr k2 (incr k1 m).
Proof.
  unfold incr. destruct (decide (k1 = k2)) as [->|Hne]; [reflexivity|].
  rewrite (lookup_insert_ne _ k2 k1), (lookup_insert_ne _ k1 k2) by congruence.
  apply insert_insert_ne. congruence.
Qed.

Lemma tallies_act (v : verdict) (vid : ident) (st1 st2 : counters) :
  tallies st1 = tallies st2 → tallies (act v vid st1) = tallies (act v vid st2).
Proof.
  unfold tallies. intros [= Hm Ho Hu].
  destruct v; simpl; rewrite ?Hm, ?Ho, ?Hu; reflexivity.
Qed.

Lemma tallies_act_comm (v1 v2 : verdict) (vid1 vid2 : ident) (st : counters) :
  tallies (act v1 vid1 (act v2 vid2 st)) = tallies (act v2 vid2 (act v1 vid1 st)).
Proof.
  unfold tallies.
  destruct v1, v2; simpl; try reflexivity.
  rewrite (incr_comm movement_name movement_name0).
  rewrite (incr_comm od_key od_key0). reflexivity.
Qed.

Lemma tallies_step lo hi lane_map (x : ident * Track) (st1 st2 : counters) :
  tallies st1 = tallies st2 →
  tallies (step lo hi lane_map st1 x) = tallies (step lo hi lane_map st2 x).
Proof. destruct x as [vid t]. rewrite !step_act. apply tallies_act. Qed.

Lemma tallies_pass2 lo hi lane_map (l : list (ident * Track)) :
  ∀ st1 st2, tallies st1 = tallies st2 →
  tallies (pass2 lo hi lane_map st1 l) = tallies (pass2 lo hi lane_map st2 l).
Proof.
  induction l as [|x l IH]; intros st1 st2 H; [exact H|].
  rewrite !pass2_cons. apply IH, tallies_step, H.
Qed.

Lemma tallies_pass2_perm lo hi lane_map (l1 l2 : list (ident * Track)) :
  l1 ≡ₚ l2 →
  ∀ st1 st2, tallies st1 = tallies st2 →
  tallies (pass2 lo hi lane_map st1 l1) = tallies (pass2 lo hi lane_map st2 l2).
Proof.
  induction 1 as [|x l1 l2 _ IH|x y l|l1 l2 l3 _ IH12 _ IH23]; intros st1 st2 H.
  - exact H.
  - rewrite !pass2_cons. apply IH, tallies_step, H.
  - rewrite !pass2_cons. apply tallies_pass2.
    destruct x as [vx tx], y as [vy ty]. rewrite !step_act.
    rewrite tallies_act_comm. apply tallies_act, tallies_act, H.
  - rewrite (IH12 st1 st2 H). apply IH23. reflexivity.
Qed.

Lemma py_min_ext (l1 l2 : list Z) :
  (∀ x, x ∈ l1 ↔ x ∈ l2) → py_min l1 = py_min l2.
Proof.
  intros Hext. destruct (py_min l1) as [m|] eqn:H1.
  - symmetry. apply py_min_spec. apply py_min_spec in H1 as [Hin Hle].
    split; [apply Hext, Hin|]. intros x Hx. apply Hle, Hext, Hx.
  - destruct l1 as [|a l1]; [|discriminate].
    destruct l2 as [|b l2]; [reflexivity|].
    exfalso. assert (Hb : b ∈ @nil Z) by (apply Hext; left). inversion Hb.
Qed.

Lemma py_max_ext (l1 l2 : list Z) :
  (∀ x, x ∈ l1 ↔ x ∈ l2) → py_max l1 = py_max l2.
Proof.
  intros Hext. destruct (py_max l1) as [m|] eqn:H1.
  - symmetry. apply py_max_spec. apply py_max_spec in H1 as [Hin Hle].
    split; [apply Hext, Hin|]. intros x Hx. apply Hle, Hext, Hx.
  - destruct l1 as [|a l1]; [|discriminate].
    destruct l2 as [|b l2]; [reflexivity|].
    exfalso. assert (Hb : b ∈ @nil Z) by (apply Hext; left). inversion Hb.
Qed.

Lemma global_range_perm (l1 l2 : list Track) :
  l1 ≡ₚ l2 → global_range l1 = global_range l2.
Proof.
  intros Hperm. unfold global_range.
  rewrite (py_min_ext (all_start_frames l1) (all_start_frames l2)).
  - rewrite (py_max_ext (all_end_frames l1) (all_end_frames l2)); [reflexivity|].
    intros x. unfold all_end_frames. rewrite !list_elem_of_omap.
    split; intros (t & Hin & Ht); exists t; split; auto;
      [rewrite <- Hperm | rewrite Hperm]; exact Hin.
  - intros x. unfold all_start_frames. rewrite !list_elem_of_omap.
    split; intros (t & Hin & Ht); exists t; split; auto;
      [rewrite <- Hperm | rewrite Hperm]; exact Hin.
Qed.

(** C7.  Two iteration orders of the same track mapping give the same
    [movement_counts], [od_counts] and [undefined_filtered_count] (the run
    returns early for one order exactly when it does for the other), and so
    the same returned dictionary. *)
Theorem tallies_independent_of_iteration_order
    (meta : Meta) (data data' : list (ident * Track)) :
  data ≡ₚ data' →
  tallies <$> run data meta = tallies <$> run data' meta ∧
  analysis_movement_data data meta = analysis_movement_data data' meta.
Proof.
  intros Hperm.
  assert (H : tallies <$> run data meta = tallies <$> run data' meta).
  { unfold run.
    rewrite (global_range_perm (snd <$> data) (snd <$> data'))
      by (apply fmap_Permutation, Hperm).
    destruct (global_range (snd <$> data')) as [[lo hi]|]; [|reflexivity].
    simpl. f_equal. apply tallies_pass2_perm; [exact Hperm|reflexivity]. }
  split; [exact H|].
  unfold analysis_movement_data.
  destruct (run data meta), (run data' meta); simpl in H; try congruence.
  unfold tallies in H. congruence.
Qed.

(** *** Tracks that the loop skips *)

(** X1.  A track whose [lane_sequence] is absent, [None] or empty, or on
    whose first or last lane [int()] fails, is skipped by its loop
    iteration: the counters are as they were, so it is neither counted nor
    boundary-filtered, whatever its frames and the movement map are. *)
Theorem track_without_od_key_is_skipped
    (lo hi : Z) (lane_map : gmap string string) (st : counters)
    (vid : ident) (t : Track) :
  lane_sequence t = Absent ∨ lane_sequence t = PyNone ∨
  lane_sequence t = Val [] ∨
  (∃ lane_seq, lane_sequence t = Val lane_seq ∧
     (seq_first lane_seq = Some LaneBad ∨ seq_last lane_seq = Some LaneBad)) →
  skipped st (step lo hi lane_map st (vid, t)).
Proof.
  intros Hcases. unfold skipped, step, track_od_key.
  destruct Hcases as [->|[->|[->|(lane_seq & -> & Hbad)]]]; try reflexivity.
  simpl. destruct Hbad as [Hb|Hb]; rewrite Hb.
  - destruct (seq_last lane_seq); reflexivity.
  - destruct (seq_first lane_seq) as [a|]; [|reflexivity].
    destruct (py_int a); reflexivity.
Qed.

(** X2.  A track that classifies as "Undefined" and has no frame (its
    [frame_index] is absent, [None] or empty) is skipped by its loop
    iteration: it is neither counted nor boundary-filtered. *)
Theorem undefined_track_without_frames_is_skipped
    (lo hi : Z) (lane_map : gmap string string) (st : counters)
    (vid : ident) (t : Track) (k : string) :
  track_od_key t = Some k →
  movement_of lane_map k = "Undefined" →
  frame_index t = Absent ∨ frame_index t = PyNone ∨ frame_index t = Val [] →
  skipped st (step lo hi lane_map st (vid, t)).
Proof.
  intros Hk Hname Hframes. unfold skipped. rewrite step_act.
  unfold verdict_of, frame_span. rewrite Hk. cbv zeta. rewrite Hname.
  destruct (decide ("Undefined" = "Undefined")); [|congruence].
  destruct Hframes as [->|[->| ->]]; reflexivity.
Qed.

(** *** The theorems at concrete inputs *)

(** A mapped track spanning frames 0 to 100, and an unmapped one (OD key
    "3-9") that starts at the global first frame. *)
Definition long_track : Track :=
  {| frame_index := Val [0; 50; 100];
     lane_sequence := Val [LaneNum 3; LaneNum 7] |}.

Definition unmapped_track : Track :=
  {| frame_index := Val [0; 1; 2];
     lane_sequence := Val [LaneNum 3; LaneNum 9] |}.




Lemma through_is_not_Undefined : "NB_Through" ≠ "Undefined".
Proof. discriminate. Defined.

Lemma mapped_track_counted_witness :
  let go := pass2 0 2 (lane_map_of through_meta) in
  let before := go init [] in
  let after := step 0 2 (lane_map_of through_meta) before (IdInt 1, boundary_track) in
  run ([] ++ (IdInt 1, boundary_track) :: []) through_meta = Some (go after []) ∧
  counted_as "NB_Through" "3-7" (IdInt 1) before after ∧
  ¬ excluded before after ∧
  valid_movement_vehicles after = S (valid_movement_vehicles before).
Proof.
  exact (mapped_track_counted_regardless_of_frames through_meta [] []
           (IdInt 1) boundary_track "3-7" "NB_Through" 0 2
           eq_refl eq_refl through_is_not_Undefined eq_refl).
Defined.

Lemma mapped_track_without_frames_witness :
  let go := pass2 0 2 (lane_map_of through_meta) in
  let before := go init [(IdInt 1, boundary_track)] in
  let after := step 0 2 (lane_map_of through_meta) before (IdInt 2, frameless_track) in
  run ([(IdInt 1, boundary_track)] ++ (IdInt 2, frameless_track) :: []) through_meta =
    Some (go after []) ∧
  counted_as "NB_Through" "3-7" (IdInt 2) before after ∧
  ¬ excluded before after ∧
  valid_movement_vehicles after = S (valid_movement_vehicles before) ∧
  ∀ (fi : field (list Z)) (st : counters),
    step 0 2 (lane_map_of through_meta) st
         (IdInt 2, with_frame_index fi frameless_track) =
    step 0 2 (lane_map_of through_meta) st (IdInt 2, frameless_track) ∧
    counted_as "NB_Through" "3-7" (IdInt 2) st
      (step 0 2 (lane_map_of through_meta) st
            (IdInt 2, with_frame_index fi frameless_track)).
Proof.
  exact (mapped_track_counted_without_frames through_meta
           [(IdInt 1, boundary_track)] [] (IdInt 2) frameless_track
           "3-7" "NB_Through" 0 2
           eq_refl eq_refl through_is_not_Undefined (or_introl eq_refl) eq_refl).
Defined.

(** A track whose lane sequence ends in a value [int()] rejects. *)
Definition bad_lane_track : Track :=
  {| frame_index := Val [0; 1; 2];
     lane_sequence := Val [LaneNum 3; LaneBad] |}.

Lemma track_without_od_key_witness :
  skipped init (step 0 2 (lane_map_of through_meta) init (IdInt 1, bad_lane_track)).
Proof.
  apply (track_without_od_key_is_skipped 0 2 (lane_map_of through_meta) init
           (IdInt 1) bad_lane_track).
  right; right; right. exists [LaneNum 3; LaneBad].
  split; [reflexivity|]. right. reflexivity.
Defined.

(** An unmapped track (OD key "3-9") with an empty [frame_index]. *)
Definition unmapped_frameless_track : Track :=
  {| frame_index := Val [];
     lane_sequence := Val [LaneNum 3; LaneNum 9] |}.

Lemma undefined_track_without_frames_witness :
  skipped init
    (step 0 2 (lane_map_of through_meta) init (IdInt 1, unmapped_frameless_track)).
Proof.
  exact (undefined_track_without_frames_is_skipped 0 2 (lane_map_of through_meta)
           init (IdInt 1) unmapped_frameless_track "3-9" eq_refl eq_refl
           (or_intror (or_intror eq_refl))).
Defined.

Lemma iteration_order_witness :
  let a := (IdInt 1, long_track) in
  let b := (IdInt 2, unmapped_track) in
  tallies <$> run [a; b] through_meta = tallies <$> run [b; a] through_meta ∧
  analysis_movement_data [a; b] through_meta =
  analysis_movement_data [b; a] through_meta.
Proof.
  exact (tallies_independent_of_iteration_order through_meta
           [(IdInt 1, long_track); (IdInt 2, unmapped_track)]
           [(IdInt 2, unmapped_track); (IdInt 1, long_track)]
           (perm_swap _ _ [])).
Defined.

End Classifier.

(** ** Python [str] and [bytes]

    A [str] is a sequence of code points; a [bytes] object is a Rocq
    [string], whose characters are the 8-bit bytes. *)

Abbreviation pystr := (list N).

(** Division and remainder by a constant, for [lia]. *)
Ltac Zify.zify_post_hook ::= Z.to_euclidean_division_equations.

(** ** The UTF-8 codec ([str.encode('utf-8')], [bytes.decode('utf-8')]) *)

Module Utf8.

Open Scope N_scope.

(** Lone surrogates are code points of a [str] that UTF-8 cannot encode. *)
Definition is_surrogate (c : N) : bool := (0xD800 <=? c) && (c <? 0xE000).

(** The bytes of one code point; [None] is UnicodeEncodeError. *)
Definition encode_cp (c : N) : option (list N) :=
  if c <? 0x80 then Some [c]
  else if c <? 0x800 then Some [0xC0 + c / 64; 0x80 + c mod 64]
  else if c <? 0x10000 then
    if is_surrogate c then None
    else Some [0xE0 + c / 4096; 0x80 + (c / 64) mod 64; 0x80 + c mod 64]
  else if c <? 0x110000 then
    Some [0xF0 + c / 262144; 0x80 + (c / 4096) mod 64;
          0x80 + (c / 64) mod 64; 0x80 + c mod 64]
  else None.

Fixpoint encode_list (s : pystr) : option (list N) :=
  match s with
  | [] => Some []
  | c :: s' =>
      match encode_cp c, encode_list s' with
      | Some bs, Some rest => Some (bs ++ rest)
      | _, _ => None
      end
  end.

Definition bytes_of_list (l : list N) : string :=
  String.string_of_list_ascii (ascii_of_N <$> l).

Definition list_of_bytes (b : string) : list N :=
  N_of_ascii <$> String.list_ascii_of_string b.

(** [s.encode('utf-8')] *)
Definition encode (s : pystr) : option string :=
  bytes_of_list <$> encode_list s.

Definition is_cont (b : N) : bool := (0x80 <=? b) && (b <? 0xC0).

(** Strict decoding: truncated and overlong sequences, stray continuation
    bytes, encoded surrogates and values above U+10FFFF are errors. *)
Fixpoint decode_list (l : list N) : option pystr :=
  match l with
  | [] => Some []
  | b0 :: l1 =>
      if b0 <? 0x80 then cons b0 <$> decode_list l1
      else if b0 <? 0xC2 then None
      else if b0 <? 0xE0 then
        match l1 with
        | b1 :: l2 =>
            if is_cont b1
            then cons ((b0 - 0xC0) * 64 + (b1 - 0x80)) <$> decode_list l2
            else None
        | _ => None
        end
      else if b0 <? 0xF0 then
        match l1 with
        | b1 :: b2 :: l3 =>
            let c := (b0 - 0xE0) * 4096 + (b1 - 0x80) * 64 + (b2 - 0x80) in
            if is_cont b1 && is_cont b2 && (0x800 <=? c) && negb (is_surrogate c)
            then cons c <$> decode_list l3
            else None
        | _ => None
        end
      else if b0 <? 0xF5 then
        match l1 with
        | b1 :: b2 :: b3 :: l4 =>
            let c := (b0 - 0xF0) * 262144 + (b1 - 0x80) * 4096
                     + (b2 - 0x80) * 64 + (b3 - 0x80) in
            if is_cont b1 && is_cont b2 && is_cont b3
               && (0x10000 <=? c) && (c <? 0x110000)
            then cons c <$> decode_list l4
            else None
        | _ => None
        end
      else None
  end.

(** [b.decode('utf-8')] *)
Definition decode (b : string) : option pystr :=
  decode_list (list_of_bytes b).

Ltac bool_to_prop :=
  repeat match goal with
  | H : (_ <? _) = true |- _ => apply N.ltb_lt in H
  | H : (_ <? _) = false |- _ => apply N.ltb_ge in H
  | H : (_ <=? _) = true |- _ => apply N.leb_le in H
  | H : (_ <=? _) = false |- _ => apply N.leb_gt in H
  | H : (_ && _) = true |- _ => apply andb_true_iff in H as [? ?]
  | H : (_ && _) = false |- _ => apply andb_false_iff in H as [?|?]
  end.

Lemma ltb_true a b : a < b → (a <? b) = true.
Proof. apply N.ltb_lt. Qed.
Lemma ltb_false a b : b ≤ a → (a <? b) = false.
Proof. apply N.ltb_ge. Qed.
Lemma leb_true a b : a ≤ b → (a <=? b) = true.
Proof. apply N.leb_le. Qed.

Lemma encode_cp_bytes c bs : encode_cp c = Some bs → Forall (λ b, b < 256) bs.
Proof.
  unfold encode_cp, is_surrogate. intros H.
  repeat match type of H with
  | context [if ?b then _ else _] => destruct b eqn:?
  end; inversion H; subst; bool_to_prop; repeat constructor; lia.
Qed.

Lemma decode_encode_cp c bs rest :
  encode_cp c = Some bs → decode_list (bs ++ rest) = cons c <$> decode_list rest.
Proof.
  unfold encode_cp. intros H.
  destruct (c <? 0x80) eqn:H1.
  { inversion H; subst. simpl. rewrite H1. reflexivity. }
  destruct (c <? 0x800) eqn:H2.
  { inversion H; subst. bool_to_prop. cbn [app decode_list].
    rewrite (ltb_false (0xC0 + c / 64) 0x80) by lia.
    rewrite (ltb_false (0xC0 + c / 64) 0xC2) by lia.
    rewrite (ltb_true (0xC0 + c / 64) 0xE0) by lia.
    unfold is_cont. rewrite leb_true, ltb_true by lia. cbn [andb].
    replace ((0xC0 + c / 64 - 0xC0) * 64 + (0x80 + c mod 64 - 0x80)) with c by lia.
    reflexivity. }
  destruct (c <? 0x10000) eqn:H3.
  { destruct (is_surrogate c) eqn:Hs; [discriminate|].
    inversion H; subst. bool_to_prop. cbn [app decode_list].
    rewrite (ltb_false (0xE0 + c / 4096) 0x80) by lia.
    rewrite (ltb_false (0xE0 + c / 4096) 0xC2) by lia.
    rewrite (ltb_false (0xE0 + c / 4096) 0xE0) by lia.
    rewrite (ltb_true (0xE0 + c / 4096) 0xF0) by lia.
    cbv zeta.
    replace ((0xE0 + c / 4096 - 0xE0) * 4096 + (0x80 + (c / 64) mod 64 - 0x80) * 64
             + (0x80 + c mod 64 - 0x80)) with c by lia.
    unfold is_cont. rewrite !leb_true, !ltb_true by lia.
    rewrite Hs. reflexivity. }
  destruct (c <? 0x110000) eqn:H4; [|discriminate].
  inversion H; subst. bool_to_prop. cbn [app decode_list].
  rewrite (ltb_false (0xF0 + c / 262144) 0x80) by lia.
  rewrite (ltb_false (0xF0 + c / 262144) 0xC2) by lia.
  rewrite (ltb_false (0xF0 + c / 262144) 0xE0) by lia.
  rewrite (ltb_false (0xF0 + c / 262144) 0xF0) by lia.
  rewrite (ltb_true (0xF0 + c / 262144) 0xF5) by lia.
  cbv zeta.
  replace ((0xF0 + c / 262144 - 0xF0) * 262144 + (0x80 + (c / 4096) mod 64 - 0x80) * 4096
           + (0x80 + (c / 64) mod 64 - 0x80) * 64 + (0x80 + c mod 64 - 0x80))
    with c by lia.
  unfold is_cont. rewrite !leb_true, !ltb_true by lia. reflexivity.
Qed.

Lemma encode_list_bytes s bs : encode_list s = Some bs → Forall (λ b, b < 256) bs.
Proof.
  revert bs. induction s as [|c s IH]; simpl; intros bs H.
  - inversion H. constructor.
  - destruct (encode_cp c) as [b1|] eqn:Hc; [|discriminate].
    destruct (encode_list s) as [b2|]; [|discriminate].
    inversion H; subst. apply Forall_app. split; [eapply encode_cp_bytes, Hc|auto].
Qed.

Lemma decode_encode_list s bs : encode_list s = Some bs → decode_list bs = Some s.
Proof.
  revert bs. induction s as [|c s IH]; simpl; intros bs H.
  - inversion H. reflexivity.
  - destruct (encode_cp c) as [b1|] eqn:Hc; [|discriminate].
    destruct (encode_list s) as [b2|]; [|discriminate].
    inversion H; subst. rewrite (decode_encode_cp c b1 b2 Hc), (IH b2 eq_refl).
    reflexivity.
Qed.

Lemma list_of_bytes_of_list l :
  Forall (λ b, b < 256) l → list_of_bytes (bytes_of_list l) = l.
Proof.
  unfold list_of_bytes, bytes_of_list. rewrite String.list_ascii_of_string_of_list_ascii.
  induction 1 as [|b l Hb _ IH]; simpl; [reflexivity|].
  rewrite N_ascii_embedding by exact Hb. f_equal. exact IH.
Qed.

Lemma decode_encode s b : encode s = Some b → decode b = Some s.
Proof.
  unfold encode, decode. destruct (encode_list s) as [bs|] eqn:H; [|discriminate].
  intros [= <-]. rewrite list_of_bytes_of_list by (eapply encode_list_bytes, H).
  apply decode_encode_list, H.
Qed.

Lemma is_surrogate_false c : is_surrogate c = false ↔ c < 0xD800 ∨ 0xE000 ≤ c.
Proof.
  unfold is_surrogate. rewrite andb_false_iff, N.leb_gt, N.ltb_ge. reflexivity.
Qed.

Lemma encode_cp_is_Some c :
  is_Some (encode_cp c) ↔ c < 0x110000 ∧ is_surrogate c = false.
Proof.
  unfold encode_cp. rewrite is_surrogate_false.
  destruct (c <? 0x80) eqn:H1;
    [apply N.ltb_lt in H1; split; [intros _; lia | eauto]|].
  destruct (c <? 0x800) eqn:H2;
    [apply N.ltb_lt in H2; split; [intros _; lia | eauto]|].
  apply N.ltb_ge in H1, H2.
  destruct (c <? 0x10000) eqn:H3.
  - apply N.ltb_lt in H3. destruct (is_surrogate c) eqn:Hs.
    + unfold is_surrogate in Hs. apply andb_true_iff in Hs as [Ha Hb].
      apply N.leb_le in Ha. apply N.ltb_lt in Hb.
      split; [intros [x Hx]; discriminate | lia].
    + apply is_surrogate_false in Hs. split; [intros _; lia | eauto].
  - apply N.ltb_ge in H3. destruct (c <? 0x110000) eqn:H4.
    + apply N.ltb_lt in H4. split; [intros _; lia | eauto].
    + apply N.ltb_ge in H4. split; [intros [x Hx]; discriminate | lia].
Qed.

(** A string without lone surrogates (all of whose elements are code
    points). *)
Definition encodable (s : pystr) : Prop :=
  Forall (λ c, c < 0x110000 ∧ is_surrogate c = false) s.

(** Encoding fails exactly on a string that holds a lone surrogate (or a
    value that is no code point). *)
Lemma encode_is_Some s : is_Some (encode s) ↔ encodable s.
Proof.
  unfold encode, encodable. rewrite fmap_is_Some. induction s as [|c s IH]; simpl.
  - split; [constructor|eauto].
  - rewrite Forall_cons, <- IH, <- encode_cp_is_Some.
    destruct (encode_cp c) as [bs|], (encode_list s) as [rest|]; split;
      try (intros [x Hx]; discriminate);
      try (intros [[x Hx] [y Hy]]; discriminate); eauto.
Qed.

End Utf8.

(** A [str] literal written in ASCII. *)
Definition lit (s : string) : pystr := N_of_ascii <$> String.list_ascii_of_string s.

(** ** JSON values and Python's [json] module *)

(** What [json.load] returns: [None], [bool], [int], [float], [str],
    [list], and [dict] with [str] keys (an association list in insertion
    order). *)
#[warnings="-register-all"]
Inductive json : Type :=
| JNull
| JBool (b : bool)
| JInt (z : Z)
| JFloat (x : float)
| JStr (s : pystr)
| JList (l : list json)
| JDict (d : list (pystr * json)).

Module Json.

Open Scope N_scope.

(** *** Encoding strings and integers

    The parts of [json.dumps(obj, ensure_ascii=False)] that do not touch
    floats. *)


Definition hex_digit (d : N) : N := if d <? 10 then 48 + d else 87 + d.

(** ESCAPE_DCT of json.encoder: the quote, the backslash and the control
    characters are escaped, everything else is kept. *)
Definition escape_char (c : N) : pystr :=
  if c =? 34 then [92; 34]
  else if c =? 92 then [92; 92]
  else if c =? 10 then [92; 110]
  else if c =? 13 then [92; 114]
  else if c =? 9 then [92; 116]
  else if c =? 8 then [92; 98]
  else if c =? 12 then [92; 102]
  else if c <? 32 then [92; 117; 48; 48; hex_digit (c / 16); hex_digit (c mod 16)]
  else [c].

Definition encode_basestring (s : pystr) : pystr :=
  34 :: flat_map escape_char s ++ [34].

Fixpoint uint_chars (d : Decimal.uint) : pystr :=
  match d with
  | Decimal.Nil => []
  | Decimal.D0 u => 48 :: uint_chars u
  | Decimal.D1 u => 49 :: uint_chars u
  | Decimal.D2 u => 50 :: uint_chars u
  | Decimal.D3 u => 51 :: uint_chars u
  | Decimal.D4 u => 52 :: uint_chars u
  | Decimal.D5 u => 53 :: uint_chars u
  | Decimal.D6 u => 54 :: uint_chars u
  | Decimal.D7 u => 55 :: uint_chars u
  | Decimal.D8 u => 56 :: uint_chars u
  | Decimal.D9 u => 57 :: uint_chars u
  end.

(** [int.__repr__] *)
Definition int_repr (z : Z) : pystr :=
  match z with
  | Z0 => [48]
  | Zpos p => uint_chars (Pos.to_uint p)
  | Zneg p => 45 :: uint_chars (Pos.to_uint p)
  end.

Fixpoint join (sep : pystr) (items : list pystr) : pystr :=
  match items with
  | [] => []
  | [x] => x
  | x :: rest => x ++ sep ++ join sep rest
  end.

(** *** Scanning strings and numbers

    The parts of [json.loads] that do not touch floats. *)

Definition is_ws (c : N) : bool :=
  (c =? 32) || (c =? 9) || (c =? 10) || (c =? 13).

Fixpoint skip_ws (s : pystr) : pystr :=
  match s with
  | c :: s' => if is_ws c then skip_ws s' else s
  | [] => []
  end.

Definition is_digit (c : N) : bool := (48 <=? c) && (c <=? 57).

Definition hex_val (c : N) : option N :=
  if is_digit c then Some (c - 48)
  else if (97 <=? c) && (c <=? 102) then Some (c - 87)
  else if (65 <=? c) && (c <=? 70) then Some (c - 55)
  else None.

(** Four hexadecimal digits of a [\uXXXX] escape. *)
Definition hex4 (s : pystr) : option (N * pystr) :=
  match s with
  | a :: b :: c :: d :: rest =>
      match hex_val a, hex_val b, hex_val c, hex_val d with
      | Some a, Some b, Some c, Some d =>
          Some (((a * 16 + b) * 16 + c) * 16 + d, rest)
      | _, _, _, _ => None
      end
  | _ => None
  end.

(** BACKSLASH of json.decoder *)
Definition simple_escape (c : N) : option N :=
  if c =? 34 then Some 34
  else if c =? 92 then Some 92
  else if c =? 47 then Some 47
  else if c =? 98 then Some 8
  else if c =? 102 then Some 12
  else if c =? 110 then Some 10
  else if c =? 114 then Some 13
  else if c =? 116 then Some 9
  else None.

Definition is_high_surrogate (c : N) : bool := (0xD800 <=? c) && (c <=? 0xDBFF).
Definition is_low_surrogate (c : N) : bool := (0xDC00 <=? c) && (c <=? 0xDFFF).

(** [scanstring] (strict), after the opening quote: the decoded string and
    the text after the closing quote. *)
Fixpoint scanstring (fuel : nat) (s : pystr) : option (pystr * pystr) :=
  match fuel with
  | O => None
  | S fuel' =>
      match s with
      | [] => None
      | c :: s1 =>
          if c =? 34 then Some ([], s1)
          else if c =? 92 then
            match s1 with
            | [] => None
            | e :: s2 =>
                if e =? 117 then
                  match hex4 s2 with
                  | None => None
                  | Some (u1, s3) =>
                      let single :=
                        match scanstring fuel' s3 with
                        | Some (t, r) => Some (u1 :: t, r)
                        | None => None
                        end in
                      if is_high_surrogate u1 then
                        match s3 with
                        | b :: u :: s4 =>
                            if (b =? 92) && (u =? 117) then
                              match hex4 s4 with
                              | None => None
                              | Some (u2, s5) =>
                                  if is_low_surrogate u2 then
                                    match scanstring fuel' s5 with
                                    | Some (t, r) =>
                                        Some (0x10000 + (u1 - 0xD800) * 1024
                                                + (u2 - 0xDC00) :: t, r)
                                    | None => None
                                    end
                                  else single
                              end
                            else single
                        | _ => single
                        end
                      else single
                  end
                else
                  match simple_escape e with
                  | None => None
                  | Some d =>
                      match scanstring fuel' s2 with
                      | Some (t, r) => Some (d :: t, r)
                      | None => None
                      end
                  end
            end
          else if c <? 32 then None
          else
            match scanstring fuel' s1 with
            | Some (t, r) => Some (c :: t, r)
            | None => None
            end
      end
  end.

Fixpoint span_digits (s : pystr) : pystr * pystr :=
  match s with
  | c :: s' =>
      if is_digit c then let '(ds, r) := span_digits s' in (c :: ds, r)
      else ([], s)
  | [] => ([], [])
  end.

Fixpoint uint_of_chars (s : pystr) : Decimal.uint :=
  match s with
  | [] => Decimal.Nil
  | c :: s' =>
      let u := uint_of_chars s' in
      if c =? 48 then Decimal.D0 u
      else if c =? 49 then Decimal.D1 u
      else if c =? 50 then Decimal.D2 u
      else if c =? 51 then Decimal.D3 u
      else if c =? 52 then Decimal.D4 u
      else if c =? 53 then Decimal.D5 u
      else if c =? 54 then Decimal.D6 u
      else if c =? 55 then Decimal.D7 u
      else if c =? 56 then Decimal.D8 u
      else if c =? 57 then Decimal.D9 u
      else Decimal.Nil
  end.

(** [int(text)] for a sign and a run of digits *)
Definition int_of_text (negative : bool) (digits : pystr) : Z :=
  let n := Z.of_N (N.of_uint (uint_of_chars digits)) in
  if negative then (- n)%Z else n.

(** The parts of a number: a zero or a run of digits that starts with a
    non-zero one, then an optional fraction (a dot and digits) and an
    optional exponent (e or E, a sign, digits).  A dot or an exponent mark
    that no digit follows is not part of the number. *)
Definition match_int (s : pystr) : option (pystr * pystr) :=
  match s with
  | [] => None
  | d :: s' =>
      if d =? 48 then Some ([48], s')
      else if is_digit d then
        let '(ds, r) := span_digits s' in Some (d :: ds, r)
      else None
  end.

Definition match_frac (s : pystr) : pystr * pystr :=
  match s with
  | dot :: r =>
      if dot =? 46 then
        match span_digits r with
        | ([], _) => ([], s)
        | (fd, r') => (46 :: fd, r')
        end
      else ([], s)
  | [] => ([], s)
  end.

Definition match_exp (s : pystr) : pystr * pystr :=
  match s with
  | e :: r =>
      if (e =? 101) || (e =? 69) then
        let '(sg, r') :=
          match r with
          | c :: r'' => if (c =? 45) || (c =? 43) then ([c], r'') else ([], r)
          | [] => ([], r)
          end in
        match span_digits r' with
        | ([], _) => ([], s)
        | (ed, r'') => (e :: sg ++ ed, r'')
        end
      else ([], s)
  | [] => ([], s)
  end.

(** [s] starts with [p]: the rest of [s]. *)
Fixpoint strip_prefix (p s : pystr) : option pystr :=
  match p, s with
  | [], _ => Some s
  | a :: p', b :: s' => if a =? b then strip_prefix p' s' else None
  | _ :: _, [] => None
  end.

(** [d[k] = v] on an insertion-ordered dict. *)
Fixpoint dict_set (k : pystr) (v : json) (d : list (pystr * json))
    : list (pystr * json) :=
  match d with
  | [] => [(k, v)]
  | (k', v') :: d' =>
      if decide (k' = k) then (k', v) :: d' else (k', v') :: dict_set k v d'
  end.

(** *** Round trip of strings *)

Lemma hex_val_digit d : d < 16 → hex_val (hex_digit d) = Some d.
Proof.
  intros Hd. unfold hex_val, hex_digit, is_digit.
  destruct (d <? 10) eqn:H10.
  - apply N.ltb_lt in H10.
    replace (48 <=? 48 + d) with true by (symmetry; apply N.leb_le; lia).
    replace (48 + d <=? 57) with true by (symmetry; apply N.leb_le; lia).
    simpl. f_equal. lia.
  - apply N.ltb_ge in H10.
    replace (87 + d <=? 57) with false by (symmetry; apply N.leb_gt; lia).
    rewrite andb_false_r.
    replace (97 <=? 87 + d) with true by (symmetry; apply N.leb_le; lia).
    replace (87 + d <=? 102) with true by (symmetry; apply N.leb_le; lia).
    simpl. f_equal. lia.
Qed.

Lemma hex4_control c rest :
  c < 32 →
  hex4 (48 :: 48 :: hex_digit (c / 16) :: hex_digit (c mod 16) :: rest) = Some (c, rest).
Proof.
  intros Hc. unfold hex4.
  rewrite (hex_val_digit (c / 16)), (hex_val_digit (c mod 16)) by lia.
  change (hex_val 48) with (Some 0). f_equal. f_equal. lia.
Qed.

Lemma scanstring_escape_char fuel c t :
  scanstring (S fuel) (escape_char c ++ t) =
  match scanstring fuel t with
  | Some (u, r) => Some (c :: u, r)
  | None => None
  end.
Proof.
  unfold escape_char.
  destruct (c =? 34) eqn:E1; [apply N.eqb_eq in E1; subst; reflexivity|].
  destruct (c =? 92) eqn:E2; [apply N.eqb_eq in E2; subst; reflexivity|].
  destruct (c =? 10) eqn:E3; [apply N.eqb_eq in E3; subst; reflexivity|].
  destruct (c =? 13) eqn:E4; [apply N.eqb_eq in E4; subst; reflexivity|].
  destruct (c =? 9) eqn:E5; [apply N.eqb_eq in E5; subst; reflexivity|].
  destruct (c =? 8) eqn:E6; [apply N.eqb_eq in E6; subst; reflexivity|].
  destruct (c =? 12) eqn:E7; [apply N.eqb_eq in E7; subst; reflexivity|].
  destruct (c <? 32) eqn:E8.
  - apply N.ltb_lt in E8.
    change (scanstring (S fuel)
              ([92; 117; 48; 48; hex_digit (c / 16); hex_digit (c mod 16)] ++ t))
      with (match hex4 (48 :: 48 :: hex_digit (c / 16) :: hex_digit (c mod 16) :: t) with
            | None => None
            | Some (u1, s3) =>
                let single :=
                  match scanstring fuel s3 with
                  | Some (t, r) => Some (u1 :: t, r)
                  | None => None
                  end in
                if is_high_surrogate u1 then
                  match s3 with
                  | b :: u :: s4 =>
                      if (b =? 92) && (u =? 117) then
                        match hex4 s4 with
                        | None => None
                        | Some (u2, s5) =>
                            if is_low_surrogate u2 then
                              match scanstring fuel s5 with
                              | Some (t, r) =>
                                  Some (0x10000 + (u1 - 0xD800) * 1024
                                          + (u2 - 0xDC00) :: t, r)
                              | None => None
                              end
                            else single
                        end
                      else single
                  | _ => single
                  end
                else single
            end).
    rewrite hex4_control by exact E8. cbv zeta.
    replace (is_high_surrogate c) with false; [reflexivity|].
    symmetry. unfold is_high_surrogate. apply andb_false_iff. left.
    apply N.leb_gt. lia.
  - simpl. rewrite E1, E2, E8. reflexivity.
Qed.

Lemma scanstring_escaped s : ∀ fuel rest,
  (length s < fuel)%nat →
  scanstring fuel (flat_map escape_char s ++ 34 :: rest) = Some (s, rest).
Proof.
  induction s as [|c s IH]; intros fuel rest Hfuel.
  - destruct fuel; [lia|]. reflexivity.
  - destruct fuel; [simpl in Hfuel; lia|].
    simpl flat_map. rewrite <- app_assoc.
    rewrite scanstring_escape_char.
    rewrite IH by (simpl in Hfuel; lia). reflexivity.
Qed.

Lemma length_escape_char c : (1 ≤ length (escape_char c))%nat.
Proof.
  unfold escape_char.
  repeat match goal with |- context [if ?b then _ else _] => destruct b end;
    simpl; lia.
Qed.

Lemma length_escaped s : (length s ≤ length (flat_map escape_char s))%nat.
Proof.
  induction s as [|c s IH]; simpl; [lia|].
  rewrite length_app. pose proof (length_escape_char c). lia.
Qed.

(** The decoder reads an encoded string back: the quote, the escaped
    characters and the closing quote give the string itself. *)
Lemma scan_basestring s rest :
  ∃ t, encode_basestring s ++ rest = 34 :: t ∧
       scanstring (S (length t)) t = Some (s, rest).
Proof.
  exists (flat_map escape_char s ++ 34 :: rest). split.
  - unfold encode_basestring. simpl. rewrite <- app_assoc. reflexivity.
  - apply scanstring_escaped. rewrite length_app. pose proof (length_escaped s). lia.
Qed.

(** *** Round trip of integers *)

(** The text after a number does not continue it. *)
Definition number_end (rest : pystr) : bool :=
  match rest with
  | [] => true
  | c :: _ => negb (is_digit c) && negb (c =? 46) && negb (c =? 101) && negb (c =? 69)
  end.

Lemma span_digits_uint u rest :
  number_end rest = true →
  span_digits (uint_chars u ++ rest) = (uint_chars u, rest).
Proof.
  intros Hend. induction u; simpl; try (rewrite IHu; reflexivity).
  destruct rest as [|c rest]; [reflexivity|]. simpl in *.
  destruct (is_digit c); [discriminate|reflexivity].
Qed.

Lemma uint_of_chars_uint u : uint_of_chars (uint_chars u) = u.
Proof. induction u; simpl; rewrite ?IHu; reflexivity. Qed.

Lemma to_uint_normal p : Pos.to_uint p = Decimal.unorm (Pos.to_uint p).
Proof.
  rewrite <- (DecimalPos.Unsigned.to_of (Pos.to_uint p)).
  rewrite DecimalPos.Unsigned.of_to. reflexivity.
Qed.

Lemma to_uint_no_leading_zero p u : Pos.to_uint p ≠ Decimal.D0 u.
Proof.
  intros H. pose proof (to_uint_normal p) as Hn. rewrite H in Hn.
  rewrite DecimalFacts.unorm_D0 in Hn.
  destruct u; [apply (DecimalPos.Unsigned.to_uint_nonzero p), H | ..];
    match type of Hn with _ = Decimal.unorm ?v =>
      assert (Hd : (Decimal.nb_digits (Decimal.unorm v) ≤ Decimal.nb_digits v)%nat)
        by (apply DecimalFacts.nb_digits_unorm; discriminate);
      rewrite <- Hn in Hd; simpl in Hd; lia
    end.
Qed.

Lemma match_tail_end rest :
  number_end rest = true →
  match_frac rest = ([], rest) ∧ match_exp rest = ([], rest).
Proof.
  destruct rest as [|c rest]; [split; reflexivity|]. simpl.
  intros H. apply andb_true_iff in H as [H H4].
  apply andb_true_iff in H as [H H3]. apply andb_true_iff in H as [_ H2].
  apply negb_true_iff in H2, H3, H4. rewrite H2, H3, H4. split; reflexivity.
Qed.

Lemma match_int_pos p rest :
  number_end rest = true →
  match_int (uint_chars (Pos.to_uint p) ++ rest) =
    Some (uint_chars (Pos.to_uint p), rest).
Proof.
  intros Hend. pose proof (to_uint_no_leading_zero p) as Hz.
  pose proof (DecimalPos.Unsigned.to_uint_nonnil p) as Hnil.
  destruct (Pos.to_uint p) as [|u|u|u|u|u|u|u|u|u|u];
    [congruence | exfalso; eapply Hz; reflexivity | ..];
    simpl; rewrite (span_digits_uint u rest Hend); reflexivity.
Qed.

Lemma int_of_text_pos p : int_of_text false (uint_chars (Pos.to_uint p)) = Zpos p.
Proof.
  unfold int_of_text. rewrite uint_of_chars_uint.
  change (N.of_uint (Pos.to_uint p)) with (Pos.of_uint (Pos.to_uint p)).
  rewrite DecimalPos.Unsigned.of_to. reflexivity.
Qed.

Lemma int_of_text_neg p : int_of_text true (uint_chars (Pos.to_uint p)) = Zneg p.
Proof.
  unfold int_of_text. rewrite uint_of_chars_uint.
  change (N.of_uint (Pos.to_uint p)) with (Pos.of_uint (Pos.to_uint p)).
  rewrite DecimalPos.Unsigned.of_to. reflexivity.
Qed.

Lemma uint_chars_head p :
  ∃ c t, uint_chars (Pos.to_uint p) = c :: t ∧ is_digit c = true ∧ (c =? 48) = false.
Proof.
  pose proof (to_uint_no_leading_zero p) as Hz.
  pose proof (DecimalPos.Unsigned.to_uint_nonnil p) as Hnil.
  destruct (Pos.to_uint p) as [|u|u|u|u|u|u|u|u|u|u];
    [congruence | exfalso; eapply Hz; reflexivity | ..];
    simpl; eauto.
Qed.

(** *** The shape of encoded values *)

(** The text after a value inside a document: nothing, or a comma or a
    closing bracket. *)
Definition delimited (rest : pystr) : bool :=
  match rest with
  | [] => true
  | c :: _ => (c =? 44) || (c =? 93) || (c =? 125)
  end.

Lemma number_end_delimited rest : delimited rest = true → number_end rest = true.
Proof.
  destruct rest as [|c rest]; [reflexivity|]. simpl. intros H.
  apply orb_true_iff in H as [H|H]; [apply orb_true_iff in H as [H|H]|];
    apply N.eqb_eq in H; subst; reflexivity.
Qed.

(** A character that can start a constant or a number. *)
Definition atom_start (c : N) : bool :=
  (c =? 110) || (c =? 116) || (c =? 102) || (c =? 78) || (c =? 73)
  || (c =? 45) || is_digit c.

Lemma atom_start_dispatch c :
  atom_start c = true →
  (c =? 34) = false ∧ (c =? 123) = false ∧ (c =? 91) = false ∧
  is_ws c = false ∧ (c =? 93) = false ∧ (c =? 125) = false.
Proof.
  unfold atom_start, is_digit, is_ws. intros H.
  repeat (apply orb_true_iff in H as [H|H]);
    try (apply N.eqb_eq in H; subst; repeat split; reflexivity).
  apply andb_true_iff in H as [H1 H2]. apply N.leb_le in H1, H2.
  repeat split; rewrite ?orb_false_iff; repeat split; apply N.eqb_neq; lia.
Qed.

(** The first character of an encoded value is neither white space nor a
    closing bracket. *)
Definition value_start (s : pystr) : Prop :=
  ∃ c t, s = c :: t ∧ is_ws c = false ∧ (c =? 93) = false ∧ (c =? 125) = false.

Lemma skip_ws_value_start s : value_start s → skip_ws s = s.
Proof. intros (c & t & -> & Hws & _). simpl. rewrite Hws. reflexivity. Qed.

(** The number of nested calls the decoder makes on the value. *)
Fixpoint size (v : json) : nat :=
  match v with
  | JList l => S (fold_right (λ v n, S (size v + n)) 0%nat l)
  | JDict d => S (fold_right (λ kv n, S (size (snd kv) + n)) 0%nat d)
  | _ => 1
  end.

Definition items_size (l : list json) : nat :=
  fold_right (λ v n, S (size v + n)) 0%nat l.

Definition members_size (d : list (pystr * json)) : nat :=
  fold_right (λ kv n, S (size (snd kv) + n)) 0%nat d.

Lemma json_nested_ind (P : json → Prop) :
  P JNull → (∀ b, P (JBool b)) → (∀ z, P (JInt z)) → (∀ x, P (JFloat x)) →
  (∀ s, P (JStr s)) →
  (∀ l, Forall P l → P (JList l)) →
  (∀ d, Forall (λ kv, P (snd kv)) d → P (JDict d)) →
  ∀ v, P v.
Proof.
  intros Hn Hb Hz Hx Hs Hl Hd. fix IH 1. intros v.
  destruct v as [|b|z|x|s|l|d];
    [exact Hn | apply Hb | apply Hz | apply Hx | apply Hs | | ].
  - apply Hl. induction l as [|v l IHl]; constructor; [apply IH|exact IHl].
  - apply Hd. induction d as [|[k v] d IHd]; constructor; [apply IH|exact IHd].
Qed.

Lemma dict_set_fresh k v acc : k ∉ acc.*1 → dict_set k v acc = acc ++ [(k, v)].
Proof.
  induction acc as [|[k' v'] acc IH]; simpl; intros Hk; [reflexivity|].
  apply not_elem_of_cons in Hk as [Hne Hk].
  destruct (decide (k' = k)); [congruence|]. rewrite IH by exact Hk. reflexivity.
Qed.

(** *** Text that UTF-8 can encode *)

Lemma encodable_small (s : pystr) : Forall (λ c, c < 256) s → Utf8.encodable s.
Proof.
  unfold Utf8.encodable. intros Hs. eapply Forall_impl; [exact Hs|].
  intros c Hc. simpl in Hc. split; [lia|].
  apply Utf8.is_surrogate_false. lia.
Qed.

Lemma encodable_lit (s : string) : Utf8.encodable (lit s).
Proof.
  apply encodable_small. unfold lit. apply Forall_fmap, Forall_forall.
  intros a _. apply N_ascii_bounded.
Qed.

Lemma encodable_app (s t : pystr) :
  Utf8.encodable s → Utf8.encodable t → Utf8.encodable (s ++ t).
Proof. unfold Utf8.encodable. intros Hs Ht. apply Forall_app. auto. Qed.

Lemma encodable_uint_chars u : Utf8.encodable (uint_chars u).
Proof.
  apply encodable_small. induction u; simpl; constructor; (lia || assumption).
Qed.

Lemma encodable_int_repr z : Utf8.encodable (int_repr z).
Proof.
  destruct z as [|p|p]; simpl.
  - apply (encodable_lit "0").
  - apply encodable_uint_chars.
  - apply (encodable_app [45]); [apply (encodable_lit "-")|apply encodable_uint_chars].
Qed.

Lemma hex_digit_small d : d < 16 → hex_digit d < 256.
Proof. unfold hex_digit. destruct (d <? 10); lia. Qed.

Lemma encodable_escape_char c :
  c < 0x110000 ∧ Utf8.is_surrogate c = false → Utf8.encodable (escape_char c).
Proof.
  intros Hc. unfold escape_char.
  repeat match goal with
  | |- context [if ?b then _ else _] => destruct b eqn:?
  end;
    try (apply encodable_small; repeat constructor; lia).
  - apply encodable_small. apply N.ltb_lt in Heqb6.
    pose proof (hex_digit_small (c / 16)). pose proof (hex_digit_small (c mod 16)).
    repeat constructor; lia.
  - constructor; [exact Hc|constructor].
Qed.

Lemma encodable_basestring s :
  Utf8.encodable s → Utf8.encodable (encode_basestring s).
Proof.
  intros Hs. unfold encode_basestring.
  apply (encodable_app [34]); [apply encodable_small; repeat constructor; lia|].
  apply encodable_app; [|apply encodable_small; repeat constructor; lia].
  induction Hs as [|c s Hc _ IH]; simpl; [constructor|].
  apply encodable_app; [apply encodable_escape_char, Hc|exact IH].
Qed.

Lemma encodable_join sep items :
  Utf8.encodable sep → Forall Utf8.encodable items → Utf8.encodable (join sep items).
Proof.
  intros Hsep. induction 1 as [|x items Hx Hitems IH]; [constructor|].
  destruct items as [|y items]; [exact Hx|].
  change (join sep (x :: y :: items)) with (x ++ sep ++ join sep (y :: items)).
  auto using encodable_app.
Qed.

(** *** Values: [json.dumps] and [json.loads] *)

Section Conversions.

(** [float.__repr__] and [float(str)]: the conversions between binary64 and
    decimal text are the interpreter's, not modelled here. *)
Variable float_repr : float → pystr.
Variable float_of_literal : pystr → float.

(** [floatstr] of json.encoder *)
Definition float_text (x : float) : pystr :=
  if negb (PrimFloat.eqb x x) then lit "NaN"
  else if PrimFloat.eqb x infinity then lit "Infinity"
  else if PrimFloat.eqb x neg_infinity then lit "-Infinity"
  else float_repr x.

(** [json.dumps(obj, ensure_ascii=False)] with the default separators, a
    comma and a colon each followed by a space. *)
Fixpoint dumps (v : json) : pystr :=
  match v with
  | JNull => lit "null"
  | JBool true => lit "true"
  | JBool false => lit "false"
  | JInt z => int_repr z
  | JFloat x => float_text x
  | JStr s => encode_basestring s
  | JList l => 91 :: join (lit ", ") (map dumps l) ++ [93]
  | JDict d =>
      123 :: join (lit ", ")
               (map (λ kv, encode_basestring (fst kv) ++ lit ": " ++ dumps (snd kv)) d)
          ++ [125]
  end.

(** [_match_number]: an optional minus sign and the parts of the number;
    [int()] of the text when it has neither fraction nor exponent, else
    [float()]. *)
Definition match_number (s : pystr) : option (json * pystr) :=
  let '(negative, s1) :=
    match s with
    | c :: s' => if c =? 45 then (true, s') else (false, s)
    | [] => (false, [])
    end in
  match match_int s1 with
  | None => None
  | Some (ip, r1) =>
      let '(frac, r2) := match_frac r1 in
      let '(exp, r3) := match_exp r2 in
      match frac, exp with
      | [], [] => Some (JInt (int_of_text negative ip), r3)
      | _, _ =>
          Some (JFloat (float_of_literal
                          ((if negative then [45] else []) ++ ip ++ frac ++ exp)),
                r3)
      end
  end.

(** The named constants and the numbers of [scan_once]. *)
Definition scan_atom (s : pystr) : option (json * pystr) :=
  match strip_prefix (lit "null") s with
  | Some r => Some (JNull, r)
  | None =>
  match strip_prefix (lit "true") s with
  | Some r => Some (JBool true, r)
  | None =>
  match strip_prefix (lit "false") s with
  | Some r => Some (JBool false, r)
  | None =>
  match strip_prefix (lit "NaN") s with
  | Some r => Some (JFloat nan, r)
  | None =>
  match strip_prefix (lit "Infinity") s with
  | Some r => Some (JFloat infinity, r)
  | None =>
  match strip_prefix (lit "-Infinity") s with
  | Some r => Some (JFloat neg_infinity, r)
  | None => match_number s
  end end end end end end.

(** [scan_once], [JSONArray] and [JSONObject].  [parse_items] and
    [parse_members] start at the first element, after the opening bracket
    and the white space that follows it. *)
Fixpoint scan_once (fuel : nat) (s : pystr) : option (json * pystr) :=
  match fuel with
  | O => None
  | S fuel' =>
      match s with
      | [] => None
      | c :: s1 =>
          if c =? 34 then
            match scanstring (S (length s1)) s1 with
            | Some (t, r) => Some (JStr t, r)
            | None => None
            end
          else if c =? 123 then
            match skip_ws s1 with
            | c' :: r =>
                if c' =? 125 then Some (JDict [], r)
                else
                  match parse_members fuel' (c' :: r) [] with
                  | Some (d, r') => Some (JDict d, r')
                  | None => None
                  end
            | [] => None
            end
          else if c =? 91 then
            match skip_ws s1 with
            | c' :: r =>
                if c' =? 93 then Some (JList [], r)
                else
                  match parse_items fuel' (c' :: r) with
                  | Some (l, r') => Some (JList l, r')
                  | None => None
                  end
            | [] => None
            end
          else scan_atom s
      end
  end
with parse_items (fuel : nat) (s : pystr) : option (list json * pystr) :=
  match fuel with
  | O => None
  | S fuel' =>
      match scan_once fuel' s with
      | None => None
      | Some (v, r) =>
          match skip_ws r with
          | c :: r1 =>
              if c =? 93 then Some ([v], r1)
              else if c =? 44 then
                match parse_items fuel' (skip_ws r1) with
                | Some (l, r2) => Some (v :: l, r2)
                | None => None
                end
              else None
          | [] => None
          end
      end
  end
with parse_members (fuel : nat) (s : pystr) (acc : list (pystr * json))
    : option (list (pystr * json) * pystr) :=
  match fuel with
  | O => None
  | S fuel' =>
      match s with
      | q :: s1 =>
          if q =? 34 then
            match scanstring (S (length s1)) s1 with
            | None => None
            | Some (k, r) =>
                match skip_ws r with
                | colon :: r1 =>
                    if colon =? 58 then
                      match scan_once fuel' (skip_ws r1) with
                      | None => None
                      | Some (v, r2) =>
                          let acc' := dict_set k v acc in
                          match skip_ws r2 with
                          | c :: r3 =>
                              if c =? 125 then Some (acc', r3)
                              else if c =? 44 then
                                parse_members fuel' (skip_ws r3) acc'
                              else None
                          | [] => None
                          end
                      end
                    else None
                | [] => None
                end
            end
          else None
      | [] => None
      end
  end.

(** [json.loads(s)]: one value between optional white space; [None] is
    JSONDecodeError.  The limits of the interpreter (an integer literal of
    more than 4300 digits, the recursion limit on deeply nested values) are
    not part of this definition: it reads the texts within them. *)
Definition loads (s : pystr) : option json :=
  match scan_once (S (length s)) (skip_ws s) with
  | Some (v, r) =>
      match skip_ws r with
      | [] => Some v
      | _ :: _ => None
      end
  | None => None
  end.

(** *** Round trip of values *)

Lemma match_number_int z rest :
  number_end rest = true →
  match_number (int_repr z ++ rest) = Some (JInt z, rest).
Proof.
  intros Hend. destruct (match_tail_end rest Hend) as [Hf He].
  destruct z as [|p|p]; unfold match_number, int_repr.
  - simpl. rewrite Hf, He. reflexivity.
  - destruct (uint_chars_head p) as (c & t & Hc & Hd & H0).
    assert (H45 : (c =? 45) = false).
    { apply N.eqb_neq. intros ->. discriminate. }
    pose proof (match_int_pos p rest Hend) as Hm.
    pose proof (int_of_text_pos p) as Hi. rewrite Hc in *.
    cbn [app] in *. rewrite H45, Hm, Hf, He, Hi. reflexivity.
  - cbn [app]. change (45 =? 45) with true. cbv iota.
    rewrite (match_int_pos p rest Hend), Hf, He, int_of_text_neg. reflexivity.
Qed.

(** The interpreter's conversions read the text of the float back to it. *)
Definition float_round_trips (x : float) : Prop :=
  ∀ rest, delimited rest = true →
    scan_atom (float_text x ++ rest) = Some (JFloat x, rest).

(** The values that [loads] can return and [dumps] preserves: the keys of
    every dict are distinct, and the floats round-trip through text. *)
Fixpoint well_formed (v : json) : Prop :=
  match v with
  | JFloat x => float_round_trips x
  | JList l => fold_right (λ v P, well_formed v ∧ P) True l
  | JDict d =>
      NoDup (d.*1) ∧ fold_right (λ kv P, well_formed (snd kv) ∧ P) True d
  | _ => True
  end.

Lemma scan_once_atom fuel c t :
  (c =? 34) = false → (c =? 123) = false → (c =? 91) = false →
  scan_once (S fuel) (c :: t) = scan_atom (c :: t).
Proof. intros H1 H2 H3. simpl. rewrite H1, H2, H3. reflexivity. Qed.

Lemma scan_atom_start c t r : scan_atom (c :: t) = Some r → atom_start c = true.
Proof.
  unfold scan_atom, atom_start.
  change (strip_prefix (lit "null") (c :: t))
    with (if 110 =? c then strip_prefix (lit "ull") t else None).
  change (strip_prefix (lit "true") (c :: t))
    with (if 116 =? c then strip_prefix (lit "rue") t else None).
  change (strip_prefix (lit "false") (c :: t))
    with (if 102 =? c then strip_prefix (lit "alse") t else None).
  change (strip_prefix (lit "NaN") (c :: t))
    with (if 78 =? c then strip_prefix (lit "aN") t else None).
  change (strip_prefix (lit "Infinity") (c :: t))
    with (if 73 =? c then strip_prefix (lit "nfinity") t else None).
  change (strip_prefix (lit "-Infinity") (c :: t))
    with (if 45 =? c then strip_prefix (lit "Infinity") t else None).
  rewrite !(N.eqb_sym c).
  destruct (110 =? c); [reflexivity|]. destruct (116 =? c); [reflexivity|].
  destruct (102 =? c); [reflexivity|]. destruct (78 =? c); [reflexivity|].
  destruct (73 =? c); [reflexivity|]. destruct (45 =? c) eqn:H45; [reflexivity|].
  unfold match_number. rewrite N.eqb_sym, H45. unfold match_int.
  destruct (c =? 48) eqn:H48.
  - apply N.eqb_eq in H48. subst. reflexivity.
  - destruct (is_digit c); [reflexivity|discriminate].
Qed.

Lemma float_text_start x rest :
  float_round_trips x →
  ∃ c t, float_text x ++ rest = c :: t ∧ atom_start c = true.
Proof.
  intros Hx. specialize (Hx [] eq_refl). rewrite app_nil_r in Hx.
  destruct (float_text x) as [|c t]; [discriminate|].
  exists c, (t ++ rest). split; [reflexivity|]. eapply scan_atom_start, Hx.
Qed.

Lemma dumps_value_start v rest : well_formed v → value_start (dumps v ++ rest).
Proof.
  intros Hwf. unfold value_start. destruct v as [|[|]|z|x|s|l|d]; simpl.
  - eexists _, _. repeat split.
  - eexists _, _. repeat split.
  - eexists _, _. repeat split.
  - destruct z as [|p|p]; simpl.
    + eexists _, _. repeat split.
    + destruct (uint_chars_head p) as (c & t & -> & Hd & _).
      exists c, (t ++ rest). split; [reflexivity|].
      assert (Ha : atom_start c = true).
      { unfold atom_start. rewrite Hd, !orb_true_r. reflexivity. }
      apply atom_start_dispatch in Ha. tauto.
    + eexists _, _. repeat split.
  - destruct (float_text_start x rest Hwf) as (c & t & -> & Ha).
    exists c, t. split; [reflexivity|].
    apply atom_start_dispatch in Ha. tauto.
  - eexists _, _. repeat split.
  - eexists _, _. repeat split.
  - eexists _, _. repeat split.
Qed.

Lemma scan_atom_digit c t : is_digit c = true → scan_atom (c :: t) = match_number (c :: t).
Proof.
  intros Hd. unfold is_digit in Hd.
  apply andb_true_iff in Hd as [H1 H2]. apply N.leb_le in H1, H2.
  unfold scan_atom.
  change (strip_prefix (lit "null") (c :: t))
    with (if 110 =? c then strip_prefix (lit "ull") t else None).
  change (strip_prefix (lit "true") (c :: t))
    with (if 116 =? c then strip_prefix (lit "rue") t else None).
  change (strip_prefix (lit "false") (c :: t))
    with (if 102 =? c then strip_prefix (lit "alse") t else None).
  change (strip_prefix (lit "NaN") (c :: t))
    with (if 78 =? c then strip_prefix (lit "aN") t else None).
  change (strip_prefix (lit "Infinity") (c :: t))
    with (if 73 =? c then strip_prefix (lit "nfinity") t else None).
  change (strip_prefix (lit "-Infinity") (c :: t))
    with (if 45 =? c then strip_prefix (lit "Infinity") t else None).
  replace (110 =? c) with false by (symmetry; apply N.eqb_neq; lia).
  replace (116 =? c) with false by (symmetry; apply N.eqb_neq; lia).
  replace (102 =? c) with false by (symmetry; apply N.eqb_neq; lia).
  replace (78 =? c) with false by (symmetry; apply N.eqb_neq; lia).
  replace (73 =? c) with false by (symmetry; apply N.eqb_neq; lia).
  replace (45 =? c) with false by (symmetry; apply N.eqb_neq; lia).
  reflexivity.
Qed.

Lemma scan_atom_minus_digit c t :
  is_digit c = true → scan_atom (45 :: c :: t) = match_number (45 :: c :: t).
Proof.
  intros Hd. unfold is_digit in Hd.
  apply andb_true_iff in Hd as [H1 H2]. apply N.leb_le in H1, H2.
  unfold scan_atom.
  change (strip_prefix (lit "null") (45 :: c :: t)) with (@None pystr).
  change (strip_prefix (lit "true") (45 :: c :: t)) with (@None pystr).
  change (strip_prefix (lit "false") (45 :: c :: t)) with (@None pystr).
  change (strip_prefix (lit "NaN") (45 :: c :: t)) with (@None pystr).
  change (strip_prefix (lit "Infinity") (45 :: c :: t)) with (@None pystr).
  change (strip_prefix (lit "-Infinity") (45 :: c :: t))
    with (if 73 =? c then strip_prefix (lit "nfinity") t else None).
  replace (73 =? c) with false by (symmetry; apply N.eqb_neq; lia).
  reflexivity.
Qed.

Lemma scan_once_int fuel z rest :
  delimited rest = true →
  scan_once (S fuel) (int_repr z ++ rest) = Some (JInt z, rest).
Proof.
  intros Hd. apply number_end_delimited in Hd.
  rewrite <- (match_number_int z rest Hd).
  destruct z as [|p|p]; simpl int_repr.
  - reflexivity.
  - destruct (uint_chars_head p) as (c & t & -> & Hc & _).
    cbn [app].
    assert (Ha : atom_start c = true).
    { unfold atom_start. rewrite Hc, !orb_true_r. reflexivity. }
    apply atom_start_dispatch in Ha as (A1 & A2 & A3 & _).
    rewrite scan_once_atom by assumption. apply scan_atom_digit, Hc.
  - destruct (uint_chars_head p) as (c & t & -> & Hc & _).
    cbn [app]. rewrite scan_once_atom by reflexivity.
    apply scan_atom_minus_digit, Hc.
Qed.

Lemma scan_once_float fuel x rest :
  float_round_trips x → delimited rest = true →
  scan_once (S fuel) (float_text x ++ rest) = Some (JFloat x, rest).
Proof.
  intros Hx Hd. destruct (float_text_start x rest Hx) as (c & t & Heq & Ha).
  rewrite <- (Hx rest Hd), Heq.
  apply atom_start_dispatch in Ha as (A1 & A2 & A3 & _).
  apply scan_once_atom; assumption.
Qed.

Lemma scan_once_str fuel s rest :
  scan_once (S fuel) (encode_basestring s ++ rest) = Some (JStr s, rest).
Proof.
  destruct (scan_basestring s rest) as (t & -> & Ht).
  cbn -[scanstring]. rewrite Ht. reflexivity.
Qed.

(** The unfolding equations of the decoder. *)
Lemma parse_items_eq fuel s :
  parse_items (S fuel) s =
  match scan_once fuel s with
  | None => None
  | Some (v, r) =>
      match skip_ws r with
      | c :: r1 =>
          if c =? 93 then Some ([v], r1)
          else if c =? 44 then
            match parse_items fuel (skip_ws r1) with
            | Some (l, r2) => Some (v :: l, r2)
            | None => None
            end
          else None
      | [] => None
      end
  end.
Proof. reflexivity. Qed.

Lemma parse_members_eq fuel s1 acc :
  parse_members (S fuel) (34 :: s1) acc =
  match scanstring (S (length s1)) s1 with
  | None => None
  | Some (k, r) =>
      match skip_ws r with
      | colon :: r1 =>
          if colon =? 58 then
            match scan_once fuel (skip_ws r1) with
            | None => None
            | Some (v, r2) =>
                let acc' := dict_set k v acc in
                match skip_ws r2 with
                | c :: r3 =>
                    if c =? 125 then Some (acc', r3)
                    else if c =? 44 then parse_members fuel (skip_ws r3) acc'
                    else None
                | [] => None
                end
            end
          else None
      | [] => None
      end
  end.
Proof. reflexivity. Qed.

Lemma scan_once_list_eq fuel s1 :
  scan_once (S fuel) (91 :: s1) =
  match skip_ws s1 with
  | c' :: r =>
      if c' =? 93 then Some (JList [], r)
      else
        match parse_items fuel (c' :: r) with
        | Some (l, r') => Some (JList l, r')
        | None => None
        end
  | [] => None
  end.
Proof. reflexivity. Qed.

Lemma scan_once_dict_eq fuel s1 :
  scan_once (S fuel) (123 :: s1) =
  match skip_ws s1 with
  | c' :: r =>
      if c' =? 125 then Some (JDict [], r)
      else
        match parse_members fuel (c' :: r) [] with
        | Some (d, r') => Some (JDict d, r')
        | None => None
        end
  | [] => None
  end.
Proof. reflexivity. Qed.

(** What the induction proves of a value. *)
Definition reads_back (v : json) : Prop :=
  ∀ fuel rest, (size v ≤ fuel)%nat → delimited rest = true →
    scan_once fuel (dumps v ++ rest) = Some (v, rest).

Definition member_text (kv : pystr * json) : pystr :=
  encode_basestring (fst kv) ++ lit ": " ++ dumps (snd kv).

Lemma parse_items_dumps l :
  l ≠ [] →
  Forall (λ v, well_formed v ∧ reads_back v) l →
  ∀ fuel rest, (items_size l ≤ fuel)%nat →
    parse_items fuel (join (lit ", ") (map dumps l) ++ 93 :: rest) = Some (l, rest).
Proof.
  induction l as [|v l IH]; [congruence|]. intros _ Hall fuel rest Hfuel.
  apply Forall_cons in Hall as [[Hwf Hv] Hall].
  destruct fuel as [|fuel]; [simpl in Hfuel; lia|].
  simpl in Hfuel. rewrite parse_items_eq.
  destruct l as [|v2 l].
  - simpl. rewrite (Hv fuel (93 :: rest)) by (reflexivity || lia). reflexivity.
  - change (join (lit ", ") (map dumps (v :: v2 :: l)))
      with (dumps v ++ lit ", " ++ join (lit ", ") (map dumps (v2 :: l))).
    rewrite <- !app_assoc.
    rewrite (Hv fuel) by (reflexivity || lia).
    change (skip_ws (lit ", " ++ ?t)) with (lit ", " ++ t).
    change (lit ", " ++ ?t) with (44 :: 32 :: t).
    change (44 =? 93) with false. change (44 =? 44) with true. cbv iota.
    change (skip_ws (32 :: ?t)) with (skip_ws t).
    assert (Hstart : value_start
              (join (lit ", ") (map dumps (v2 :: l)) ++ 93 :: rest)).
    { apply Forall_cons in Hall as [[Hwf2 _] _].
      destruct l as [|v3 l]; simpl.
      - apply dumps_value_start, Hwf2.
      - rewrite <- app_assoc. apply dumps_value_start, Hwf2. }
    rewrite (skip_ws_value_start _ Hstart).
    rewrite IH; [reflexivity|discriminate|exact Hall|].
    unfold items_size in *. simpl in *. lia.
Qed.

Lemma parse_members_dumps d :
  d ≠ [] →
  Forall (λ kv, well_formed (snd kv) ∧ reads_back (snd kv)) d →
  ∀ fuel rest acc, (members_size d ≤ fuel)%nat →
    NoDup (acc.*1 ++ d.*1) →
    parse_members fuel (join (lit ", ") (map member_text d) ++ 125 :: rest) acc
    = Some (acc ++ d, rest).
Proof.
  induction d as [|[k v] d IH]; [congruence|].
  intros _ Hall fuel rest acc Hfuel Hnd.
  apply Forall_cons in Hall as [[Hwf Hv] Hall]. simpl in Hwf, Hv.
  destruct fuel as [|fuel]; [simpl in Hfuel; lia|].
  simpl in Hfuel.
  assert (Hfresh : k ∉ acc.*1).
  { apply NoDup_app in Hnd as (_ & Hdisj & _). intros Hin.
    apply (Hdisj k Hin). left. }
  assert (Hmember : ∀ t,
    parse_members (S fuel) (member_text (k, v) ++ t) acc =
    match scan_once fuel (dumps v ++ t) with
    | None => None
    | Some (v', r2) =>
        let acc' := dict_set k v' acc in
        match skip_ws r2 with
        | c :: r3 =>
            if c =? 125 then Some (acc', r3)
            else if c =? 44 then parse_members fuel (skip_ws r3) acc'
            else None
        | [] => None
        end
    end).
  { intros t. unfold member_text. cbn [fst snd]. rewrite <- !app_assoc.
    destruct (scan_basestring k (lit ": " ++ dumps v ++ t)) as (u & -> & Hu).
    rewrite parse_members_eq, Hu.
    change (skip_ws (lit ": " ++ ?t)) with (lit ": " ++ t).
    change (lit ": " ++ ?t) with (58 :: 32 :: t).
    change (58 =? 58) with true. cbv iota.
    change (skip_ws (32 :: ?t)) with (skip_ws t).
    rewrite (skip_ws_value_start _ (dumps_value_start v t Hwf)). reflexivity. }
  destruct d as [|kv2 d].
  - simpl join. rewrite Hmember.
    rewrite (Hv fuel (125 :: rest)) by (reflexivity || lia).
    cbv zeta. rewrite dict_set_fresh by exact Hfresh. reflexivity.
  - change (join (lit ", ") (map member_text ((k, v) :: kv2 :: d)))
      with (member_text (k, v) ++ lit ", "
              ++ join (lit ", ") (map member_text (kv2 :: d))).
    rewrite <- !app_assoc. rewrite Hmember.
    rewrite (Hv fuel) by (reflexivity || lia).
    cbv zeta. rewrite dict_set_fresh by exact Hfresh.
    change (skip_ws (lit ", " ++ ?t)) with (lit ", " ++ t).
    change (lit ", " ++ ?t) with (44 :: 32 :: t).
    change (44 =? 125) with false. change (44 =? 44) with true. cbv iota.
    change (skip_ws (32 :: ?t)) with (skip_ws t).
    assert (Hstart : value_start
              (join (lit ", ") (map member_text (kv2 :: d)) ++ 125 :: rest)).
    { destruct d as [|kv3 d]; simpl; eexists _, _; repeat split. }
    rewrite (skip_ws_value_start _ Hstart).
    rewrite IH; [|discriminate|exact Hall| |].
    + rewrite <- app_assoc. reflexivity.
    + unfold members_size in *. simpl in *. lia.
    + rewrite fmap_app, <- app_assoc. exact Hnd.
Qed.

Lemma well_formed_list l :
  well_formed (JList l) ↔ Forall well_formed l.
Proof.
  simpl. induction l as [|v l IH]; simpl.
  - split; [constructor|auto].
  - rewrite Forall_cons, IH. reflexivity.
Qed.

Lemma well_formed_dict d :
  well_formed (JDict d) ↔ NoDup (d.*1) ∧ Forall (λ kv, well_formed (snd kv)) d.
Proof.
  simpl. apply and_iff_compat_l. induction d as [|kv d IH]; simpl.
  - split; [constructor|auto].
  - rewrite Forall_cons, IH. reflexivity.
Qed.

Lemma scan_once_dumps v : well_formed v → reads_back v.
Proof.
  induction v as [|b|z|x|s|l IH|d IH] using json_nested_ind;
    intros Hwf fuel rest Hfuel Hd;
    (destruct fuel as [|fuel]; [simpl in Hfuel; lia|]).
  - reflexivity.
  - destruct b; reflexivity.
  - apply scan_once_int, Hd.
  - apply scan_once_float; assumption.
  - apply scan_once_str.
  - apply well_formed_list in Hwf.
    assert (Hall : Forall (λ v, well_formed v ∧ reads_back v) l).
    { clear -Hwf IH. induction l as [|v l IHl]; [constructor|].
      apply Forall_cons in Hwf as [H1 H2]. apply Forall_cons in IH as [H3 H4].
      constructor; auto. }
    clear IH. cbn [dumps]. cbn [app]. rewrite scan_once_list_eq.
    destruct l as [|v l]; [reflexivity|].
    rewrite <- app_assoc.
    assert (Hstart : value_start
              (join (lit ", ") (map dumps (v :: l)) ++ [93] ++ rest)).
    { apply Forall_cons in Hall as [[Hwf1 _] _].
      destruct l as [|v3 l]; simpl.
      - apply dumps_value_start, Hwf1.
      - rewrite <- app_assoc. apply dumps_value_start, Hwf1. }
    rewrite (skip_ws_value_start _ Hstart).
    destruct Hstart as (c & t & Heq & _ & H93 & _).
    rewrite Heq, H93, <- Heq.
    change ([93] ++ rest) with (93 :: rest).
    rewrite parse_items_dumps; [reflexivity|discriminate|exact Hall|].
    simpl in Hfuel. unfold items_size. simpl. lia.
  - apply well_formed_dict in Hwf as [Hnd Hwf].
    assert (Hall : Forall (λ kv, well_formed (snd kv) ∧ reads_back (snd kv)) d).
    { clear -Hwf IH. induction d as [|kv d IHd]; [constructor|].
      apply Forall_cons in Hwf as [H1 H2]. apply Forall_cons in IH as [H3 H4].
      constructor; auto. }
    clear IH. cbn [dumps]. cbn [app]. rewrite scan_once_dict_eq.
    change (map (λ kv, encode_basestring (fst kv) ++ lit ": " ++ dumps (snd kv)) d)
      with (map member_text d).
    destruct d as [|kv d]; [reflexivity|].
    rewrite <- app_assoc.
    assert (Hstart : value_start
              (join (lit ", ") (map member_text (kv :: d)) ++ [125] ++ rest)).
    { destruct d as [|kv3 d]; simpl; eexists _, _; repeat split. }
    rewrite (skip_ws_value_start _ Hstart).
    destruct Hstart as (c & t & Heq & _ & _ & H125).
    rewrite Heq, H125, <- Heq.
    change ([125] ++ rest) with (125 :: rest).
    rewrite parse_members_dumps; [reflexivity|discriminate|exact Hall| |exact Hnd].
    simpl in Hfuel. unfold members_size. simpl. lia.
Qed.

(** The fuel that [loads] starts with covers every encoded value. *)
Lemma items_size_length l :
  Forall (λ v, (size v ≤ length (dumps v))%nat) l →
  (items_size l ≤ length (join (lit ", ") (map dumps l)) + 1)%nat.
Proof.
  induction 1 as [|v l Hv Hl IH]; [simpl; lia|].
  destruct l as [|v2 l].
  - simpl. lia.
  - change (join (lit ", ") (map dumps (v :: v2 :: l)))
      with (dumps v ++ lit ", " ++ join (lit ", ") (map dumps (v2 :: l))).
    rewrite !length_app. unfold items_size in *. simpl in *. lia.
Qed.

Lemma members_size_length d :
  Forall (λ kv, (size (snd kv) ≤ length (dumps (snd kv)))%nat) d →
  (members_size d ≤ length (join (lit ", ") (map member_text d)) + 1)%nat.
Proof.
  induction 1 as [|kv d Hv Hd IH]; [simpl; lia|].
  assert (Hm : (size (snd kv) ≤ length (member_text kv))%nat).
  { cbv beta in Hv. unfold member_text. rewrite !length_app. lia. }
  destruct d as [|kv2 d].
  - unfold members_size. cbn [fold_right map join]. lia.
  - change (join (lit ", ") (map member_text (kv :: kv2 :: d)))
      with (member_text kv ++ lit ", " ++ join (lit ", ") (map member_text (kv2 :: d))).
    rewrite !length_app. change (length (lit ", ")) with 2%nat.
    unfold members_size in *. cbn [fold_right] in *. lia.
Qed.

Lemma size_le_length v : well_formed v → (size v ≤ length (dumps v))%nat.
Proof.
  induction v as [|b|z|x|s|l IH|d IH] using json_nested_ind; intros Hwf.
  - simpl. lia.
  - destruct b; simpl; lia.
  - destruct z as [|p|p]; simpl; try lia.
    destruct (uint_chars_head p) as (c & t & -> & _). simpl. lia.
  - destruct (float_text_start x [] Hwf) as (c & t & Heq & _).
    rewrite (right_id_L [] (++)) in Heq. simpl. rewrite Heq. simpl. lia.
  - simpl. lia.
  - apply well_formed_list in Hwf.
    assert (Hall : Forall (λ v, (size v ≤ length (dumps v))%nat) l).
    { clear -Hwf IH. induction l as [|v l IHl]; [constructor|].
      apply Forall_cons in Hwf as [H1 H2]. apply Forall_cons in IH as [H3 H4].
      constructor; auto. }
    apply items_size_length in Hall. cbn [dumps size]. fold (items_size l).
    simpl length. rewrite length_app. simpl. lia.
  - apply well_formed_dict in Hwf as [_ Hwf].
    assert (Hall : Forall (λ kv, (size (snd kv) ≤ length (dumps (snd kv)))%nat) d).
    { clear -Hwf IH. induction d as [|kv d IHd]; [constructor|].
      apply Forall_cons in Hwf as [H1 H2]. apply Forall_cons in IH as [H3 H4].
      constructor; auto. }
    apply members_size_length in Hall. cbn [dumps size]. fold (members_size d).
    change (map (λ kv, encode_basestring (fst kv) ++ lit ": " ++ dumps (snd kv)) d)
      with (map member_text d).
    simpl length. rewrite length_app. simpl. lia.
Qed.

(** [json.loads(json.dumps(M, ensure_ascii=False))] is [M]. *)
Lemma loads_dumps v : well_formed v → loads (dumps v) = Some v.
Proof.
  intros Hwf. unfold loads.
  pose proof (dumps_value_start v [] Hwf) as Hstart.
  rewrite (right_id_L [] (++)) in Hstart.
  rewrite (skip_ws_value_start _ Hstart).
  pose proof (scan_once_dumps v Hwf (S (length (dumps v))) []) as Hscan.
  rewrite (right_id_L [] (++)) in Hscan.
  rewrite Hscan; [reflexivity| |reflexivity].
  pose proof (size_le_length v Hwf). lia.
Qed.
(** *** The encoded text as UTF-8 input *)

(** Every string of the value, keys included, is free of lone surrogates
    (and so is the text of its floats, which is ASCII). *)
Fixpoint strings_encodable (v : json) : Prop :=
  match v with
  | JStr s => Utf8.encodable s
  | JFloat x => Utf8.encodable (float_text x)
  | JList l => fold_right (λ v P, strings_encodable v ∧ P) True l
  | JDict d =>
      fold_right
        (λ kv P, Utf8.encodable (fst kv) ∧ strings_encodable (snd kv) ∧ P) True d
  | _ => True
  end.

Lemma dumps_encodable v : strings_encodable v → Utf8.encodable (dumps v).
Proof.
  induction v as [|b|z|x|s|l IH|d IH] using json_nested_ind; intros Hv.
  - apply encodable_lit.
  - destruct b; apply encodable_lit.
  - apply encodable_int_repr.
  - exact Hv.
  - apply encodable_basestring, Hv.
  - cbn [dumps]. apply (encodable_app [91]);
      [apply encodable_small; repeat constructor; lia|].
    apply encodable_app; [|apply encodable_small; repeat constructor; lia].
    apply encodable_join; [apply encodable_lit|].
    apply Forall_fmap. simpl in Hv.
    induction l as [|v l IHl]; [constructor|].
    destruct Hv as [Hv Hl]. apply Forall_cons in IH as [IHv IH].
    constructor; [apply IHv, Hv|apply IHl; assumption].
  - cbn [dumps]. apply (encodable_app [123]);
      [apply encodable_small; repeat constructor; lia|].
    apply encodable_app; [|apply encodable_small; repeat constructor; lia].
    apply encodable_join; [apply encodable_lit|].
    apply Forall_fmap. simpl in Hv.
    induction d as [|kv d IHd]; [constructor|].
    destruct Hv as (Hk & Hv & Hd). apply Forall_cons in IH as [IHv IH].
    constructor; [|apply IHd; assumption].
    unfold compose. apply encodable_app; [apply encodable_basestring, Hk|].
    apply encodable_app; [apply encodable_lit|apply IHv, Hv].
Qed.

End Conversions.

End Json.


(** ** Exceptions and cell values *)

(** The Python exceptions the modelled code can raise. *)
Inductive exn : Type :=
| IndexError
| KeyError
| TypeError
| AttributeError
| UnboundLocalError
| UnicodeDecodeError
| UnicodeEncodeError
| JSONDecodeError.

(** A computation returns a value or raises. *)
Inductive result (A : Type) : Type :=
| Ok (a : A)
| Raise (e : exn).
Arguments Ok {A} a.
Arguments Raise {A} e.

#[global] Instance result_ret : MRet result := λ A a, Ok a.
#[global] Instance result_bind : MBind result :=
  λ A B f m, match m with Ok a => f a | Raise e => Raise e end.

(** An [option] whose [None] stands for the exception [e]. *)
Definition or_raise {A} (e : exn) (o : option A) : result A :=
  match o with
  | Some a => Ok a
  | None => Raise e
  end.

(** The value of a table cell, as [to_pandas] and [to_dict] hand it over:
    a scalar or a (nested) array. *)
#[warnings="-register-all"]
Inductive pyval : Type :=
| PNone
| PInt (z : Z)
| PFloat (x : float)
| PStr (s : pystr)
| PArr (l : list pyval).

(** [len(v)]: scalars have no length. *)
Definition len (v : pyval) : result nat :=
  match v with
  | PStr s => Ok (length s)
  | PArr l => Ok (length l)
  | _ => Raise TypeError
  end.

(** The dict keys of the example tables, whose identifier cells are
    integers, strings or arrays: an integer or a string is its own key, an
    array is unhashable.  It is the [hash_of] of the examples only: the
    properties of the reader are stated for every [hash_of], and this one
    says nothing of the other scalars, which Python hashes too. *)
Definition scalar_key (v : pyval) : option (Z + pystr) :=
  match v with
  | PInt z => Some (inl z)
  | PStr s => Some (inr s)
  | _ => None
  end.

(** ** Reading a table ([read_parquet]) *)

Module Reader.

(** What [pq.read_table] returns: the schema metadata (a header map from
    [bytes] to [bytes], or [None]) and the rows, each a record from column
    name to cell. *)
Record Table : Type := mkTable {
  metadata : option (gmap string string);
  rows : list (gmap string pyval)
}.

Section Reading.

(** [float(str)], used by [json.loads]. *)
Variable float_of_literal : pystr → float.

(** Dictionary keys: [hash_of v] is the key under which a dict files the
    value [v], [None] when [v] is unhashable (an array).  Two cells select
    the same entry exactly when their keys are equal. *)
Context {key : Type} `{Countable key}.
Variable hash_of : pyval → option key.

(** Source lines 40-41: [json.loads(raw.decode('utf-8'))]. *)
Definition decode_entry (raw : string) : result json :=
  restored_meta_json ← or_raise UnicodeDecodeError (Utf8.decode raw);
  or_raise JSONDecodeError (Json.loads float_of_literal restored_meta_json).

(** Step 2, source lines 37-49.  The result is the binding of the local
    variable [restored_meta]: [None] when the [else] branch ran, which
    binds nothing.  The summary that is printed calls [restored_meta.get],
    which only a dict has. *)
Definition extract_meta (t : Table) : result (option json) :=
  match metadata t with
  | None => Raise TypeError
  | Some file_meta =>
      match file_meta !! "dataset_meta" with
      | Some raw =>
          restored_meta ← decode_entry raw;
          match restored_meta with
          | JDict _ => Ok (Some restored_meta)
          | _ => Raise AttributeError
          end
      | None => Ok None
      end
  end.

(** Source lines 58-61: [df_read.iloc[0]['pixel_corners']] and its [len]. *)
Definition sample_corners_len (records : list (gmap string pyval)) : result nat :=
  match records with
  | [] => Raise IndexError
  | r :: _ =>
      match r !! "pixel_corners" with
      | None => Raise KeyError
      | Some sample_corners => len sample_corners
      end
  end.

(** Step 4, source lines 65-74: the loop over the records. *)
Fixpoint reconstruct (records : list (gmap string pyval))
    (restored_tracks : gmap key (gmap string pyval))
    : result (gmap key (gmap string pyval)) :=
  match records with
  | [] => Ok restored_tracks
  | record :: rest =>
      match record !! "vehicle_id" with
      | Some vid =>
          match hash_of vid with
          | Some k =>
              reconstruct rest (<[k := delete "vehicle_id" record]> restored_tracks)
          | None => Raise TypeError
          end
      | None => reconstruct rest restored_tracks
      end
  end.

(** [return restored_tracks, restored_meta]: reading an unbound local
    variable raises. *)
Definition read_parquet (t : Table)
    : result (gmap key (gmap string pyval) * json) :=
  restored_meta ← extract_meta t;
  _ ← sample_corners_len (rows t);
  restored_tracks ← reconstruct (rows t) ∅;
  match restored_meta with
  | Some meta => Ok (restored_tracks, meta)
  | None => Raise UnboundLocalError
  end.

(** *** The inspection of [pixel_corners] *)

Lemma sample_corners_len_raises (records : list (gmap string pyval)) :
  records = [] ∨ (∀ r, r ∈ records → r !! "pixel_corners" = None) →
  ∃ e, sample_corners_len records = Raise e.
Proof.
  intros [->|Hno]; [exists IndexError; reflexivity|].
  destruct records as [|r rest]; [exists IndexError; reflexivity|].
  exists KeyError. simpl. rewrite (Hno r) by left. reflexivity.
Qed.

(** C9.  On a table with no rows, or whose rows have no [pixel_corners]
    column, [read_parquet] raises: it never returns. *)
Theorem read_parquet_raises_without_pixel_corners (t : Table) :
  rows t = [] ∨ (∀ r, r ∈ rows t → r !! "pixel_corners" = None) →
  ∃ e, read_parquet t = Raise e.
Proof.
  intros Hrows. unfold read_parquet.
  destruct (extract_meta t) as [restored_meta|e]; [|exists e; reflexivity].
  destruct (sample_corners_len_raises (rows t) Hrows) as [e He].
  exists e. simpl. rewrite He. reflexivity.
Qed.

(** *** Track reconstruction *)

(** The dict key of a record's identifier cell. *)
Definition row_key (record : gmap string pyval) : option key :=
  record !! "vehicle_id" ≫= hash_of.

(** The entry that the records leave under the key [k], starting from the
    entry [cur]: each record with that key overwrites it. *)
Definition entry_after (k : key) (records : list (gmap string pyval))
    (cur : option (gmap string pyval)) : option (gmap string pyval) :=
  fold_left
    (λ cur record,
       if decide (row_key record = Some k)
       then Some (delete "vehicle_id" record) else cur)
    records cur.

Lemma reconstruct_missing_id record rest acc :
  record !! "vehicle_id" = None →
  reconstruct (record :: rest) acc = reconstruct rest acc.
Proof. intros Hr. simpl. rewrite Hr. reflexivity. Qed.

Lemma reconstruct_entries (records : list (gmap string pyval)) :
  (∀ r v, r ∈ records → r !! "vehicle_id" = Some v → is_Some (hash_of v)) →
  ∀ acc, ∃ tracks,
    reconstruct records acc = Ok tracks ∧
    ∀ k, tracks !! k = entry_after k records (acc !! k).
Proof.
  induction records as [|r rest IH]; intros Hhash acc.
  - exists acc. split; reflexivity.
  - assert (Hrest : ∀ r' v, r' ∈ rest → r' !! "vehicle_id" = Some v →
                      is_Some (hash_of v)).
    { intros r' v Hin. apply Hhash. right. exact Hin. }
    simpl. unfold entry_after, row_key. simpl.
    destruct (r !! "vehicle_id") as [vid|] eqn:Hvid; simpl.
    + destruct (Hhash r vid) as [k0 Hk0]; [left|exact Hvid|].
      rewrite Hk0.
      destruct (IH Hrest (<[k0 := delete "vehicle_id" r]> acc)) as (tracks & Hrun & Hent).
      exists tracks. split; [exact Hrun|]. intros k. rewrite Hent.
      unfold entry_after. f_equal.
      destruct (decide (Some k0 = Some k)) as [[= ->]|Hne].
      * apply lookup_insert_eq.
      * apply lookup_insert_ne. congruence.
    + destruct (IH Hrest acc) as (tracks & Hrun & Hent).
      exists tracks. split; [exact Hrun|]. intros k. rewrite Hent.
      unfold entry_after. f_equal.
Qed.

Lemma entry_after_app k l1 l2 cur :
  entry_after k (l1 ++ l2) cur = entry_after k l2 (entry_after k l1 cur).
Proof. unfold entry_after. apply fold_left_app. Qed.

(** The entry under [k] comes from the last record whose identifier has the
    key [k]. *)
Lemma entry_after_last k (records : list (gmap string pyval)) fields :
  entry_after k records None = Some fields ↔
  ∃ i r, records !! i = Some r ∧ row_key r = Some k ∧
         fields = delete "vehicle_id" r ∧
         ∀ j r', (i < j)%nat → records !! j = Some r' → row_key r' ≠ Some k.
Proof.
  revert fields. induction records as [|r records IH] using rev_ind; intros fields.
  - split; [discriminate|]. intros (i & r & Hi & _). rewrite lookup_nil in Hi.
    discriminate.
  - rewrite entry_after_app. simpl.
    destruct (decide (row_key r = Some k)) as [Hk|Hk].
    + split.
      * intros [= <-]. exists (length records), r.
        split; [apply list_lookup_middle; reflexivity|].
        split; [exact Hk|]. split; [reflexivity|].
        intros j r' Hj Hr'. apply lookup_lt_Some in Hr'.
        rewrite length_app in Hr'. simpl in Hr'. lia.
      * intros (i & r0 & Hi & Hk0 & -> & Hlast). f_equal.
        destruct (decide (i = length records)) as [->|Hne].
        -- rewrite list_lookup_middle in Hi by reflexivity. congruence.
        -- exfalso. pose proof (lookup_lt_Some _ _ _ Hi) as Hlt.
           rewrite length_app in Hlt. simpl in Hlt.
           apply (Hlast (length records) r); [lia| |exact Hk].
           apply list_lookup_middle. reflexivity.
    + rewrite IH. split.
      * intros (i & r0 & Hi & Hk0 & -> & Hlast). exists i, r0.
        split; [apply lookup_app_l_Some, Hi|]. split; [exact Hk0|].
        split; [reflexivity|]. intros j r' Hj Hr'.
        apply lookup_app_Some in Hr' as [Hr'|[Hge Hr']].
        -- eapply Hlast; eassumption.
        -- apply list_lookup_singleton_Some in Hr' as [_ <-]. exact Hk.
      * intros (i & r0 & Hi & Hk0 & -> & Hlast).
        apply lookup_app_Some in Hi as [Hi|[Hge Hi]].
        -- exists i, r0. split; [exact Hi|]. split; [exact Hk0|].
           split; [reflexivity|]. intros j r' Hj Hr'.
           apply (Hlast j r' Hj). apply lookup_app_l_Some, Hr'.
        -- apply list_lookup_singleton_Some in Hi as [_ <-]. contradiction.
Qed.

(** C6, amended.  Reconstruction does not raise on records that lack the
    identifier column: it skips them.  When every identifier cell is
    hashable it returns a mapping whose entry under a key is the last
    record with that key (last row wins), holding every column of that
    record except [vehicle_id]. *)
Theorem reconstruct_skips_rows_without_id_last_row_wins
    (records : list (gmap string pyval)) :
  (∀ r v, r ∈ records → r !! "vehicle_id" = Some v → is_Some (hash_of v)) →
  ∃ tracks,
    reconstruct records ∅ = Ok tracks ∧
    (∀ r, r !! "vehicle_id" = None →
          reconstruct (r :: records) ∅ = Ok tracks) ∧
    ∀ k fields,
      tracks !! k = Some fields ↔
      ∃ i r, records !! i = Some r ∧ row_key r = Some k ∧
             (∀ j r', (i < j)%nat → records !! j = Some r' → row_key r' ≠ Some k) ∧
             fields !! "vehicle_id" = None ∧
             ∀ column, column ≠ "vehicle_id" → fields !! column = r !! column.
Proof.
  intros Hhash.
  destruct (reconstruct_entries records Hhash ∅) as (tracks & Hrun & Hent).
  exists tracks. split; [exact Hrun|]. split.
  - intros r Hr. rewrite reconstruct_missing_id by exact Hr. exact Hrun.
  - intros k fields. rewrite Hent, lookup_empty, entry_after_last. split.
    + intros (i & r & Hi & Hk & -> & Hlast). exists i, r.
      split; [exact Hi|]. split; [exact Hk|]. split; [exact Hlast|].
      split; [apply lookup_delete_eq|].
      intros column Hc. apply lookup_delete_ne. congruence.
    + intros (i & r & Hi & Hk & Hlast & Hid & Hcols). exists i, r.
      split; [exact Hi|]. split; [exact Hk|]. split; [|exact Hlast].
      apply map_eq. intros column.
      destruct (decide (column = "vehicle_id")) as [->|Hc].
      * rewrite Hid, lookup_delete_eq. reflexivity.
      * rewrite Hcols by exact Hc. symmetry. apply lookup_delete_ne. congruence.
Qed.

End Reading.

(** *** Concrete tables *)

(** [float(str)] for documents without float literals. *)
Definition float_of_literal_zero (s : pystr) : float := PrimFloat.zero.

(** A row of vehicle 7 with a five-point corner polygon. *)
Definition corner : pyval := PArr [PFloat 1; PFloat 2].

Definition sample_row : gmap string pyval :=
  {[ "vehicle_id" := PInt 7;
     "pixel_corners" := PArr [corner; corner; corner; corner; corner];
     "frame_index" := PArr [PInt 0; PInt 1] ]}.

(** A later row of the same vehicle, and a row without the identifier. *)
Definition later_row : gmap string pyval :=
  {[ "vehicle_id" := PInt 7;
     "pixel_corners" := PArr [corner; corner; corner; corner; corner];
     "frame_index" := PArr [PInt 2; PInt 3] ]}.

Definition row_without_id : gmap string pyval :=
  {[ "pixel_corners" := PArr [corner; corner; corner; corner; corner];
     "frame_index" := PArr [PInt 0; PInt 1] ]}.

(** A table whose header has an entry, but none under [dataset_meta]. *)
Definition table_without_meta : Table :=
  {| metadata := Some {[ "created_by" := "parquet-cpp-arrow" ]};
     rows := [sample_row] |}.

(** C5.  The header has no [dataset_meta] entry.  The metadata step takes
    the warning branch without raising and the tracks are reconstructed,
    but the final [return] reads the local variable [restored_meta], which
    no branch has bound: the read raises UnboundLocalError instead of
    returning the tracks. *)
Theorem read_parquet_without_dataset_meta_raises :
  metadata table_without_meta ≫= (.!! "dataset_meta") = None ∧
  extract_meta float_of_literal_zero table_without_meta = Ok None ∧
  sample_corners_len (rows table_without_meta) = Ok 5%nat ∧
  reconstruct scalar_key (rows table_without_meta) ∅ =
    Ok {[ inl 7 := delete "vehicle_id" sample_row ]} ∧
  read_parquet float_of_literal_zero scalar_key table_without_meta =
    Raise UnboundLocalError.
Proof. repeat split; vm_compute; reflexivity. Qed.

Lemma read_parquet_raises_witness :
  ∃ e, read_parquet float_of_literal_zero scalar_key
         {| metadata := Some ∅; rows := [] |} = Raise e.
Proof.
  exact (read_parquet_raises_without_pixel_corners float_of_literal_zero
           scalar_key {| metadata := Some ∅; rows := [] |} (or_introl eq_refl)).
Defined.

(** C6, counterexample.  The only record lacks [vehicle_id]:
    reconstruction raises nothing and returns the empty mapping, which
    silently omits the row. *)
Lemma reconstruct_row_without_id_is_no_error :
  row_without_id !! "vehicle_id" = None ∧
  reconstruct scalar_key [row_without_id] ∅ = Ok ∅.
Proof. split; reflexivity. Qed.

Lemma sample_rows_hashable :
  ∀ r v, r ∈ [row_without_id; sample_row; later_row] →
    r !! "vehicle_id" = Some v → is_Some (scalar_key v).
Proof.
  intros r v Hin Hv.
  repeat (apply elem_of_cons in Hin as [->|Hin]);
    [vm_compute in Hv; discriminate
    |vm_compute in Hv; injection Hv as <-; eexists; reflexivity
    |vm_compute in Hv; injection Hv as <-; eexists; reflexivity
    |inversion Hin].
Qed.

Lemma reconstruct_last_row_wins_witness :
  ∃ tracks,
    reconstruct scalar_key [row_without_id; sample_row; later_row] ∅ = Ok tracks ∧
    (∀ r, r !! "vehicle_id" = None →
          reconstruct scalar_key (r :: [row_without_id; sample_row; later_row]) ∅
          = Ok tracks) ∧
    ∀ k fields,
      tracks !! k = Some fields ↔
      ∃ i r, [row_without_id; sample_row; later_row] !! i = Some r ∧
             row_key scalar_key r = Some k ∧
             (∀ j r', (i < j)%nat →
                [row_without_id; sample_row; later_row] !! j = Some r' →
                row_key scalar_key r' ≠ Some k) ∧
             fields !! "vehicle_id" = None ∧
             ∀ column, column ≠ "vehicle_id" → fields !! column = r !! column.
Proof.
  exact (reconstruct_skips_rows_without_id_last_row_wins scalar_key
           [row_without_id; sample_row; later_row] sample_rows_hashable).
Defined.

(** On these rows the mapping holds vehicle 7 with the fields of its later
    row. *)
Example reconstruct_sample_rows :
  reconstruct scalar_key [row_without_id; sample_row; later_row] ∅ =
    Ok {[ inl 7 := delete "vehicle_id" later_row ]}.
Proof. vm_compute. reflexivity. Qed.

End Reader.

(** ** Replacing the metadata ([update_parquet_meta]) *)

Module MetaUpdate.

Import Reader.

(** The Python dict objects that hold header maps live on a heap, indexed
    by their address: two names of one object share its updates. *)
Abbreviation heap := (gmap nat (gmap string string)).

(** A new dict object with the given contents. *)
Definition alloc (d : gmap string string) (h : heap) : nat * heap :=
  let l := fresh (dom h) in (l, <[l := d]> h).

(** [table.schema.metadata]: [None], or a dict with the table's header. *)
Definition schema_metadata (t : Table) (h : heap) : option nat * heap :=
  match metadata t with
  | None => (None, h)
  | Some header => let '(l, h') := alloc header h in (Some l, h')
  end.

(** [x or {}]: [x] itself when it is a non-empty dict, else a new empty
    dict. *)
Definition or_empty (x : option nat) (h : heap) : nat * heap :=
  match x with
  | Some l =>
      match h !! l with
      | Some d => if decide (d = ∅) then alloc ∅ h else (l, h)
      | None => alloc ∅ h
      end
  | None => alloc ∅ h
  end.

(** The header construction of source lines 56-59,
    [{**existing_meta, b'dataset_meta': new_meta_json_str.encode('utf-8')}]:
    a new dict receives the entries of [existing_meta]; the value is
    encoded, which raises on a lone surrogate; the new dict then gets the
    fixed key.  The heap is returned in both outcomes. *)
Definition build_updated_meta (existing_meta : nat) (new_meta_json_str : pystr)
    (h : heap) : result nat * heap :=
  let '(updated_meta, h1) := alloc (default ∅ (h !! existing_meta)) h in
  match Utf8.encode new_meta_json_str with
  | None => (Raise UnicodeEncodeError, h1)
  | Some value =>
      (Ok updated_meta,
       <[updated_meta :=
           <["dataset_meta" := value]> (default ∅ (h1 !! updated_meta))]> h1)
  end.

(** [table.replace_schema_metadata(d)]: a new table with the contents of
    the dict as its header. *)
Definition replace_schema_metadata (t : Table) (d : nat) (h : heap) : Table :=
  {| metadata := h !! d; rows := rows t |}.

Section Updating.

(** [float.__repr__], used by [json.dumps], and [float(str)], used by
    [json.loads]. *)
Variable float_repr : float → pystr.
Variable float_of_literal : pystr → float.

(** Steps 1 (second half) to 3 of [update_parquet_meta], source lines
    44-62, from the loaded [new_meta_dict] and the table read: the table
    that is written, and the heap. *)
Definition update_parquet_meta (new_meta_dict : json) (table : Table) (h : heap)
    : result Table * heap :=
  let new_meta_json_str := Json.dumps float_repr new_meta_dict in
  let '(metadata_dict, h1) := schema_metadata table h in
  let '(existing_meta, h2) := or_empty metadata_dict h1 in
  match build_updated_meta existing_meta new_meta_json_str h2 with
  | (Ok updated_meta, h3) =>
      (Ok (replace_schema_metadata table updated_meta h3), h3)
  | (Raise e, h3) => (Raise e, h3)
  end.

(** *** The heap *)

Lemma alloc_spec d (h : heap) l h' :
  alloc d h = (l, h') → h !! l = None ∧ h' = <[l := d]> h.
Proof.
  unfold alloc. intros [= <- <-]. split; [|reflexivity].
  apply not_elem_of_dom, is_fresh.
Qed.

Lemma alloc_keeps d (h : heap) l h' l0 d0 :
  alloc d h = (l, h') → h !! l0 = Some d0 → h' !! l0 = Some d0.
Proof.
  intros Ha Hl0. apply alloc_spec in Ha as [Hfresh ->].
  rewrite lookup_insert_ne; [exact Hl0|]. intros ->. congruence.
Qed.

Lemma build_updated_meta_spec existing_meta text (h : heap) :
  ∃ l',
    h !! l' = None ∧
    build_updated_meta existing_meta text h =
      match Utf8.encode text with
      | None => (Raise UnicodeEncodeError, <[l' := default ∅ (h !! existing_meta)]> h)
      | Some value =>
          (Ok l', <[l' := <["dataset_meta" := value]> (default ∅ (h !! existing_meta))]> h)
      end.
Proof.
  unfold build_updated_meta.
  destruct (alloc (default ∅ (h !! existing_meta)) h) as [l' h1] eqn:Ha.
  apply alloc_spec in Ha as [Hfresh ->]. exists l'. split; [exact Hfresh|].
  destruct (Utf8.encode text) as [value|]; [|reflexivity].
  rewrite lookup_insert_eq, insert_insert_eq. reflexivity.
Qed.

(** C3.  The header construction leaves every dict object of the heap as it
    was, the input header map among them, whether it returns or raises;
    the header it returns is a new object in which every key other than
    [dataset_meta] has the value it has in the input. *)
Theorem merge_preserves_other_keys_and_input
    (existing_meta : nat) (H : gmap string string) (text : pystr) (h : heap) :
  h !! existing_meta = Some H →
  (∀ l d, h !! l = Some d → (build_updated_meta existing_meta text h).2 !! l = Some d) ∧
  ∀ updated_meta,
    (build_updated_meta existing_meta text h).1 = Ok updated_meta →
    updated_meta ≠ existing_meta ∧
    ∃ H', (build_updated_meta existing_meta text h).2 !! updated_meta = Some H' ∧
          ∀ k, k ≠ "dataset_meta" → H' !! k = H !! k.
Proof.
  intros HH.
  destruct (build_updated_meta_spec existing_meta text h) as (l' & Hfresh & ->).
  rewrite HH. simpl.
  destruct (Utf8.encode text) as [value|]; simpl; split.
  - intros l d Hl. rewrite lookup_insert_ne; [exact Hl|]. intros ->. congruence.
  - intros updated_meta [= <-]. split; [intros ->; congruence|].
    exists (<["dataset_meta" := value]> H). split; [apply lookup_insert_eq|].
    intros k Hk. apply lookup_insert_ne. congruence.
  - intros l d Hl. rewrite lookup_insert_ne; [exact Hl|]. intros ->. congruence.
  - intros updated_meta [=].
Qed.

(** *** The round trip of the metadata *)

Lemma decode_entry_encoded (M : json) (value : string) :
  Json.well_formed float_repr float_of_literal M →
  Utf8.encode (Json.dumps float_repr M) = Some value →
  decode_entry float_of_literal value = Ok M.
Proof.
  intros Hwf Henc. unfold decode_entry.
  rewrite (Utf8.decode_encode _ _ Henc). simpl.
  rewrite (Json.loads_dumps float_repr float_of_literal M Hwf). reflexivity.
Qed.

Lemma existing_meta_spec (table : Table) (h : heap) m h1 l h2 :
  schema_metadata table h = (m, h1) →
  or_empty m h1 = (l, h2) →
  h2 !! l = Some (default ∅ (metadata table)).
Proof.
  unfold schema_metadata, or_empty.
  destruct (metadata table) as [header|]; simpl.
  - destruct (alloc header h) as [l0 h0] eqn:Ha. intros [= <- <-].
    apply alloc_spec in Ha as [_ ->]. rewrite lookup_insert_eq.
    destruct (decide (header = ∅)) as [->|Hne].
    + unfold alloc. intros [= <- <-]. apply lookup_insert_eq.
    + intros [= <- <-]. apply lookup_insert_eq.
  - intros [= <- <-]. unfold alloc. intros [= <- <-]. apply lookup_insert_eq.
Qed.

Lemma update_parquet_meta_encoded (M : json) (table : Table) (h : heap)
    (value : string) :
  Utf8.encode (Json.dumps float_repr M) = Some value →
  (update_parquet_meta M table h).1 =
    Ok {| metadata := Some (<["dataset_meta" := value]> (default ∅ (metadata table)));
          rows := rows table |}.
Proof.
  intros Henc. unfold update_parquet_meta.
  destruct (schema_metadata table h) as [m h1] eqn:Hm.
  destruct (or_empty m h1) as [l h2] eqn:Hl.
  pose proof (existing_meta_spec table h m h1 l h2 Hm Hl) as HH.
  destruct (build_updated_meta_spec l (Json.dumps float_repr M) h2)
    as (l' & _ & ->).
  rewrite Henc, HH. simpl. unfold replace_schema_metadata.
  rewrite lookup_insert_eq. reflexivity.
Qed.

(** C4, amended.  The new metadata [M] is a value as [json.load] returns
    it (the keys of a dict are distinct, a float is read back from its
    text) whose strings hold no lone surrogate.  Then the update returns a
    table with the rows of the input whose header has a [dataset_meta]
    entry, and that entry decodes (UTF-8, then JSON) to [M], whatever the
    header of the input table was: absent, empty, with or without a
    [dataset_meta] entry. *)
Theorem updated_metadata_decodes_to_new_meta
    (M : json) (table : Table) (h : heap) :
  Json.well_formed float_repr float_of_literal M →
  Json.strings_encodable float_repr M →
  ∃ table' raw,
    (update_parquet_meta M table h).1 = Ok table' ∧
    rows table' = rows table ∧
    metadata table' ≫= (.!! "dataset_meta") = Some raw ∧
    decode_entry float_of_literal raw = Ok M.
Proof.
  intros Hwf Henc.
  destruct (proj2 (Utf8.encode_is_Some _) (Json.dumps_encodable float_repr M Henc))
    as [value Hvalue].
  eexists _, value. rewrite (update_parquet_meta_encoded M table h value Hvalue).
  simpl.
  split; [reflexivity|]. split; [reflexivity|].
  split; [apply lookup_insert_eq|]. apply decode_entry_encoded; assumption.
Qed.

(** X4.  When the serialized metadata encodes to [value], the table that
    the update writes has the rows of the input and the header of the
    input (the empty one when the input has none) with [value] under
    [dataset_meta]: the trajectory columns and the foreign header entries
    are untouched. *)
Theorem update_keeps_rows_and_foreign_entries
    (M : json) (table : Table) (h : heap) (value : string) :
  Utf8.encode (Json.dumps float_repr M) = Some value →
  ∃ table',
    (update_parquet_meta M table h).1 = Ok table' ∧
    rows table' = rows table ∧
    metadata table' ≫= (.!! "dataset_meta") = Some value ∧
    ∀ k, k ≠ "dataset_meta" →
      metadata table' ≫= (.!! k) = default ∅ (metadata table) !! k.
Proof.
  intros Henc. eexists. rewrite (update_parquet_meta_encoded M table h value Henc).
  simpl. split; [reflexivity|]. split; [reflexivity|].
  split; [apply lookup_insert_eq|]. intros k Hk.
  apply lookup_insert_ne. congruence.
Qed.

End Updating.

(** *** Concrete updates *)

(** A header with a foreign entry and an old [dataset_meta] entry, held by
    the dict at address 0. *)
Definition old_header : gmap string string :=
  {[ "created_by" := "parquet-cpp-arrow"; "dataset_meta" := "{}" ]}.

Lemma merge_preserves_witness :
  let h : heap := {[ 0%nat := old_header ]} in
  (∀ l d, h !! l = Some d →
          (build_updated_meta 0 (lit "null") h).2 !! l = Some d) ∧
  ∀ updated_meta,
    (build_updated_meta 0 (lit "null") h).1 = Ok updated_meta →
    updated_meta ≠ 0%nat ∧
    ∃ H', (build_updated_meta 0 (lit "null") h).2 !! updated_meta = Some H' ∧
          ∀ k, k ≠ "dataset_meta" → H' !! k = old_header !! k.
Proof.
  exact (merge_preserves_other_keys_and_input 0 old_header (lit "null")
           {[ 0%nat := old_header ]} eq_refl).
Defined.

(** On this heap the construction returns a new dict at address 1 with the
    foreign entry kept and the [dataset_meta] entry replaced. *)
Example build_updated_meta_old_header :
  build_updated_meta 0 (lit "null") {[ 0%nat := old_header ]} =
    (Ok 1%nat,
     {[ 0%nat := old_header;
        1%nat := {[ "created_by" := "parquet-cpp-arrow";
                    "dataset_meta" := "null" ]} ]}).
Proof. vm_compute. reflexivity. Qed.

Lemma update_keeps_rows_witness :
  ∃ table',
    (update_parquet_meta (λ _, lit "0.0") JNull table_without_meta ∅).1 = Ok table' ∧
    rows table' = rows table_without_meta ∧
    metadata table' ≫= (.!! "dataset_meta") = Some "null" ∧
    ∀ k, k ≠ "dataset_meta" →
      metadata table' ≫= (.!! k) = default ∅ (metadata table_without_meta) !! k.
Proof.
  exact (update_keeps_rows_and_foreign_entries (λ _, lit "0.0") JNull
           table_without_meta ∅ "null" eq_refl).
Defined.

(** Conversions that are right on the one float of the example, 0.5; they
    stand for the interpreter's [float.__repr__] and [float(str)]. *)
Definition sample_float_repr (x : float) : pystr := lit "0.5".
Definition sample_float_of_literal (s : pystr) : float := 0.5%float.

Lemma sample_float_round_trips :
  Json.float_round_trips sample_float_repr sample_float_of_literal 0.5%float.
Proof.
  intros rest Hrest. destruct rest as [|c rest]; [reflexivity|].
  simpl in Hrest.
  destruct (N.eqb_spec c 44) as [->|H44]; [reflexivity|].
  destruct (N.eqb_spec c 93) as [->|H93]; [reflexivity|].
  destruct (N.eqb_spec c 125) as [->|H125]; [reflexivity|discriminate].
Qed.

(** A metadata object with a non-ASCII location name, a float, a list with
    the sentinel -1 and a nested movement map. *)
Definition sample_meta : json :=
  JDict [ (lit "location_name", JStr (lit "Hurong " ++ [27818; 23481]%N));
          (lit "frame_interval", JFloat 0.5);
          (lit "unique_lane_ids", JList [JInt 3; JInt 7; JInt (-1)]);
          (lit "lane_sequence_to_movement_map",
           JDict [(lit "3-7", JStr (lit "NB_Through"))]) ].

Lemma sample_meta_well_formed :
  Json.well_formed sample_float_repr sample_float_of_literal sample_meta.
Proof.
  simpl. split; [apply (bool_decide_unpack _); vm_compute; exact I|].
  split; [exact I|]. split; [exact sample_float_round_trips|].
  split; [repeat split|]. split; [|exact I].
  split; [apply (bool_decide_unpack _); vm_compute; exact I|].
  repeat split.
Qed.

Lemma sample_meta_encodable : Json.strings_encodable sample_float_repr sample_meta.
Proof.
  unfold Utf8.encodable. simpl.
  repeat split; try (apply Json.encodable_lit);
    repeat (apply Forall_cons; split; [split; reflexivity|]); constructor.
Qed.

Lemma updated_metadata_decodes_witness :
  ∃ table' raw,
    (update_parquet_meta sample_float_repr sample_meta table_without_meta ∅).1
      = Ok table' ∧
    rows table' = rows table_without_meta ∧
    metadata table' ≫= (.!! "dataset_meta") = Some raw ∧
    decode_entry sample_float_of_literal raw = Ok sample_meta.
Proof.
  exact (updated_metadata_decodes_to_new_meta sample_float_repr
           sample_float_of_literal sample_meta table_without_meta ∅
           sample_meta_well_formed sample_meta_encodable).
Defined.

(** The table that the update writes is read back with the new metadata
    and the tracks of the input. *)
Example update_then_read :
  match update_parquet_meta sample_float_repr sample_meta table_without_meta ∅ with
  | (Ok table', _) =>
      read_parquet sample_float_of_literal scalar_key table'
      = Ok ({[ inl 7 := delete "vehicle_id" sample_row ]}, sample_meta)
  | (Raise _, _) => False
  end.
Proof. vm_compute. reflexivity. Qed.

(** The object that [json.load] returns for a file that holds
    [{"location_name": "\ud800"}]: a string with a lone surrogate. *)
Definition surrogate_meta : json :=
  JDict [ (lit "location_name", JStr [0xD800]%N) ].

Definition surrogate_file_text : pystr :=
  ([123; 34] ++ lit "location_name" ++ [34] ++ lit ": "
     ++ [34; 92] ++ lit "ud800" ++ [34; 125])%N.

(** C4, counterexample.  The JSON file is valid and [json.load] returns
    [surrogate_meta]; [json.dumps] with [ensure_ascii=False] keeps the
    surrogate as it is, [encode('utf-8')] raises on it, and the update
    ends in UnicodeEncodeError: no header is produced, so nothing decodes
    to the metadata object. *)
Lemma update_raises_on_lone_surrogate :
  Json.loads sample_float_of_literal surrogate_file_text = Some surrogate_meta ∧
  Json.well_formed sample_float_repr sample_float_of_literal surrogate_meta ∧
  Json.dumps sample_float_repr surrogate_meta =
    ([123; 34] ++ lit "location_name" ++ [34] ++ lit ": " ++ [34; 0xD800; 34; 125])%N ∧
  Utf8.encode (Json.dumps sample_float_repr surrogate_meta) = None ∧
  (update_parquet_meta sample_float_repr surrogate_meta table_without_meta ∅).1
    = Raise UnicodeEncodeError.
Proof.
  split; [vm_compute; reflexivity|].
  split; [simpl; split; [apply (bool_decide_unpack _); vm_compute; exact I|]; repeat split|].
  repeat split; vm_compute; reflexivity.
Qed.

End MetaUpdate.

(** ** The spacetime segments ([plot_trajectory_spacetime_diagram]) *)

Module Segments.

(** The fields of a track that the plot reads: [track['frame_index']],
    [track['frenet_s']], [track['frenet_s_speed']], [track['lane_id']] and
    [track.get('vehicle_length', 5.0)].  The tracks of this module carry
    the four arrays; a track without one of them, on which the subscript
    raises KeyError, is not among them. *)
Record Track : Type := mkTrack {
  frame_index : list Z;
  frenet_s : list float;
  frenet_s_speed : list float;
  lane_id : list Z;
  vehicle_length : option float
}.

(** What the renderer receives for one lane: the line segments, their
    speeds, and the coordinates of the lane-change points. *)
Record plot_data : Type := mkPlot {
  lines : list ((float * float) * (float * float));
  speeds : list float;
  lc_points_x : list float;
  lc_points_y : list float
}.

Definition empty_plot : plot_data := mkPlot [] [] [] [].

(** The conversion of an [int64] to binary64.  [of_uint63] converts the 63
    bits of a magnitude below 2^63; the magnitude 2^63 of the least [int64]
    is twice 2^62. *)
Definition float_of_int (z : Z) : float :=
  match z with
  | Z0 => PrimFloat.zero
  | Zpos _ => PrimFloat.of_uint63 (Uint63.of_Z z)
  | Zneg p =>
      if Zpos p =? 9223372036854775808
      then PrimFloat.opp
             (PrimFloat.mul
                (PrimFloat.of_uint63 (Uint63.of_Z 4611686018427387904)) 2)
      else PrimFloat.opp (PrimFloat.of_uint63 (Uint63.of_Z (Zpos p)))
  end.

(** Source lines 134-137. *)
Definition direction_sign (s_coords : list float) : Z :=
  match seq_first s_coords, seq_last s_coords with
  | Some s0, Some sn =>
      if bool_decide (1 < length s_coords)%nat && PrimFloat.ltb sn s0
      then -1 else 1
  | _, _ => 1
  end.

(** [head_s = s_coords + direction_sign * (vehicle_length / 2.0)] *)
Definition head_positions (t : Track) : list float :=
  let vehicle_length := default 5%float (vehicle_length t) in
  let offset :=
    PrimFloat.mul (float_of_int (direction_sign (frenet_s t)))
                  (PrimFloat.div vehicle_length 2) in
  (λ s, PrimFloat.add s offset) <$> frenet_s t.

(** [times = frames * frame_interval] *)
Definition sample_times (frame_interval : float) (t : Track) : list float :=
  (λ f, PrimFloat.mul (float_of_int f) frame_interval) <$> frame_index t.

(** [a[i]] of an array ([IndexError] out of range). *)
Definition at_index {A} (a : list A) (i : nat) : result A :=
  or_raise IndexError (a !! i).

(** The body of the loop over the sample pairs, source lines 149-170. *)
Definition pair_step (target_lane_id : Z) (times head_s s_speeds : list float)
    (lane_ids : list Z) (st : plot_data) (i : nat) : result plot_data :=
  curr_lane ← at_index lane_ids i;
  next_lane ← at_index lane_ids (i + 1);
  if decide (curr_lane = target_lane_id ∧ next_lane = target_lane_id) then
    t1 ← at_index times i;
    h1 ← at_index head_s i;
    t2 ← at_index times (i + 1);
    h2 ← at_index head_s (i + 1);
    v ← at_index s_speeds i;
    Ok {| lines := lines st ++ [((t1, h1), (t2, h2))];
          speeds := speeds st ++ [PrimFloat.abs v];
          lc_points_x := lc_points_x st;
          lc_points_y := lc_points_y st |}
  else if decide (curr_lane = target_lane_id ∧ next_lane ≠ target_lane_id) then
    t1 ← at_index times i;
    h1 ← at_index head_s i;
    Ok {| lines := lines st;
          speeds := speeds st;
          lc_points_x := lc_points_x st ++ [t1];
          lc_points_y := lc_points_y st ++ [h1] |}
  else if decide (curr_lane ≠ target_lane_id ∧ next_lane = target_lane_id) then
    t2 ← at_index times (i + 1);
    h2 ← at_index head_s (i + 1);
    Ok {| lines := lines st;
          speeds := speeds st;
          lc_points_x := lc_points_x st ++ [t2];
          lc_points_y := lc_points_y st ++ [h2] |}
  else Ok st.

(** [for i in range(len(frames) - 1)] over one track, source lines
    124-170. *)
Definition track_segments (target_lane_id : Z) (frame_interval : float)
    (t : Track) (st : plot_data) : result plot_data :=
  foldl
    (λ acc i,
       st ← acc;
       pair_step target_lane_id (sample_times frame_interval t)
                 (head_positions t) (frenet_s_speed t) (lane_id t) st i)
    (Ok st)
    (seq 0 (length (frame_index t) - 1)).

(** The loop over the tracks for one lane, source lines 116-170. *)
Definition lane_segments (target_lane_id : Z) (frame_interval : float)
    (trajectory_data : list Track) : result plot_data :=
  foldl (λ acc t, st ← acc; track_segments target_lane_id frame_interval t st)
        (Ok empty_plot) trajectory_data.

(** The metadata that the plot reads: [meta_data.get('unique_lane_ids', [])]
    and [meta_data['frame_interval']]. *)
Record Meta : Type := mkMeta {
  unique_lane_ids : option (list Z);
  frame_interval : option float
}.

(** The function, up to the rendering: for each lane other than -1, in
    order, the data handed to the renderer; a lane without a segment is
    skipped. *)
Fixpoint lanes_to_render (lanes : list Z) (interval : float)
    (trajectory_data : list Track) : result (list (Z * plot_data)) :=
  match lanes with
  | [] => Ok []
  | target_lane_id :: rest =>
      if decide (target_lane_id = -1) then
        lanes_to_render rest interval trajectory_data
      else
        data ← lane_segments target_lane_id interval trajectory_data;
        later ← lanes_to_render rest interval trajectory_data;
        Ok (match lines data with
            | [] => later
            | _ :: _ => (target_lane_id, data) :: later
            end)
  end.

Definition plot_trajectory_spacetime_diagram (trajectory_data : list Track)
    (meta_data : Meta) : result (list (Z * plot_data)) :=
  interval ← or_raise KeyError (frame_interval meta_data);
  lanes_to_render (default [] (unique_lane_ids meta_data)) interval trajectory_data.

(** The sentinel lane -1 is skipped: it contributes nothing and the
    tracks are not even read for it. *)
Theorem sentinel_lane_is_skipped
    (lanes : list Z) (interval : float) (trajectory_data : list Track) :
  lanes_to_render (-1 :: lanes) interval trajectory_data =
  lanes_to_render lanes interval trajectory_data.
Proof. reflexivity. Qed.

(** *** The emissions, in the words of the specification *)

(** What a pair of consecutive samples emits. *)
Inductive emission : Type :=
| Segment (p1 p2 : float * float) (speed : float)
| CutOut (p : float * float)
| CutIn (p : float * float)
| Nothing.

(** Sample [i] is in the target lane. *)
Definition in_lane (target_lane_id : Z) (t : Track) (i : nat) : bool :=
  bool_decide (lane_id t !! i = Some target_lane_id).

(** [(time[i], head_position[i])] *)
Definition point_at (interval : float) (t : Track) (i : nat) : float * float :=
  (default PrimFloat.zero (sample_times interval t !! i),
   default PrimFloat.zero (head_positions t !! i)).

Definition speed_at (t : Track) (i : nat) : float :=
  PrimFloat.abs (default PrimFloat.zero (frenet_s_speed t !! i)).

(** The pair [(i, i+1)]: a segment when both samples are in the target
    lane, a cut-out point at [i] when only sample [i] is, a cut-in point at
    [i+1] when only sample [i+1] is, nothing otherwise. *)
Definition spec_emission (target_lane_id : Z) (interval : float) (t : Track)
    (i : nat) : emission :=
  match in_lane target_lane_id t i, in_lane target_lane_id t (i + 1) with
  | true, true =>
      Segment (point_at interval t i) (point_at interval t (i + 1)) (speed_at t i)
  | true, false => CutOut (point_at interval t i)
  | false, true => CutIn (point_at interval t (i + 1))
  | false, false => Nothing
  end.

(** The emission as the renderer's data records it. *)
Definition emit (st : plot_data) (e : emission) : plot_data :=
  match e with
  | Segment p1 p2 v =>
      {| lines := lines st ++ [(p1, p2)];
         speeds := speeds st ++ [v];
         lc_points_x := lc_points_x st;
         lc_points_y := lc_points_y st |}
  | CutOut p | CutIn p =>
      {| lines := lines st;
         speeds := speeds st;
         lc_points_x := lc_points_x st ++ [fst p];
         lc_points_y := lc_points_y st ++ [snd p] |}
  | Nothing => st
  end.

(** Every array of the track has an element for each frame; in the data
    model the arrays are aligned, with equal lengths.  The loop raises
    IndexError when it reaches a sample that an array lacks. *)
Definition aligned (t : Track) : Prop :=
  (length (frame_index t) ≤ length (lane_id t))%nat ∧
  (length (frame_index t) ≤ length (frenet_s t))%nat ∧
  (length (frame_index t) ≤ length (frenet_s_speed t))%nat.

Lemma pair_step_spec target interval (t : Track) (st : plot_data) (i : nat) :
  aligned t →
  (i + 1 < length (frame_index t))%nat →
  pair_step target (sample_times interval t) (head_positions t)
            (frenet_s_speed t) (lane_id t) st i
  = Ok (emit st (spec_emission target interval t i)).
Proof.
  intros (Hl & Hs & Hv) Hi.
  assert (Hlen_t : length (sample_times interval t) = length (frame_index t))
    by apply length_fmap.
  assert (Hlen_h : length (head_positions t) = length (frenet_s t))
    by apply length_fmap.
  destruct (lookup_lt_is_Some_2 (lane_id t) i) as [a Ha]; [lia|].
  destruct (lookup_lt_is_Some_2 (lane_id t) (i + 1)) as [b Hb]; [lia|].
  destruct (lookup_lt_is_Some_2 (sample_times interval t) i) as [t1 Ht1]; [lia|].
  destruct (lookup_lt_is_Some_2 (sample_times interval t) (i + 1)) as [t2 Ht2]; [lia|].
  destruct (lookup_lt_is_Some_2 (head_positions t) i) as [h1 Hh1]; [lia|].
  destruct (lookup_lt_is_Some_2 (head_positions t) (i + 1)) as [h2 Hh2]; [lia|].
  destruct (lookup_lt_is_Some_2 (frenet_s_speed t) i) as [v Hv1]; [lia|].
  unfold pair_step, spec_emission, in_lane, point_at, speed_at, at_index.
  rewrite Ha, Hb, Ht1, Ht2, Hh1, Hh2, Hv1. simpl.
  destruct (decide (a = target)) as [->|Hna], (decide (b = target)) as [->|Hnb].
  - rewrite decide_True by auto. rewrite !bool_decide_eq_true_2 by reflexivity.
    reflexivity.
  - rewrite decide_False by tauto. rewrite decide_True by auto.
    rewrite bool_decide_eq_true_2 by reflexivity.
    rewrite bool_decide_eq_false_2 by congruence. reflexivity.
  - rewrite decide_False by tauto. rewrite decide_False by tauto.
    rewrite decide_True by auto.
    rewrite bool_decide_eq_false_2 by congruence.
    rewrite bool_decide_eq_true_2 by reflexivity. reflexivity.
  - rewrite !decide_False by tauto.
    rewrite !bool_decide_eq_false_2 by congruence. reflexivity.
Qed.

Lemma track_segments_prefix target interval (t : Track) (st : plot_data) (m : nat) :
  aligned t →
  (m ≤ length (frame_index t) - 1)%nat →
  foldl
    (λ acc i,
       st ← acc;
       pair_step target (sample_times interval t) (head_positions t)
                 (frenet_s_speed t) (lane_id t) st i)
    (Ok st) (seq 0 m)
  = Ok (foldl emit st (spec_emission target interval t <$> seq 0 m)).
Proof.
  intros Hal. induction m as [|m IH]; intros Hm; [reflexivity|].
  rewrite seq_S, fmap_app. simpl. rewrite !foldl_snoc.
  rewrite IH by lia. simpl. apply pair_step_spec; [exact Hal|lia].
Qed.

(** C8.  On a track whose arrays have an element for each frame, the loop over the sample
    pairs returns the renderer's data extended, pair by pair in order, by
    the emission the specification names: a segment from
    [(time[i], head_position[i])] to [(time[i+1], head_position[i+1])]
    with speed [abs(frenet_s_speed[i])] when both lanes are the target, a
    cut-out point at [i] when only [lane_id[i]] is, a cut-in point at
    [i+1] when only [lane_id[i+1]] is, and nothing otherwise.  For
    [lane_id = [1,1,2,2,1]] and target lane 1 that is one segment (pair
    0-1), one cut-out point (index 1) and one cut-in point (index 4). *)
Theorem segments_follow_lane_membership
    (target_lane_id : Z) (interval : float) (t : Track) (st : plot_data) :
  aligned t →
  (∀ i st', (i + 1 < length (frame_index t))%nat →
     pair_step target_lane_id (sample_times interval t) (head_positions t)
               (frenet_s_speed t) (lane_id t) st' i
     = Ok (emit st' (spec_emission target_lane_id interval t i))) ∧
  track_segments target_lane_id interval t st
  = Ok (foldl emit st
          (spec_emission target_lane_id interval t
             <$> seq 0 (length (frame_index t) - 1))) ∧
  ∀ (f0 f1 f2 f3 f4 : Z) (s0 s1 s2 s3 s4 v0 v1 v2 v3 v4 : float)
    (len : option float),
    let u := {| frame_index := [f0; f1; f2; f3; f4];
                frenet_s := [s0; s1; s2; s3; s4];
                frenet_s_speed := [v0; v1; v2; v3; v4];
                lane_id := [1; 1; 2; 2; 1];
                vehicle_length := len |} in
    spec_emission 1 interval u <$> seq 0 4 =
      [ Segment (point_at interval u 0) (point_at interval u 1) (PrimFloat.abs v0);
        CutOut (point_at interval u 1);
        Nothing;
        CutIn (point_at interval u 4) ] ∧
    track_segments 1 interval u empty_plot =
      Ok {| lines := [(point_at interval u 0, point_at interval u 1)];
            speeds := [PrimFloat.abs v0];
            lc_points_x := [fst (point_at interval u 1); fst (point_at interval u 4)];
            lc_points_y := [snd (point_at interval u 1); snd (point_at interval u 4)] |}.
Proof.
  intros Hal. split; [|split].
  - intros i st' Hi. apply pair_step_spec; assumption.
  - unfold track_segments. apply track_segments_prefix; [exact Hal|lia].
  - intros. split; reflexivity.
Qed.

(** *** A concrete track *)

(** Five samples at frames 10 to 14, moving forward, in lanes 1, 1, 2, 2, 1;
    the first speed is negative. *)
Definition example_track : Track :=
  {| frame_index := [10; 11; 12; 13; 14];
     frenet_s := [0; 1; 2; 3; 4]%float;
     frenet_s_speed := [-3; 3; 3; 3; 3]%float;
     lane_id := [1; 1; 2; 2; 1];
     vehicle_length := None |}.

Lemma example_track_aligned : aligned example_track.
Proof. unfold aligned. simpl. lia. Qed.

Lemma segments_follow_lane_membership_witness :
  track_segments 1 0.5 example_track empty_plot
  = Ok (foldl emit empty_plot (spec_emission 1 0.5 example_track <$> seq 0 4)).
Proof.
  exact (proj1 (proj2 (segments_follow_lane_membership 1 0.5 example_track
                         empty_plot example_track_aligned))).
Defined.

(** With a frame interval of half a second and the default vehicle length
    of 5: one segment from (5, 2.5) to (5.5, 3.5) with speed 3, the cut-out
    point (5.5, 3.5) and the cut-in point (7, 6.5). *)
Example example_track_segments :
  track_segments 1 0.5 example_track empty_plot =
    Ok {| lines := [((5, 2.5), (5.5, 3.5))]%float;
          speeds := [3]%float;
          lc_points_x := [5.5; 7]%float;
          lc_points_y := [3.5; 6.5]%float |}.
Proof. vm_compute. reflexivity. Qed.

(** The sentinel lane -1 is skipped, and so is a lane without a segment. *)
Example example_plot :
  plot_trajectory_spacetime_diagram [example_track]
    {| unique_lane_ids := Some [-1; 1; 2; 3]; frame_interval := Some 0.5%float |}
  = Ok [ (1, {| lines := [((5, 2.5), (5.5, 3.5))]%float;
                speeds := [3]%float;
                lc_points_x := [5.5; 7]%float;
                lc_points_y := [3.5; 6.5]%float |});
         (2, {| lines := [((6, 4.5), (6.5, 5.5))]%float;
                speeds := [3]%float;
                lc_points_x := [6; 6.5]%float;
                lc_points_y := [4.5; 5.5]%float |}) ].
Proof. vm_compute. reflexivity. Qed.

End Segments.

(** ** The classifier as a whole: what the counters hold on return *)

Module Accounting.
Import Classifier.

#[global] Instance verdict_eq_dec : EqDecision verdict.
Proof. solve_decision. Defined.

(** The label and the OD key under which a verdict counts a track. *)
Definition label_of (v : verdict) : option string :=
  match v with
  | Count movement_name _ => Some movement_name
  | _ => None
  end.

Definition key_of (v : verdict) : option string :=
  match v with
  | Count _ od_key => Some od_key
  | _ => None
  end.

(** A verdict that adds to [valid_movement_vehicles]. *)
Definition is_identified (v : verdict) : bool :=
  match v with
  | Count movement_name _ => bool_decide (movement_name ≠ "Undefined")
  | _ => false
  end.

Definition is_counted (v : verdict) : bool :=
  match v with
  | Count _ _ => true
  | _ => false
  end.

Ltac filter_cases :=
  repeat case_decide; repeat case_bool_decide; simplify_eq; simpl in *;
  try tauto; try lia; try congruence.

(** [d.get(k, 0)] and [d.get(k, [])] of the counter dictionaries. *)
Definition count_of (k : string) (m : gmap string nat) : nat :=
  default 0%nat (m !! k).

Definition vehicles_of (k : string) (m : gmap string (list ident)) : list ident :=
  default [] (m !! k).

(** The sum of the values of a counter dictionary. *)
Definition total (m : gmap string nat) : nat :=
  map_fold (λ _ n acc, (n + acc)%nat) 0%nat m.

Lemma count_of_incr (k k' : string) (m : gmap string nat) :
  count_of k (incr k' m) =
  (count_of k m + if decide (k' = k) then 1 else 0)%nat.
Proof.
  unfold count_of, incr. destruct (decide (k' = k)) as [->|Hne].
  - rewrite lookup_insert_eq. reflexivity.
  - rewrite lookup_insert_ne by exact Hne. simpl. lia.
Qed.

Lemma is_Some_incr (k k' : string) (m : gmap string nat) :
  is_Some (incr k' m !! k) ↔ is_Some (m !! k) ∨ k' = k.
Proof.
  unfold incr. destruct (decide (k' = k)) as [->|Hne].
  - rewrite lookup_insert_eq. split; eauto.
  - rewrite lookup_insert_ne by exact Hne. split; [auto|]. intros [H|H]; [exact H|contradiction].
Qed.

Lemma vehicles_of_record (k k' : string) (vid : ident) (m : gmap string (list ident)) :
  vehicles_of k (record_vehicle k' vid m) =
  vehicles_of k m ++ if decide (k' = k) then [vid] else [].
Proof.
  unfold vehicles_of, record_vehicle. destruct (decide (k' = k)) as [->|Hne].
  - rewrite lookup_insert_eq. reflexivity.
  - rewrite lookup_insert_ne by exact Hne. simpl. rewrite (right_id_L [] (++)). reflexivity.
Qed.

Lemma total_incr (k : string) (m : gmap string nat) :
  total (incr k m) = S (total m).
Proof.
  unfold total, incr.
  assert (Hcomm : ∀ (m' : gmap string nat) (j1 j2 : string) (z1 z2 y : nat),
             j1 ≠ j2 → m' !! j1 = Some z1 → m' !! j2 = Some z2 →
             (z1 + (z2 + y) = z2 + (z1 + y))%nat) by (intros; lia).
  destruct (m !! k) as [n|] eqn:Hk; simpl.
  - rewrite <- (insert_delete_eq m k (n + 1)%nat).
    rewrite map_fold_insert_L; [|apply Hcomm|apply lookup_delete_eq].
    rewrite (map_fold_delete_L _ _ k n m); [lia|apply Hcomm|exact Hk].
  - rewrite map_fold_insert_L; [lia|apply Hcomm|exact Hk].
Qed.

(** *** The counters in closed form *)

Section ClosedForm.
Variables (lo hi : Z) (lane_map : gmap string string).

Definition verdict_on (item : ident * Track) : verdict :=
  verdict_of lo hi lane_map item.2.

(** The tracks counted under a label, under an OD key, under a label other
    than "Undefined", and the boundary-filtered ones, in iteration order. *)
Definition counted_with_label (name : string) (data : list (ident * Track)) :=
  filter (λ item, label_of (verdict_on item) = Some name) data.

Definition counted_with_key (k : string) (data : list (ident * Track)) :=
  filter (λ item, key_of (verdict_on item) = Some k) data.

Definition identified (data : list (ident * Track)) :=
  filter (λ item, is_identified (verdict_on item)) data.

Definition boundary_filtered (data : list (ident * Track)) :=
  filter (λ item, verdict_on item = Filter) data.


Lemma step_verdict_on st (item : ident * Track) :
  step lo hi lane_map st item = act (verdict_on item) item.1 st.
Proof. destruct item as [vid t]. apply step_act. Qed.

Lemma pass2_closed_form (data : list (ident * Track)) :
  ∀ st,
  let st' := pass2 lo hi lane_map st data in
  (∀ name, count_of name (movement_counts st') =
     (count_of name (movement_counts st) + length (counted_with_label name data))%nat) ∧
  (∀ k, count_of k (od_counts st') =
     (count_of k (od_counts st) + length (counted_with_key k data))%nat) ∧
  (∀ k, vehicles_of k (od_vehicles st') =
     vehicles_of k (od_vehicles st) ++ (counted_with_key k data).*1) ∧
  valid_movement_vehicles st' =
    (valid_movement_vehicles st + length (identified data))%nat ∧
  undefined_filtered_count st' =
    (undefined_filtered_count st + length (boundary_filtered data))%nat.
Proof.
  induction data as [|item data IH]; intros st; cbv zeta.
  - simpl. repeat split; intros; rewrite ?(right_id_L [] (++));
      first [lia | reflexivity].
  - rewrite pass2_cons, step_verdict_on.
    destruct (IH (act (verdict_on item) item.1 st)) as (Hm & Ho & Hv & Hvalid & Hf).
    unfold counted_with_label, counted_with_key, identified, boundary_filtered in *.
    split; [|split; [|split; [|split]]]; intros;
      rewrite ?Hm, ?Ho, ?Hv, ?Hvalid, ?Hf, filter_cons;
      destruct (verdict_on item) as [| |name' k']; simpl;
      rewrite ?count_of_incr, ?vehicles_of_record;
      repeat case_decide; repeat case_bool_decide; simplify_eq; simpl;
      rewrite <- ?app_assoc, ?(right_id_L [] (++));
      try done; try lia.
Qed.

(** Every stored count is positive: a key is present exactly when a track
    was counted under it. *)
Definition positive (m : gmap string nat) : Prop :=
  ∀ k n, m !! k = Some n → (1 ≤ n)%nat.

Lemma positive_incr (k : string) (m : gmap string nat) :
  positive m → positive (incr k m).
Proof.
  intros Hm k' n. unfold incr. destruct (decide (k = k')) as [->|Hne].
  - rewrite lookup_insert_eq. intros [= <-]. lia.
  - rewrite lookup_insert_ne by exact Hne. apply Hm.
Qed.

Lemma pass2_positive (data : list (ident * Track)) :
  ∀ st, positive (movement_counts st) → positive (od_counts st) →
  positive (movement_counts (pass2 lo hi lane_map st data)) ∧
  positive (od_counts (pass2 lo hi lane_map st data)).
Proof.
  induction data as [|item data IH]; intros st Hm Ho; [split; assumption|].
  rewrite pass2_cons, step_verdict_on.
  destruct (verdict_on item); simpl; apply IH; simpl;
    auto using positive_incr.
Qed.

Lemma positive_is_Some (m : gmap string nat) (k : string) :
  positive m → is_Some (m !! k) ↔ (1 ≤ count_of k m)%nat.
Proof.
  intros Hm. unfold count_of. destruct (m !! k) as [n|] eqn:Hk; simpl.
  - split; [intros _; eapply Hm, Hk | eauto].
  - split; [intros [? [=]] | lia].
Qed.

(** The tracks with some [Count] verdict. *)
Definition counted (data : list (ident * Track)) :=
  filter (λ item, is_counted (verdict_on item)) data.

Lemma pass2_total (data : list (ident * Track)) :
  ∀ st,
  total (movement_counts (pass2 lo hi lane_map st data)) =
    (total (movement_counts st) + length (counted data))%nat ∧
  total (od_counts (pass2 lo hi lane_map st data)) =
    (total (od_counts st) + length (counted data))%nat.
Proof.
  induction data as [|item data IH]; intros st; [simpl; lia|].
  rewrite pass2_cons, step_verdict_on.
  destruct (IH (act (verdict_on item) item.1 st)) as [-> ->].
  unfold counted. rewrite filter_cons.
  destruct (verdict_on item); simpl; rewrite ?total_incr; filter_cases.
Qed.

Lemma counted_split (data : list (ident * Track)) :
  length (counted data) =
  (length (identified data) + length (counted_with_label "Undefined" data))%nat.
Proof.
  unfold counted, identified, counted_with_label.
  induction data as [|item data IH]; [reflexivity|].
  rewrite !filter_cons.
  destruct (verdict_on item) as [| |name k]; simpl; filter_cases.
Qed.

Lemma counted_and_filtered (data : list (ident * Track)) :
  (length (counted data) + length (boundary_filtered data) ≤ length data)%nat.
Proof.
  unfold counted, boundary_filtered.
  induction data as [|item data IH]; [reflexivity|].
  rewrite !filter_cons.
  destruct (verdict_on item) as [| |name k]; simpl; filter_cases.
Qed.

(** Every stored vehicle list is non-empty. *)
Definition inhabited (m : gmap string (list ident)) : Prop :=
  ∀ k l, m !! k = Some l → l ≠ [].

Lemma pass2_inhabited (data : list (ident * Track)) :
  ∀ st, inhabited (od_vehicles st) →
  inhabited (od_vehicles (pass2 lo hi lane_map st data)).
Proof.
  induction data as [|item data IH]; intros st Hv; [assumption|].
  rewrite pass2_cons, step_verdict_on.
  destruct (verdict_on item) as [| |name k]; simpl; apply IH; simpl; auto.
  intros k' l. unfold record_vehicle. destruct (decide (k = k')) as [->|Hne].
  - rewrite lookup_insert_eq. intros [= <-]. intros Hnil.
    apply app_eq_nil in Hnil as [_ [=]].
  - rewrite lookup_insert_ne by exact Hne. apply Hv.
Qed.

End ClosedForm.

Lemma positive_lookup (m : gmap string nat) (k : string) (n : nat) :
  positive m → m !! k = Some n ↔ n = count_of k m ∧ (1 ≤ n)%nat.
Proof.
  intros Hm. unfold count_of. split.
  - intros Hk. rewrite Hk. split; [reflexivity | eapply Hm, Hk].
  - intros [-> Hn]. destruct (m !! k) as [n|]; simpl in *; [reflexivity | lia].
Qed.

Lemma inhabited_lookup (m : gmap string (list ident)) (k : string) (l : list ident) :
  inhabited m → m !! k = Some l ↔ l = vehicles_of k m ∧ l ≠ [].
Proof.
  intros Hm. unfold vehicles_of. split.
  - intros Hk. rewrite Hk. split; [reflexivity | eapply Hm, Hk].
  - intros [-> Hn]. destruct (m !! k) as [l|]; simpl in *; [reflexivity | contradiction].
Qed.

Lemma run_Some (data : list (ident * Track)) (meta : Meta) (st : counters) :
  run data meta = Some st →
  ∃ lo hi, global_range data.*2 = Some (lo, hi) ∧
           st = pass2 lo hi (lane_map_of meta) init data.
Proof.
  unfold run. destruct (global_range data.*2) as [[lo hi]|]; [|discriminate].
  intros [= <-]. eauto.
Qed.

(** What a [Count] verdict says about the track. *)
Lemma verdict_Count lo hi lane_map (t : Track) (name k : string) :
  verdict_of lo hi lane_map t = Count name k →
  track_od_key t = Some k ∧ movement_of lane_map k = name ∧
  (name = "Undefined" →
   ∃ v_start v_end, frame_span t = Some (v_start, v_end) ∧
                    at_boundary lo hi v_start v_end = false).
Proof.
  unfold verdict_of. destruct (track_od_key t) as [k'|]; [|discriminate].
  cbv zeta. destruct (decide (movement_of lane_map k' = "Undefined")) as [Hu|Hu].
  - destruct (frame_span t) as [[s e]|]; [|discriminate].
    destruct (at_boundary lo hi s e) eqn:Hb; [discriminate|].
    intros [= <- <-]. split; [reflexivity|]. split; [reflexivity|].
    intros _. exists s, e. split; [reflexivity|exact Hb].
  - intros [= <- <-]. split; [reflexivity|]. split; [reflexivity|].
    intros Hn. contradiction.
Qed.

Lemma at_boundary_false lo hi s e :
  at_boundary lo hi s e = false ↔ wrap64 (lo + 3) ≤ s ∧ e ≤ wrap64 (hi - 3).
Proof.
  unfold at_boundary. rewrite orb_false_iff, Z.ltb_ge, Z.gtb_ltb, Z.ltb_ge.
  reflexivity.
Qed.

Lemma NoDup_fst_filter {A B} (P : A * B → Prop) `{∀ x, Decision (P x)}
    (l : list (A * B)) :
  NoDup l.*1 → NoDup (filter P l).*1.
Proof.
  induction l as [|[a b] l IH]; simpl; [intros; constructor|].
  rewrite NoDup_cons. intros [Hnot Hnd]. rewrite filter_cons.
  case_decide; [|auto]. simpl. apply NoDup_cons. split; [|auto].
  intros Hin. apply Hnot. apply list_elem_of_fmap in Hin as ([a' b'] & -> & Hin).
  apply list_elem_of_filter in Hin as [_ Hin].
  apply list_elem_of_fmap. exists (a', b'). auto.
Qed.

Lemma NoDup_fst_functional {A B} (l : list (A * B)) (a : A) (b1 b2 : B) :
  NoDup l.*1 → (a, b1) ∈ l → (a, b2) ∈ l → b1 = b2.
Proof.
  induction l as [|[a' b'] l IH]; simpl; [intros _ Hin; inversion Hin|].
  rewrite NoDup_cons. intros [Hnot Hnd] H1 H2.
  apply elem_of_cons in H1 as [H1|H1]; apply elem_of_cons in H2 as [H2|H2].
  - congruence.
  - exfalso. apply Hnot. injection H1 as <- <-.
    apply list_elem_of_fmap. exists (a, b2). auto.
  - exfalso. apply Hnot. injection H2 as <- <-.
    apply list_elem_of_fmap. exists (a, b1). auto.
  - auto.
Qed.

(** *** The counters on return *)

(** X5.  When the classifier reaches pass 2 its counters are counts of
    tracks: the returned [movement_counts] holds a label exactly when some
    track is counted under it, with the number of such tracks;
    [od_counts] likewise per OD key; [od_vehicles] of a key lists the
    identifiers of the tracks counted under the key, in iteration order;
    [valid_movement_vehicles] is the number of tracks counted under a label
    other than "Undefined" and [undefined_filtered_count] the number of
    boundary-filtered tracks. *)
Theorem counters_count_the_tracks
    (data : list (ident * Track)) (meta : Meta) (st : counters) :
  run data meta = Some st →
  ∃ lo hi,
    global_range data.*2 = Some (lo, hi) ∧
    let lane_map := lane_map_of meta in
    (∀ name n, analysis_movement_data data meta !! name = Some n ↔
       n = length (counted_with_label lo hi lane_map name data) ∧ (1 ≤ n)%nat) ∧
    (∀ k n, od_counts st !! k = Some n ↔
       n = length (counted_with_key lo hi lane_map k data) ∧ (1 ≤ n)%nat) ∧
    (∀ k l, od_vehicles st !! k = Some l ↔
       l = (counted_with_key lo hi lane_map k data).*1 ∧ l ≠ []) ∧
    valid_movement_vehicles st = length (identified lo hi lane_map data) ∧
    undefined_filtered_count st = length (boundary_filtered lo hi lane_map data).
Proof.
  intros Hrun. unfold analysis_movement_data. rewrite Hrun.
  destruct (run_Some _ _ _ Hrun) as (lo & hi & Hrange & ->).
  exists lo, hi. split; [exact Hrange|]. cbv zeta.
  destruct (pass2_closed_form lo hi (lane_map_of meta) data init)
    as (Hm & Ho & Hv & Hvalid & Hf).
  destruct (pass2_positive lo hi (lane_map_of meta) data init) as [Pm Po];
    [intros k n; unfold init; simpl; rewrite lookup_empty; discriminate ..|].
  assert (Pv := pass2_inhabited lo hi (lane_map_of meta) data init).
  split; [|split; [|split; [|split]]].
  - intros name n. rewrite (positive_lookup _ _ _ Pm), Hm. reflexivity.
  - intros k n. rewrite (positive_lookup _ _ _ Po), Ho. reflexivity.
  - intros k l. rewrite inhabited_lookup, Hv; [reflexivity|].
    apply Pv. intros k' l'. unfold init. simpl. rewrite lookup_empty. discriminate.
  - rewrite Hvalid. reflexivity.
  - rewrite Hf. reflexivity.
Qed.

(** X6.  The numbers of the report agree with each other: the counts per
    label and the counts per OD key add up to the same number of counted
    tracks, "Identified Movements" plus the count of "Undefined" is that
    number, every vehicle list is as long as the count of its key, and the
    counted and boundary-filtered tracks together never exceed
    "Total Vehicles". *)
Theorem report_numbers_agree
    (data : list (ident * Track)) (meta : Meta) (st : counters) :
  run data meta = Some st →
  total (movement_counts st) = total (od_counts st) ∧
  (valid_movement_vehicles st + count_of "Undefined" (movement_counts st))%nat =
    total (movement_counts st) ∧
  (∀ k, length (vehicles_of k (od_vehicles st)) = count_of k (od_counts st)) ∧
  (total (movement_counts st) + undefined_filtered_count st ≤ length data)%nat.
Proof.
  intros Hrun. destruct (run_Some _ _ _ Hrun) as (lo & hi & _ & ->).
  destruct (pass2_closed_form lo hi (lane_map_of meta) data init)
    as (Hm & Ho & Hv & Hvalid & Hf).
  destruct (pass2_total lo hi (lane_map_of meta) data init) as [Tm To].
  rewrite Tm, To, Hvalid, Hf, Hm.
  assert (Hsplit := counted_split lo hi (lane_map_of meta) data).
  assert (Hle := counted_and_filtered lo hi (lane_map_of meta) data).
  split; [reflexivity|]. split; [|split].
  - change (total (movement_counts init)) with 0%nat.
    change (count_of "Undefined" (movement_counts init)) with 0%nat.
    simpl. lia.
  - intros k. rewrite Hv, Ho. unfold vehicles_of, count_of, init. simpl.
    rewrite !lookup_empty. simpl. rewrite length_fmap. reflexivity.
  - change (total (movement_counts init)) with 0%nat. simpl. lia.
Qed.

(** X7.  The track mapping is a dictionary, so its identifiers are
    distinct.  Then no vehicle is listed twice: every list of
    [od_vehicles] is duplicate-free and no identifier is listed under two
    keys.  A listed vehicle is a track of the input whose lane sequence
    gives the key.  When the key classifies as "Undefined" the track
    passed the boundary test: its first frame is not below the [int64] sum
    [global_min_frame+3] and its last frame not above the [int64] sum
    [global_max_frame-3]; with [int64] frames and a first frame that is
    not after the last, the track lies inside the frame window, at least 3
    frames away from both ends. *)
Theorem listed_vehicles_are_counted_once
    (data : list (ident * Track)) (meta : Meta) (st : counters) :
  NoDup data.*1 →
  run data meta = Some st →
  ∃ lo hi,
    global_range data.*2 = Some (lo, hi) ∧
    (∀ k, NoDup (vehicles_of k (od_vehicles st))) ∧
    (∀ k k' vid, vid ∈ vehicles_of k (od_vehicles st) →
                 vid ∈ vehicles_of k' (od_vehicles st) → k = k') ∧
    (∀ k vid, vid ∈ vehicles_of k (od_vehicles st) →
       ∃ t, (vid, t) ∈ data ∧ track_od_key t = Some k ∧
            (movement_of (lane_map_of meta) k = "Undefined" →
             ∃ v_start v_end,
               frame_span t = Some (v_start, v_end) ∧
               wrap64 (lo + 3) ≤ v_start ∧ v_end ≤ wrap64 (hi - 3) ∧
               (Forall int64_frames data.*2 → v_start ≤ v_end →
                lo + 3 ≤ v_start ∧ v_end ≤ hi - 3))).
Proof.
  intros Hnd Hrun. destruct (run_Some _ _ _ Hrun) as (lo & hi & Hrange & ->).
  exists lo, hi. split; [exact Hrange|].
  destruct (pass2_closed_form lo hi (lane_map_of meta) data init)
    as (_ & _ & Hv & _ & _).
  assert (Hlisted : ∀ k vid,
            vid ∈ vehicles_of k (od_vehicles (pass2 lo hi (lane_map_of meta) init data)) →
            ∃ t name, (vid, t) ∈ data ∧
                      verdict_of lo hi (lane_map_of meta) t = Count name k).
  { intros k vid. rewrite Hv. simpl.
    intros Hin. apply list_elem_of_fmap in Hin as ([vid' t] & -> & Hin).
    apply list_elem_of_filter in Hin as [Hkey Hin].
    unfold verdict_on in Hkey. simpl in *.
    destruct (verdict_of lo hi (lane_map_of meta) t) as [| |name k'] eqn:Hverdict;
      simpl in Hkey; try discriminate.
    injection Hkey as ->. eauto. }
  split; [|split].
  - intros k. rewrite Hv. simpl. apply NoDup_fst_filter, Hnd.
  - intros k k' vid H1 H2.
    apply Hlisted in H1 as (t1 & n1 & Hin1 & Hv1).
    apply Hlisted in H2 as (t2 & n2 & Hin2 & Hv2).
    rewrite (NoDup_fst_functional _ _ _ _ Hnd Hin1 Hin2) in Hv1. congruence.
  - intros k vid Hin. apply Hlisted in Hin as (t & name & Hin & Hverdict).
    apply verdict_Count in Hverdict as (Hk & Hname & Hinside).
    exists t. split; [exact Hin|]. split; [exact Hk|].
    intros Hu. destruct Hinside as (s & e & Hspan & Hb); [congruence|].
    exists s, e. split; [exact Hspan|].
    pose proof (proj1 (at_boundary_false lo hi s e) Hb) as [H1 H2].
    split; [exact H1|]. split; [exact H2|].
    intros Hint Horder.
    assert (Ht : t ∈ data.*2).
    { apply list_elem_of_fmap. exists (vid, t). auto. }
    destruct (global_range_bounds data.*2 lo hi Hrange) as [Hbounds Hends].
    destruct (Hbounds t s e Ht Hspan) as [Hlo_s He_hi].
    destruct (Hends Hint) as [Hlo64 Hhi64].
    assert (Ht64 : int64_frames t).
    { rewrite Forall_forall in Hint. apply Hint, Ht. }
    destruct (frame_span_int64 t s e Ht64 Hspan) as [Hs64 He64].
    pose proof (at_boundary_in_order lo hi s e Hlo64 Hhi64 Hs64 He64
                  Hlo_s Horder He_hi) as Hiff.
    destruct (decide (lo + 3 ≤ s ∧ e ≤ hi - 3)) as [Hok|Hno]; [exact Hok|].
    exfalso. assert (Htrue : at_boundary lo hi s e = true) by (apply Hiff; lia).
    congruence.
Qed.

(** X8.  The classifier returns early, with the empty result, exactly when
    no track of the mapping has a frame: every [frame_index] is absent,
    [None] or empty. *)
Theorem early_return_iff_no_track_has_frames
    (data : list (ident * Track)) (meta : Meta) :
  (run data meta = None ↔
   ∀ vid t, (vid, t) ∈ data →
     frame_index t = Absent ∨ frame_index t = PyNone ∨ frame_index t = Val []) ∧
  (run data meta = None → analysis_movement_data data meta = ∅).
Proof.
  split; [|intros Hrun; unfold analysis_movement_data; rewrite Hrun; reflexivity].
  assert (Hspan : ∀ t, frame_span t = None ↔
            frame_index t = Absent ∨ frame_index t = PyNone ∨ frame_index t = Val []).
  { intros t. unfold frame_span.
    destruct (frame_index t) as [| |[|x fs]]; [split; auto ..|].
    unfold seq_first, seq_last. destruct (last (x :: fs)) eqn:Hl.
    - simpl. split; [discriminate|]. intros [H|[H|H]]; discriminate.
    - rewrite last_None in Hl. discriminate Hl. }
  split.
  - intros Hrun vid t Hin. apply Hspan.
    destruct (frame_span t) as [[s e]|] eqn:Hs; [|reflexivity].
    assert (Ht : t ∈ data.*2).
    { apply list_elem_of_fmap. exists (vid, t). auto. }
    destruct (global_range_is_Some _ _ _ _ Ht Hs) as (lo & hi & Hrange).
    unfold run in Hrun. rewrite Hrange in Hrun. discriminate.
  - intros Hall. unfold run, global_range.
    assert (Hnil : all_start_frames data.*2 = []).
    { unfold all_start_frames. induction data as [|[vid t] data IH]; [reflexivity|].
      simpl. assert (Ht : frame_span t = None) by (apply Hspan, (Hall vid); left).
      rewrite Ht. simpl. apply IH. intros vid' t' Hin. apply (Hall vid'). right. exact Hin. }
    rewrite Hnil. reflexivity.
Qed.

(** *** The theorems at concrete inputs *)

(** An unmapped track (OD key "3-9") well inside the frame window. *)
Definition inner_track : Track :=
  {| frame_index := Val [10; 20];
     lane_sequence := Val [LaneNum 3; LaneNum 9] |}.

(** Three vehicles: a mapped one, an unmapped one at the boundary and an
    unmapped one inside the window. *)
Definition sample_data : list (ident * Track) :=
  [(IdInt 1, long_track); (IdInt 2, unmapped_track); (IdInt 3, inner_track)].

Definition sample_counters : counters :=
  pass2 0 100 (lane_map_of through_meta) init sample_data.

Lemma counters_count_the_tracks_witness :
  ∃ lo hi,
    global_range sample_data.*2 = Some (lo, hi) ∧
    let lane_map := lane_map_of through_meta in
    (∀ name n, analysis_movement_data sample_data through_meta !! name = Some n ↔
       n = length (counted_with_label lo hi lane_map name sample_data) ∧ (1 ≤ n)%nat) ∧
    (∀ k n, od_counts sample_counters !! k = Some n ↔
       n = length (counted_with_key lo hi lane_map k sample_data) ∧ (1 ≤ n)%nat) ∧
    (∀ k l, od_vehicles sample_counters !! k = Some l ↔
       l = (counted_with_key lo hi lane_map k sample_data).*1 ∧ l ≠ []) ∧
    valid_movement_vehicles sample_counters =
      length (identified lo hi lane_map sample_data) ∧
    undefined_filtered_count sample_counters =
      length (boundary_filtered lo hi lane_map sample_data).
Proof.
  exact (counters_count_the_tracks sample_data through_meta sample_counters eq_refl).
Defined.

Lemma report_numbers_agree_witness :
  total (movement_counts sample_counters) = total (od_counts sample_counters) ∧
  (valid_movement_vehicles sample_counters +
   count_of "Undefined" (movement_counts sample_counters))%nat =
    total (movement_counts sample_counters) ∧
  (∀ k, length (vehicles_of k (od_vehicles sample_counters)) =
        count_of k (od_counts sample_counters)) ∧
  (total (movement_counts sample_counters) +
   undefined_filtered_count sample_counters ≤ length sample_data)%nat.
Proof.
  exact (report_numbers_agree sample_data through_meta sample_counters eq_refl).
Defined.

Lemma sample_data_distinct : NoDup sample_data.*1.
Proof. apply (bool_decide_unpack _). vm_compute. exact I. Defined.

Lemma listed_vehicles_witness :
  ∃ lo hi,
    global_range sample_data.*2 = Some (lo, hi) ∧
    (∀ k, NoDup (vehicles_of k (od_vehicles sample_counters))) ∧
    (∀ k k' vid, vid ∈ vehicles_of k (od_vehicles sample_counters) →
                 vid ∈ vehicles_of k' (od_vehicles sample_counters) → k = k') ∧
    (∀ k vid, vid ∈ vehicles_of k (od_vehicles sample_counters) →
       ∃ t, (vid, t) ∈ sample_data ∧ track_od_key t = Some k ∧
            (movement_of (lane_map_of through_meta) k = "Undefined" →
             ∃ v_start v_end,
               frame_span t = Some (v_start, v_end) ∧
               wrap64 (lo + 3) ≤ v_start ∧ v_end ≤ wrap64 (hi - 3) ∧
               (Forall int64_frames sample_data.*2 → v_start ≤ v_end →
                lo + 3 ≤ v_start ∧ v_end ≤ hi - 3))).
Proof.
  exact (listed_vehicles_are_counted_once sample_data through_meta sample_counters
           sample_data_distinct eq_refl).
Defined.

(** The counters of the three vehicles: one "NB_Through", one "Undefined",
    one boundary-filtered. *)
Example sample_counters_value :
  movement_counts sample_counters = {[ "NB_Through" := 1%nat; "Undefined" := 1%nat ]} ∧
  od_vehicles sample_counters = {[ "3-7" := [IdInt 1]; "3-9" := [IdInt 3] ]} ∧
  valid_movement_vehicles sample_counters = 1%nat ∧
  undefined_filtered_count sample_counters = 1%nat.
Proof. repeat split; vm_compute; reflexivity. Qed.

End Accounting.

(** ** The printed report ([analysis_movement_data], source lines 294-307) *)

Module Report.
Import Classifier Accounting.

(** A counter dictionary with its insertion order: the items in the order
    in which their keys were first counted. *)
Fixpoint incr_item (k : string) (items : list (string * nat))
    : list (string * nat) :=
  match items with
  | [] => [(k, 1%nat)]
  | (k', n) :: items' =>
      if decide (k' = k) then (k', (n + 1)%nat) :: items'
      else (k', n) :: incr_item k items'
  end.

(** [sorted(items, key=lambda x: x[1], reverse=True)]: a stable sort by
    decreasing count; items with equal counts keep their order. *)
Fixpoint insert_desc (x : string * nat) (l : list (string * nat))
    : list (string * nat) :=
  match l with
  | [] => [x]
  | y :: l' =>
      if (x.2 <? y.2)%nat then y :: insert_desc x l' else x :: l
  end.

Definition sorted_desc (l : list (string * nat)) : list (string * nat) :=
  foldr insert_desc [] l.

(** A line of the OD statistics: the key, the label the map gives it, the
    count, and the vehicle list, printed for "Undefined" only. *)
Record od_line : Type := mkLine {
  od : string;
  mapped_name : string;
  od_count : nat;
  vehicle_ids : option (list ident)
}.

Record report : Type := mkReport {
  total_vehicles : nat;
  identified_movements : nat;
  filtered_undefined : nat;
  movement_lines : list (string * nat);
  od_lines : list od_line
}.

Section Printing.
Variables (lo hi : Z) (lane_map : gmap string string).

(** [movement_counts.items()] and [od_counts.items()] after pass 2. *)
Definition movement_items (data : list (ident * Track)) : list (string * nat) :=
  foldl (λ items item,
           match verdict_on lo hi lane_map item with
           | Count movement_name _ => incr_item movement_name items
           | _ => items
           end) [] data.

Definition od_items (data : list (ident * Track)) : list (string * nat) :=
  foldl (λ items item,
           match verdict_on lo hi lane_map item with
           | Count _ od_key => incr_item od_key items
           | _ => items
           end) [] data.

(** Source lines 303-307, one iteration. *)
Definition od_line_of (st : counters) (item : string * nat) : od_line :=
  let mapped_name := default "Undefined" (lane_map !! item.1) in
  {| od := item.1;
     mapped_name := mapped_name;
     od_count := item.2;
     vehicle_ids :=
       if decide (mapped_name = "Undefined")
       then Some (default [] (od_vehicles st !! item.1)) else None |}.

Definition report_of (data : list (ident * Track)) : report :=
  let st := pass2 lo hi lane_map init data in
  {| total_vehicles := length data;
     identified_movements := valid_movement_vehicles st;
     filtered_undefined := undefined_filtered_count st;
     movement_lines := sorted_desc (movement_items data);
     od_lines := od_line_of st <$> take 10 (sorted_desc (od_items data)) |}.

End Printing.

(** What the function prints after pass 2; [None] on the early return,
    which prints no statistics. *)
Definition print_report (trajectory_data : list (ident * Track))
    (meta_data : Meta) : option report :=
  match global_range trajectory_data.*2 with
  | None => None
  | Some (global_min_frame, global_max_frame) =>
      Some (report_of global_min_frame global_max_frame
              (lane_map_of meta_data) trajectory_data)
  end.

(** *** The ordered dictionaries hold the counters *)

Lemma incr_item_map (k : string) (items : list (string * nat)) :
  (list_to_map (incr_item k items) : gmap string nat) =
  incr k (list_to_map items).
Proof.
  induction items as [|[k' n] items IH]; simpl.
  - unfold incr. rewrite lookup_empty. reflexivity.
  - destruct (decide (k' = k)) as [->|Hne]; simpl.
    + unfold incr. rewrite lookup_insert_eq, insert_insert_eq. reflexivity.
    + rewrite IH. unfold incr.
      rewrite lookup_insert_ne by exact Hne.
      apply insert_insert_ne. exact Hne.
Qed.

Lemma incr_item_keys (k : string) (items : list (string * nat)) (k' : string) :
  k' ∈ (incr_item k items).*1 ↔ k' = k ∨ k' ∈ items.*1.
Proof.
  induction items as [|[k0 n] items IH]; simpl.
  - rewrite list_elem_of_singleton. split; [auto|].
    intros [->|Hin]; [reflexivity|inversion Hin].
  - destruct (decide (k0 = k)) as [->|Hne]; simpl.
    + rewrite elem_of_cons. tauto.
    + rewrite !elem_of_cons, IH. tauto.
Qed.

Lemma incr_item_NoDup (k : string) (items : list (string * nat)) :
  NoDup items.*1 → NoDup (incr_item k items).*1.
Proof.
  induction items as [|[k0 n] items IH]; simpl; intros Hnd.
  - apply NoDup_singleton.
  - apply NoDup_cons in Hnd as [Hnot Hnd].
    destruct (decide (k0 = k)) as [->|Hne]; simpl.
    + apply NoDup_cons. auto.
    + apply NoDup_cons. split; [|auto].
      rewrite incr_item_keys. intros [->|Hin]; [congruence|contradiction].
Qed.

Lemma items_hold_the_counters lo hi lane_map (data : list (ident * Track)) :
  let st := pass2 lo hi lane_map init data in
  (list_to_map (movement_items lo hi lane_map data) = movement_counts st ∧
   NoDup (movement_items lo hi lane_map data).*1) ∧
  (list_to_map (od_items lo hi lane_map data) = od_counts st ∧
   NoDup (od_items lo hi lane_map data).*1).
Proof.
  cbv zeta. unfold movement_items, od_items, pass2.
  induction data as [|item data IH] using rev_ind.
  - simpl. repeat split; constructor.
  - rewrite !foldl_snoc, fold_left_app. simpl.
    destruct IH as [[Hm Hmd] [Ho Hod]].
    rewrite step_verdict_on.
    destruct (verdict_on lo hi lane_map item) as [| |name k]; simpl;
      [tauto..|].
    rewrite !incr_item_map, Hm, Ho.
    auto using incr_item_NoDup.
Qed.

(** *** Sorting *)

(** Counts do not increase along the list. *)
Fixpoint descending (l : list (string * nat)) : Prop :=
  match l with
  | [] => True
  | x :: l' => Forall (λ y, (y.2 ≤ x.2)%nat) l' ∧ descending l'
  end.

Lemma insert_desc_perm x l : insert_desc x l ≡ₚ x :: l.
Proof.
  induction l as [|y l IH]; simpl; [reflexivity|].
  destruct (x.2 <? y.2)%nat; [|reflexivity].
  rewrite IH. apply perm_swap.
Qed.

Lemma sorted_desc_perm l : sorted_desc l ≡ₚ l.
Proof.
  induction l as [|x l IH]; simpl; [reflexivity|].
  rewrite insert_desc_perm, IH. reflexivity.
Qed.

Lemma insert_desc_descending x l : descending l → descending (insert_desc x l).
Proof.
  induction l as [|y l IH]; simpl; [intros _; split; [constructor|exact I]|].
  intros [Hy Hl]. destruct (x.2 <? y.2)%nat eqn:Hlt; simpl.
  - apply Nat.ltb_lt in Hlt. split; [|auto].
    rewrite insert_desc_perm. constructor; [lia|exact Hy].
  - apply Nat.ltb_ge in Hlt. split; [|split; assumption].
    constructor; [exact Hlt|].
    eapply Forall_impl; [exact Hy|]. intros z Hz. simpl in Hz. lia.
Qed.

Lemma sorted_desc_descending l : descending (sorted_desc l).
Proof.
  induction l as [|x l IH]; simpl; [exact I|].
  apply insert_desc_descending, IH.
Qed.

Lemma insert_desc_stable (c : nat) x l :
  filter (λ y, y.2 = c) (insert_desc x l) = filter (λ y, y.2 = c) (x :: l).
Proof.
  induction l as [|y l IH]; simpl; [reflexivity|].
  destruct (x.2 <? y.2)%nat eqn:Hlt; [|reflexivity].
  apply Nat.ltb_lt in Hlt.
  rewrite (filter_cons _ y), IH, !filter_cons.
  repeat case_decide; try reflexivity; lia.
Qed.

Lemma sorted_desc_stable (c : nat) l :
  filter (λ y, y.2 = c) (sorted_desc l) = filter (λ y, y.2 = c) l.
Proof.
  induction l as [|x l IH]; simpl; [reflexivity|].
  rewrite insert_desc_stable, !filter_cons, IH. reflexivity.
Qed.

Lemma descending_take_drop (n : nat) l x y :
  descending l → x ∈ take n l → y ∈ drop n l → (y.2 ≤ x.2)%nat.
Proof.
  revert n. induction l as [|z l IH]; intros n Hd Hx Hy.
  - rewrite take_nil in Hx. inversion Hx.
  - destruct n as [|n]; [inversion Hx|]. simpl in *.
    destruct Hd as [Hz Hd].
    apply elem_of_cons in Hx as [->|Hx].
    + rewrite Forall_forall in Hz. apply Hz.
      apply (subseteq_drop n l), Hy.
    + eapply IH; eassumption.
Qed.

(** *** The insertion order *)

(** The keys in the order of their first occurrence. *)
Definition first_seen (keys : list string) : list string :=
  foldl (λ seen k, if decide (k ∈ seen) then seen else seen ++ [k]) [] keys.

Lemma incr_item_order (k : string) (items : list (string * nat)) :
  (incr_item k items).*1 =
  if decide (k ∈ items.*1) then items.*1 else items.*1 ++ [k].
Proof.
  induction items as [|[k0 n] items IH].
  - destruct (decide (k ∈ ([] : list (string * nat)).*1)) as [Hin|_];
      [inversion Hin|reflexivity].
  - cbn [incr_item]. destruct (decide (k0 = k)) as [->|Hne].
    + destruct (decide (k ∈ ((k, n) :: items).*1)) as [_|Hnot];
        [reflexivity|]. exfalso. apply Hnot. left.
    + rewrite fmap_cons, IH. cbn [fst].
      destruct (decide (k ∈ items.*1)) as [Hin|Hnot];
        destruct (decide (k ∈ ((k0, n) :: items).*1)) as [Hin'|Hnot'];
        try reflexivity.
      * exfalso. apply Hnot'. right. exact Hin.
      * exfalso. simpl in Hin'.
        apply elem_of_cons in Hin' as [->|Hin']; [congruence|contradiction].
Qed.

Lemma movement_items_order lo hi lane_map (data : list (ident * Track)) :
  (movement_items lo hi lane_map data).*1 =
  first_seen (omap (λ item, label_of (verdict_on lo hi lane_map item)) data).
Proof.
  unfold movement_items, first_seen.
  induction data as [|item data IH] using rev_ind; [reflexivity|].
  rewrite foldl_snoc, omap_app. simpl.
  destruct (verdict_on lo hi lane_map item) as [| |name k]; simpl;
    rewrite ?(right_id_L [] (++)); [exact IH..|].
  rewrite foldl_snoc, incr_item_order, IH. reflexivity.
Qed.

Lemma od_items_order lo hi lane_map (data : list (ident * Track)) :
  (od_items lo hi lane_map data).*1 =
  first_seen (omap (λ item, key_of (verdict_on lo hi lane_map item)) data).
Proof.
  unfold od_items, first_seen.
  induction data as [|item data IH] using rev_ind; [reflexivity|].
  rewrite foldl_snoc, omap_app. simpl.
  destruct (verdict_on lo hi lane_map item) as [| |name k]; simpl;
    rewrite ?(right_id_L [] (++)); [exact IH..|].
  rewrite foldl_snoc, incr_item_order, IH. reflexivity.
Qed.

Lemma print_report_Some data meta r :
  print_report data meta = Some r →
  ∃ lo hi, global_range data.*2 = Some (lo, hi) ∧
           run data meta = Some (pass2 lo hi (lane_map_of meta) init data) ∧
           r = report_of lo hi (lane_map_of meta) data.
Proof.
  unfold print_report, run.
  destruct (global_range data.*2) as [[lo hi]|]; [|discriminate].
  intros [= <-]. eauto.
Qed.

(** X9.  The movement statistics list every label of the returned
    dictionary once, with its count, by decreasing count; labels with equal
    counts come in the order in which they were first counted.  The three
    totals printed above them are the number of tracks, the number counted
    under a label other than "Undefined" and the number boundary-filtered,
    and the last two together never exceed the first. *)
Theorem movement_statistics_sorted_by_count
    (data : list (ident * Track)) (meta : Meta) (r : report) :
  print_report data meta = Some r →
  ∃ lo hi,
    global_range data.*2 = Some (lo, hi) ∧
    movement_lines r ≡ₚ map_to_list (analysis_movement_data data meta) ∧
    descending (movement_lines r) ∧
    (∀ c, filter (λ line, line.2 = c) (movement_lines r) =
          filter (λ line, line.2 = c) (movement_items lo hi (lane_map_of meta) data)) ∧
    (movement_items lo hi (lane_map_of meta) data).*1 =
      first_seen (omap (λ item, label_of (verdict_on lo hi (lane_map_of meta) item))
                       data) ∧
    total_vehicles r = length data ∧
    (identified_movements r + filtered_undefined r ≤ total_vehicles r)%nat.
Proof.
  intros Hr. destruct (print_report_Some _ _ _ Hr) as (lo & hi & Hrange & Hrun & ->).
  exists lo, hi. split; [exact Hrange|].
  destruct (items_hold_the_counters lo hi (lane_map_of meta) data)
    as [[Hm Hnd] _].
  unfold analysis_movement_data. rewrite Hrun. simpl.
  split; [|split; [|split; [|split; [|split]]]].
  - rewrite sorted_desc_perm, <- Hm. symmetry. apply map_to_list_to_map, Hnd.
  - apply sorted_desc_descending.
  - intros c. apply sorted_desc_stable.
  - apply movement_items_order.
  - reflexivity.
  - destruct (pass2_closed_form lo hi (lane_map_of meta) data init)
      as (_ & _ & _ & -> & ->). simpl.
    pose proof (counted_split lo hi (lane_map_of meta) data).
    pose proof (counted_and_filtered lo hi (lane_map_of meta) data). lia.
Qed.

(** X10.  The OD statistics show the ten most frequent OD keys (all of
    them when there are fewer), each once, by decreasing count: no key
    left out has a larger count than a key shown.  A line carries the
    count of its key and the label the movement map gives the key,
    "Undefined" when it gives none; the vehicle list is printed exactly
    for the lines labelled "Undefined", and it has as many identifiers as
    the count on the line. *)
Theorem od_statistics_show_the_ten_largest
    (data : list (ident * Track)) (meta : Meta) (r : report) :
  print_report data meta = Some r →
  ∃ st,
    run data meta = Some st ∧
    length (od_lines r) = (10 `min` size (od_counts st))%nat ∧
    NoDup (od <$> od_lines r) ∧
    (∀ line, line ∈ od_lines r →
       od_counts st !! od line = Some (od_count line) ∧
       mapped_name line = movement_of (lane_map_of meta) (od line) ∧
       (vehicle_ids line =
          if decide (mapped_name line = "Undefined")
          then Some (vehicles_of (od line) (od_vehicles st)) else None) ∧
       length (vehicles_of (od line) (od_vehicles st)) = od_count line ∧
       ∀ k n, od_counts st !! k = Some n → k ∉ (od <$> od_lines r) →
              (n ≤ od_count line)%nat).
Proof.
  intros Hr. destruct (print_report_Some _ _ _ Hr) as (lo & hi & Hrange & Hrun & ->).
  eexists. split; [exact Hrun|].
  set (st := pass2 lo hi (lane_map_of meta) init data).
  set (items := od_items lo hi (lane_map_of meta) data).
  destruct (items_hold_the_counters lo hi (lane_map_of meta) data)
    as [_ [Ho Hnd]]. fold st items in Ho, Hnd.
  assert (Hperm : sorted_desc items ≡ₚ items) by apply sorted_desc_perm.
  assert (Hnd' : NoDup (sorted_desc items).*1) by (rewrite Hperm; exact Hnd).
  assert (Hod : od <$> od_lines (report_of lo hi (lane_map_of meta) data)
                = (take 10 (sorted_desc items)).*1).
  { unfold report_of. cbn [od_lines]. fold items.
    rewrite <- list_fmap_compose. reflexivity. }
  split; [|split].
  - unfold report_of. cbn [od_lines]. fold items.
    rewrite length_fmap, length_take, <- Ho, map_size_list_to_map by exact Hnd.
    rewrite Hperm. reflexivity.
  - rewrite Hod, fmap_take. apply (sublist_NoDup _ (sorted_desc items).*1); [exact Hnd'|apply sublist_take].
  - intros line Hline. unfold report_of in Hline. cbn [od_lines] in Hline.
    fold items st in Hline.
    apply list_elem_of_fmap in Hline as ([k n] & -> & Hin).
    unfold od_line_of. cbn [od mapped_name od_count vehicle_ids fst snd].
    assert (Hitem : od_counts st !! k = Some n).
    { rewrite <- Ho. apply elem_of_list_to_map; [exact Hnd|].
      rewrite <- Hperm. eapply subseteq_take, Hin. }
    split; [exact Hitem|]. split.
    { unfold movement_of. destruct (lane_map_of meta !! k); reflexivity. }
    split; [reflexivity|]. split.
    { destruct (pass2_closed_form lo hi (lane_map_of meta) data init)
        as (_ & Hc & Hv & _). fold st in Hc, Hv.
      rewrite Hv. specialize (Hc k). unfold count_of in Hc. rewrite Hitem in Hc.
      unfold vehicles_of, init. simpl. rewrite !lookup_empty. simpl.
      rewrite length_fmap. simpl in Hc. unfold init in Hc. simpl in Hc.
      rewrite lookup_empty in Hc. simpl in Hc. lia. }
    intros k' n' Hk' Hnot.
    assert (Hin' : (k', n') ∈ sorted_desc items).
    { rewrite Hperm. apply elem_of_list_to_map; [exact Hnd|]. rewrite Ho. exact Hk'. }
    rewrite <- (take_drop 10 (sorted_desc items)) in Hin'.
    apply elem_of_app in Hin' as [Htake|Hdrop].
    + exfalso. apply Hnot. rewrite Hod.
      apply list_elem_of_fmap. exists (k', n'). auto.
    + apply (descending_take_drop 10 (sorted_desc items) (k, n) (k', n'));
        [apply sorted_desc_descending|exact Hin|exact Hdrop].
Qed.

(** *** The report of the three sample vehicles *)

Lemma movement_statistics_witness :
  ∃ lo hi,
    global_range sample_data.*2 = Some (lo, hi) ∧
    movement_lines (report_of 0 100 (lane_map_of through_meta) sample_data)
      ≡ₚ map_to_list (analysis_movement_data sample_data through_meta) ∧
    descending (movement_lines (report_of 0 100 (lane_map_of through_meta) sample_data)) ∧
    (∀ c, filter (λ line, line.2 = c)
            (movement_lines (report_of 0 100 (lane_map_of through_meta) sample_data)) =
          filter (λ line, line.2 = c)
            (movement_items lo hi (lane_map_of through_meta) sample_data)) ∧
    (movement_items lo hi (lane_map_of through_meta) sample_data).*1 =
      first_seen (omap (λ item, label_of (verdict_on lo hi (lane_map_of through_meta) item))
                       sample_data) ∧
    total_vehicles (report_of 0 100 (lane_map_of through_meta) sample_data)
      = length sample_data ∧
    (identified_movements (report_of 0 100 (lane_map_of through_meta) sample_data) +
     filtered_undefined (report_of 0 100 (lane_map_of through_meta) sample_data)
     ≤ total_vehicles (report_of 0 100 (lane_map_of through_meta) sample_data))%nat.
Proof.
  exact (movement_statistics_sorted_by_count sample_data through_meta
           (report_of 0 100 (lane_map_of through_meta) sample_data) eq_refl).
Defined.

Lemma od_statistics_witness :
  let r := report_of 0 100 (lane_map_of through_meta) sample_data in
  ∃ st,
    run sample_data through_meta = Some st ∧
    length (od_lines r) = (10 `min` size (od_counts st))%nat ∧
    NoDup (od <$> od_lines r) ∧
    (∀ line, line ∈ od_lines r →
       od_counts st !! od line = Some (od_count line) ∧
       mapped_name line = movement_of (lane_map_of through_meta) (od line) ∧
       (vehicle_ids line =
          if decide (mapped_name line = "Undefined")
          then Some (vehicles_of (od line) (od_vehicles st)) else None) ∧
       length (vehicles_of (od line) (od_vehicles st)) = od_count line ∧
       ∀ k n, od_counts st !! k = Some n → k ∉ (od <$> od_lines r) →
              (n ≤ od_count line)%nat).
Proof.
  exact (od_statistics_show_the_ten_largest sample_data through_meta
           (report_of 0 100 (lane_map_of through_meta) sample_data) eq_refl).
Defined.

(** The report of the three vehicles: one "NB_Through", one "Undefined"
    whose vehicle is listed, one boundary-filtered. *)
Example sample_report :
  print_report sample_data through_meta =
  Some {| total_vehicles := 3;
          identified_movements := 1;
          filtered_undefined := 1;
          movement_lines := [("NB_Through", 1%nat); ("Undefined", 1%nat)];
          od_lines := [ mkLine "3-7" "NB_Through" 1 None;
                        mkLine "3-9" "Undefined" 1 (Some [IdInt 3]) ] |}.
Proof. vm_compute. reflexivity. Qed.

End Report.

(** ** The reader as a whole *)

Module Records.
Import Reader.

Section Reading.

Variable float_of_literal : pystr → float.
Context {key : Type} `{Countable key}.
Variable hash_of : pyval → option key.

(** The keys of the records that carry an identifier, in row order. *)
Definition row_keys (records : list (gmap string pyval)) : list key :=
  omap (row_key hash_of) records.

Lemma entry_after_cons k r records cur :
  entry_after hash_of k (r :: records) cur =
  entry_after hash_of k records
    (if decide (row_key hash_of r = Some k)
     then Some (delete "vehicle_id" r) else cur).
Proof. reflexivity. Qed.

Lemma entry_after_is_Some k (records : list (gmap string pyval)) :
  ∀ cur, is_Some (entry_after hash_of k records cur) ↔
         is_Some cur ∨ k ∈ row_keys records.
Proof.
  induction records as [|r records IH]; intros cur.
  - simpl. split; [auto|]. intros [Hc|Hin]; [exact Hc|inversion Hin].
  - rewrite entry_after_cons, IH. unfold row_keys. simpl.
    destruct (row_key hash_of r) as [k'|] eqn:Hk.
    + destruct (decide (Some k' = Some k)) as [[= ->]|Hne].
      * split; [intros _; right; left | intros _; left; eauto].
      * rewrite elem_of_cons. split; [tauto|].
        intros [Hc|[->|Hin]]; [tauto|congruence|tauto].
    + destruct (decide (None = Some k)); [discriminate|]. reflexivity.
Qed.

Lemma entry_after_absent k (records : list (gmap string pyval)) :
  k ∉ row_keys records →
  ∀ cur, entry_after hash_of k records cur = cur.
Proof.
  induction records as [|r records IH]; intros Hk cur; [reflexivity|].
  rewrite entry_after_cons. unfold row_keys in *. simpl in Hk.
  destruct (row_key hash_of r) as [k'|] eqn:Hr.
  - apply not_elem_of_cons in Hk as [Hne Hk].
    destruct (decide (Some k' = Some k)) as [[= ->]|_]; [congruence|].
    apply IH, Hk.
  - destruct (decide (None = Some k)); [discriminate|]. apply IH, Hk.
Qed.

Lemma entry_after_unique k r (records : list (gmap string pyval)) :
  NoDup (row_keys records) → r ∈ records → row_key hash_of r = Some k →
  ∀ cur, entry_after hash_of k records cur = Some (delete "vehicle_id" r).
Proof.
  induction records as [|r0 records IH]; intros Hnd Hin Hk cur;
    [inversion Hin|].
  rewrite entry_after_cons. unfold row_keys in *. simpl in Hnd.
  apply elem_of_cons in Hin as [<-|Hin].
  - rewrite Hk in *. apply NoDup_cons in Hnd as [Hnot _].
    destruct (decide (Some k = Some k)); [|congruence].
    apply entry_after_absent, Hnot.
  - apply IH; [|exact Hin|exact Hk].
    destruct (row_key hash_of r0); [apply NoDup_cons in Hnd as [_ Hnd]|]; exact Hnd.
Qed.

Lemma size_list_to_set_le (l : list key) :
  (size (list_to_set l : gset key) ≤ length l)%nat.
Proof.
  induction l as [|k l IH].
  - rewrite list_to_set_nil, size_empty. reflexivity.
  - rewrite list_to_set_cons. simpl. destruct (decide (k ∈ (list_to_set l : gset key))) as [Hin|Hnot].
    + assert (E : ({[k]} ∪ list_to_set l : gset key) = list_to_set l).
      { apply subseteq_union_1_L, singleton_subseteq_l, Hin. }
      rewrite E. lia.
    + rewrite size_union by (apply disjoint_singleton_l, Hnot).
      rewrite size_singleton. lia.
Qed.

Lemma length_row_keys (records : list (gmap string pyval)) :
  (length (row_keys records) ≤ length records)%nat.
Proof.
  unfold row_keys. induction records as [|r records IH]; [reflexivity|].
  cbn [omap list_omap]. destruct (row_key hash_of r); cbn [length]; lia.
Qed.

Lemma reconstruct_raises (records : list (gmap string pyval)) :
  ∀ acc e,
  reconstruct hash_of records acc = Raise e ↔
  e = TypeError ∧
  ∃ r v, r ∈ records ∧ r !! "vehicle_id" = Some v ∧ hash_of v = None.
Proof.
  induction records as [|r records IH]; intros acc e; simpl.
  - split; [discriminate|]. intros (_ & r & v & Hin & _). inversion Hin.
  - destruct (r !! "vehicle_id") as [vid|] eqn:Hvid.
    + destruct (hash_of vid) as [k|] eqn:Hk.
      * rewrite IH. split; intros (-> & r' & v & Hin & Hv & Hh);
          (split; [reflexivity|]).
        -- exists r', v. split; [right; exact Hin|auto].
        -- apply elem_of_cons in Hin as [->|Hin]; [congruence|]. eauto.
      * split.
        -- intros [= <-]. split; [reflexivity|]. exists r, vid. split; [left|auto].
        -- intros [-> _]. reflexivity.
    + rewrite IH. split; intros (-> & r' & v & Hin & Hv & Hh);
        (split; [reflexivity|]).
      * exists r', v. split; [right; exact Hin|auto].
      * apply elem_of_cons in Hin as [->|Hin]; [congruence|]. eauto.
Qed.

Lemma reconstruct_keys (records : list (gmap string pyval)) :
  (∀ r v, r ∈ records → r !! "vehicle_id" = Some v → is_Some (hash_of v)) →
  ∃ tracks,
    reconstruct hash_of records ∅ = Ok tracks ∧
    (∀ k, tracks !! k = entry_after hash_of k records None) ∧
    (∀ k, is_Some (tracks !! k) ↔ k ∈ row_keys records) ∧
    dom tracks = list_to_set (row_keys records).
Proof.
  intros Hhash.
  destruct (reconstruct_entries hash_of records Hhash ∅) as (tracks & Hrun & Hent).
  exists tracks. split; [exact Hrun|].
  assert (Hkeys : ∀ k, is_Some (tracks !! k) ↔ k ∈ row_keys records).
  { intros k. rewrite Hent, entry_after_is_Some, lookup_empty.
    split; [intros [[? [=]]|Hin]; exact Hin | auto]. }
  split; [intros k; rewrite Hent, lookup_empty; reflexivity|].
  split; [exact Hkeys|].
  apply set_eq. intros k. rewrite elem_of_dom, elem_of_list_to_set. apply Hkeys.
Qed.

(** X11.  The conversion loop fails in one way only: it raises, with
    TypeError, exactly when the identifier cell of some record is
    unhashable; a record without the identifier column never makes it
    raise. *)
Theorem reconstruct_raises_iff_unhashable_identifier
    (records : list (gmap string pyval)) (e : exn) :
  reconstruct hash_of records ∅ = Raise e ↔
  e = TypeError ∧
  ∃ r v, r ∈ records ∧ r !! "vehicle_id" = Some v ∧ hash_of v = None.
Proof. apply reconstruct_raises. Qed.

(** X12.  The keys of the restored mapping are the identifiers of the
    records that carry one, so there are at most as many tracks as rows:
    records without the identifier column and records that repeat an
    identifier add no track. *)
Theorem restored_keys_are_the_identifiers
    (records : list (gmap string pyval)) :
  (∀ r v, r ∈ records → r !! "vehicle_id" = Some v → is_Some (hash_of v)) →
  ∃ tracks,
    reconstruct hash_of records ∅ = Ok tracks ∧
    (∀ k, is_Some (tracks !! k) ↔ k ∈ row_keys records) ∧
    (size tracks ≤ length records)%nat.
Proof.
  intros Hhash.
  destruct (reconstruct_keys records Hhash) as (tracks & Hrun & _ & Hkeys & Hdom).
  exists tracks. split; [exact Hrun|]. split; [exact Hkeys|].
  rewrite <- size_dom, Hdom.
  etransitivity; [apply size_list_to_set_le | apply length_row_keys].
Qed.

(** X13.  Under the assumption the source states (every record has an
    identifier, and the identifiers are distinct) no row is lost: the
    restored mapping has one track per row, and the track of a row holds
    the row without its identifier column. *)
Theorem distinct_identifiers_give_one_track_per_row
    (records : list (gmap string pyval)) :
  (∀ r, r ∈ records → ∃ v, r !! "vehicle_id" = Some v ∧ is_Some (hash_of v)) →
  NoDup (row_keys records) →
  ∃ tracks,
    reconstruct hash_of records ∅ = Ok tracks ∧
    size tracks = length records ∧
    ∀ r, r ∈ records →
      ∃ k, row_key hash_of r = Some k ∧
           tracks !! k = Some (delete "vehicle_id" r).
Proof.
  intros Hid Hnd.
  assert (Hhash : ∀ r v, r ∈ records → r !! "vehicle_id" = Some v →
                         is_Some (hash_of v)).
  { intros r v Hin Hv. destruct (Hid r Hin) as (v' & Hv' & Hh). congruence. }
  assert (Hrow : ∀ r, r ∈ records → is_Some (row_key hash_of r)).
  { intros r Hin. destruct (Hid r Hin) as (v & Hv & Hh). unfold row_key.
    rewrite Hv. exact Hh. }
  destruct (reconstruct_keys records Hhash) as (tracks & Hrun & Hent & _ & Hdom).
  exists tracks. split; [exact Hrun|]. split.
  - rewrite <- size_dom, Hdom, size_list_to_set by exact Hnd.
    unfold row_keys. clear -Hrow.
    induction records as [|r records IH]; [reflexivity|]. simpl.
    destruct (Hrow r) as [k ->]; [left|]. simpl. f_equal. apply IH.
    intros r' Hin. apply Hrow. right. exact Hin.
  - intros r Hin. destruct (Hrow r Hin) as [k Hk]. exists k.
    split; [exact Hk|]. rewrite Hent.
    apply (entry_after_unique k r records Hnd Hin Hk).
Qed.




End Reading.

(** *** The theorems at concrete inputs *)

(** A row of vehicle 8. *)
Definition other_row : gmap string pyval :=
  {[ "vehicle_id" := PInt 8;
     "pixel_corners" := PArr [corner; corner; corner; corner; corner];
     "frame_index" := PArr [PInt 4; PInt 5] ]}.

Lemma two_rows_with_identifiers :
  ∀ r, r ∈ [sample_row; other_row] →
    ∃ v, r !! "vehicle_id" = Some v ∧ is_Some (scalar_key v).
Proof.
  intros r Hin.
  repeat (apply elem_of_cons in Hin as [->|Hin]);
    [eexists; split; [vm_compute; reflexivity | eexists; reflexivity] ..
    |inversion Hin].
Defined.

Lemma two_rows_distinct : NoDup (row_keys scalar_key [sample_row; other_row]).
Proof. apply (bool_decide_unpack _). vm_compute. exact I. Defined.

Lemma restored_keys_witness :
  ∃ tracks,
    reconstruct scalar_key [row_without_id; sample_row; later_row] ∅ = Ok tracks ∧
    (∀ k, is_Some (tracks !! k) ↔
          k ∈ row_keys scalar_key [row_without_id; sample_row; later_row]) ∧
    (size tracks ≤ length [row_without_id; sample_row; later_row])%nat.
Proof.
  exact (restored_keys_are_the_identifiers scalar_key
           [row_without_id; sample_row; later_row] sample_rows_hashable).
Defined.

Lemma distinct_identifiers_witness :
  ∃ tracks,
    reconstruct scalar_key [sample_row; other_row] ∅ = Ok tracks ∧
    size tracks = length [sample_row; other_row] ∧
    ∀ r, r ∈ [sample_row; other_row] →
      ∃ k, row_key scalar_key r = Some k ∧
           tracks !! k = Some (delete "vehicle_id" r).
Proof.
  exact (distinct_identifiers_give_one_track_per_row scalar_key
           [sample_row; other_row] two_rows_with_identifiers two_rows_distinct).
Defined.

End Records.

(** ** The two codecs between the writer and the reader *)

Module Codec.

Section Utf8Inverse.
Import Utf8.
Open Scope N_scope.

Lemma bytes_of_list_of_bytes (b : string) : bytes_of_list (list_of_bytes b) = b.
Proof.
  unfold bytes_of_list, list_of_bytes.
  rewrite <- list_fmap_compose.
  rewrite <- (String.string_of_list_ascii_of_string b) at 2. f_equal.
  induction (String.list_ascii_of_string b) as [|a l IH]; [reflexivity|].
  simpl. unfold compose at 1. rewrite ascii_N_embedding. f_equal. exact IH.
Qed.

Lemma encode_list_cons c s bs rest :
  encode_cp c = Some bs → encode_list s = Some rest →
  encode_list (c :: s) = Some (bs ++ rest).
Proof. intros Hc Hs. simpl. rewrite Hc, Hs. reflexivity. Qed.

(** Strict decoding accepts only what the encoder produces. *)
Lemma encode_decode_list (n : nat) :
  ∀ l s, (length l ≤ n)%nat → decode_list l = Some s → encode_list s = Some l.
Proof.
  induction n as [|n IH]; intros l s Hlen Hdec.
  { destruct l; [|simpl in Hlen; lia]. injection Hdec as <-. reflexivity. }
  destruct l as [|b0 l1]; [injection Hdec as <-; reflexivity|].
  simpl in Hlen. cbn [decode_list] in Hdec.
  destruct (b0 <? 0x80) eqn:H1.
  { destruct (decode_list l1) as [s1|] eqn:Hs1; [|discriminate].
    injection Hdec as <-.
    apply (encode_list_cons b0 s1 [b0] l1).
    - unfold encode_cp. rewrite H1. reflexivity.
    - apply IH; [lia|exact Hs1]. }
  destruct (b0 <? 0xC2) eqn:H2; [discriminate|].
  destruct (b0 <? 0xE0) eqn:H3.
  { destruct l1 as [|b1 l2]; [discriminate|].
    destruct (is_cont b1) eqn:Hc1; [|discriminate].
    destruct (decode_list l2) as [s2|] eqn:Hs2; [|discriminate].
    injection Hdec as <-. unfold is_cont in Hc1. bool_to_prop.
    apply (encode_list_cons _ s2 [b0; b1] l2).
    - unfold encode_cp. rewrite ltb_false, ltb_true by lia.
      f_equal. f_equal; [|f_equal]; lia.
    - apply IH; [simpl in Hlen; lia|exact Hs2]. }
  destruct (b0 <? 0xF0) eqn:H4.
  { destruct l1 as [|b1 [|b2 l3]]; [discriminate ..|]. cbv zeta in Hdec.
    set (c := (b0 - 0xE0) * 4096 + (b1 - 0x80) * 64 + (b2 - 0x80)) in *.
    destruct (is_cont b1 && is_cont b2 && (0x800 <=? c) && negb (is_surrogate c))
      eqn:Hok; [|discriminate].
    destruct (decode_list l3) as [s3|] eqn:Hs3; [|discriminate].
    injection Hdec as <-.
    apply andb_true_iff in Hok as [Hok Hsur].
    apply negb_true_iff in Hsur.
    unfold is_cont in Hok. bool_to_prop.
    apply (encode_list_cons _ s3 [b0; b1; b2] l3).
    - unfold encode_cp. rewrite Hsur.
      rewrite (ltb_false c 0x80), (ltb_false c 0x800), (ltb_true c 0x10000)
        by (unfold c; lia).
      f_equal. unfold c. f_equal; [|f_equal; [|f_equal]]; lia.
    - apply IH; [simpl in Hlen; lia|exact Hs3]. }
  destruct (b0 <? 0xF5) eqn:H5; [|discriminate].
  destruct l1 as [|b1 [|b2 [|b3 l4]]]; [discriminate ..|]. cbv zeta in Hdec.
  set (c := (b0 - 0xF0) * 262144 + (b1 - 0x80) * 4096
            + (b2 - 0x80) * 64 + (b3 - 0x80)) in *.
  destruct (is_cont b1 && is_cont b2 && is_cont b3
            && (0x10000 <=? c) && (c <? 0x110000)) eqn:Hok; [|discriminate].
  destruct (decode_list l4) as [s4|] eqn:Hs4; [|discriminate].
  injection Hdec as <-. unfold is_cont in Hok. bool_to_prop.
  apply (encode_list_cons _ s4 [b0; b1; b2; b3] l4).
  - unfold encode_cp.
    rewrite (ltb_false c 0x80), (ltb_false c 0x800), (ltb_false c 0x10000),
      (ltb_true c 0x110000) by lia.
    f_equal. unfold c. f_equal; [|f_equal; [|f_equal; [|f_equal]]]; lia.
  - apply IH; [simpl in Hlen; lia|exact Hs4].
Qed.

(** X15.  The codec the writer and the reader share is a bijection
    between the strings without lone surrogates and the well-formed byte
    sequences: [bytes.decode('utf-8')] returns a string exactly on its
    encoding, and [str.encode('utf-8')] raises exactly on a string that
    holds a lone surrogate. *)
Theorem utf8_decode_inverts_encode (s : pystr) (b : string) :
  (encode s = Some b ↔ decode b = Some s) ∧
  (encode s = None ↔ ¬ encodable s).
Proof.
  split.
  - split; [apply decode_encode|].
    unfold decode, encode. intros Hdec.
    rewrite (encode_decode_list _ _ _ (Nat.le_refl _) Hdec). simpl.
    rewrite bytes_of_list_of_bytes. reflexivity.
  - rewrite eq_None_not_Some, encode_is_Some. reflexivity.
Qed.

End Utf8Inverse.

(** *** What [json.load] returns *)

(** The keys of every dict of the value are distinct. *)
Fixpoint distinct_keys (v : json) : Prop :=
  match v with
  | JList l => fold_right (λ v P, distinct_keys v ∧ P) True l
  | JDict d =>
      NoDup (d.*1) ∧ fold_right (λ kv P, distinct_keys (snd kv) ∧ P) True d
  | _ => True
  end.

Lemma distinct_keys_list l :
  distinct_keys (JList l) ↔ Forall distinct_keys l.
Proof.
  simpl. induction l as [|v l IH]; simpl.
  - split; [constructor|auto].
  - rewrite Forall_cons, IH. reflexivity.
Qed.

Lemma distinct_keys_dict d :
  distinct_keys (JDict d) ↔
  NoDup (d.*1) ∧ Forall (λ kv, distinct_keys (snd kv)) d.
Proof.
  simpl. apply and_iff_compat_l. induction d as [|kv d IH]; simpl.
  - split; [constructor|auto].
  - rewrite Forall_cons, IH. reflexivity.
Qed.

Lemma dict_set_keys k v (d : list (pystr * json)) k' :
  k' ∈ (Json.dict_set k v d).*1 → k' = k ∨ k' ∈ d.*1.
Proof.
  induction d as [|[k0 v0] d IH]; simpl; intros Hin.
  - apply list_elem_of_singleton in Hin. auto.
  - destruct (decide (k0 = k)) as [->|Hne]; simpl in Hin.
    + right. exact Hin.
    + apply elem_of_cons in Hin as [->|Hin]; [right; left|].
      destruct (IH Hin) as [->|Hd]; [auto|right; right; exact Hd].
Qed.

(** [d[k] = v] keeps the keys distinct. *)
Lemma dict_set_distinct k v (d : list (pystr * json)) :
  NoDup (d.*1) → Forall (λ kv, distinct_keys (snd kv)) d → distinct_keys v →
  NoDup ((Json.dict_set k v d).*1) ∧
  Forall (λ kv, distinct_keys (snd kv)) (Json.dict_set k v d).
Proof.
  intros Hnd Hall Hv.
  induction d as [|[k0 v0] d IH]; simpl.
  - split; [apply NoDup_singleton | repeat constructor; exact Hv].
  - simpl in Hnd. apply NoDup_cons in Hnd as [Hnot Hnd].
    apply Forall_cons in Hall as [Hv0 Hall].
    destruct (decide (k0 = k)) as [->|Hne]; simpl.
    + split; [apply NoDup_cons; auto | constructor; assumption].
    + destruct (IH Hnd Hall) as [IH1 IH2].
      split; [|constructor; assumption].
      apply NoDup_cons. split; [|exact IH1].
      intros Hin. destruct (dict_set_keys k v d _ Hin) as [->|Hd];
        [congruence|contradiction].
Qed.

Section Parsing.

Variable float_of_literal : pystr → float.

Lemma scan_atom_flat s v r :
  Json.scan_atom float_of_literal s = Some (v, r) → distinct_keys v.
Proof.
  unfold Json.scan_atom, Json.match_number.
  repeat case_match; intros; simplify_eq; exact I.
Qed.

Lemma scan_once_eq fuel c s1 :
  Json.scan_once float_of_literal (S fuel) (c :: s1) =
  if (c =? 34)%N then
    match Json.scanstring (S (length s1)) s1 with
    | Some (t, r) => Some (JStr t, r)
    | None => None
    end
  else if (c =? 123)%N then
    match Json.skip_ws s1 with
    | c' :: r =>
        if (c' =? 125)%N then Some (JDict [], r)
        else
          match Json.parse_members float_of_literal fuel (c' :: r) [] with
          | Some (d, r') => Some (JDict d, r')
          | None => None
          end
    | [] => None
    end
  else if (c =? 91)%N then
    match Json.skip_ws s1 with
    | c' :: r =>
        if (c' =? 93)%N then Some (JList [], r)
        else
          match Json.parse_items float_of_literal fuel (c' :: r) with
          | Some (l, r') => Some (JList l, r')
          | None => None
          end
    | [] => None
    end
  else Json.scan_atom float_of_literal (c :: s1).
Proof. reflexivity. Qed.

Lemma parse_members_step fuel q s1 acc :
  Json.parse_members float_of_literal (S fuel) (q :: s1) acc =
  if (q =? 34)%N then
    match Json.scanstring (S (length s1)) s1 with
    | None => None
    | Some (k, r) =>
        match Json.skip_ws r with
        | colon :: r1 =>
            if (colon =? 58)%N then
              match Json.scan_once float_of_literal fuel (Json.skip_ws r1) with
              | None => None
              | Some (v, r2) =>
                  let acc' := Json.dict_set k v acc in
                  match Json.skip_ws r2 with
                  | c :: r3 =>
                      if (c =? 125)%N then Some (acc', r3)
                      else if (c =? 44)%N then
                        Json.parse_members float_of_literal fuel
                          (Json.skip_ws r3) acc'
                      else None
                  | [] => None
                  end
              end
            else None
        | [] => None
        end
    end
  else None.
Proof. reflexivity. Qed.

Lemma parsed_distinct_keys (fuel : nat) :
  (∀ s v r, Json.scan_once float_of_literal fuel s = Some (v, r) →
            distinct_keys v) ∧
  (∀ s l r, Json.parse_items float_of_literal fuel s = Some (l, r) →
            Forall distinct_keys l) ∧
  (∀ s acc d r,
     Json.parse_members float_of_literal fuel s acc = Some (d, r) →
     NoDup (acc.*1) → Forall (λ kv, distinct_keys (snd kv)) acc →
     NoDup (d.*1) ∧ Forall (λ kv, distinct_keys (snd kv)) d).
Proof.
  induction fuel as [|fuel (IHv & IHl & IHd)].
  { repeat split; intros; discriminate. }
  split; [|split].
  - intros s v r. destruct s as [|c s1]; [discriminate|].
    rewrite scan_once_eq.
    destruct (c =? 34)%N.
    { destruct (Json.scanstring (S (length s1)) s1) as [[t r']|]; [|discriminate].
      intros [= <- <-]. exact I. }
    destruct (c =? 123)%N.
    { destruct (Json.skip_ws s1) as [|c' r']; [discriminate|].
      destruct (c' =? 125)%N.
      - intros [= <- <-]. apply distinct_keys_dict. split; constructor.
      - destruct (Json.parse_members float_of_literal fuel (c' :: r') [])
          as [[d r'']|] eqn:Hd; [|discriminate].
        intros [= <- <-]. apply distinct_keys_dict.
        eapply IHd; [exact Hd|constructor|constructor]. }
    destruct (c =? 91)%N.
    { destruct (Json.skip_ws s1) as [|c' r']; [discriminate|].
      destruct (c' =? 93)%N.
      - intros [= <- <-]. apply distinct_keys_list. constructor.
      - destruct (Json.parse_items float_of_literal fuel (c' :: r'))
          as [[l r'']|] eqn:Hl; [|discriminate].
        intros [= <- <-]. apply distinct_keys_list. eapply IHl, Hl. }
    apply scan_atom_flat.
  - intros s l r. rewrite Json.parse_items_eq.
    destruct (Json.scan_once float_of_literal fuel s) as [[v r0]|] eqn:Hv;
      [|discriminate].
    destruct (Json.skip_ws r0) as [|c r1]; [discriminate|].
    destruct (c =? 93)%N.
    { intros [= <- <-]. repeat constructor. eapply IHv, Hv. }
    destruct (c =? 44)%N; [|discriminate].
    destruct (Json.parse_items float_of_literal fuel (Json.skip_ws r1))
      as [[l' r2]|] eqn:Hl; [|discriminate].
    intros [= <- <-]. constructor; [eapply IHv, Hv | eapply IHl, Hl].
  - intros s acc d r. destruct s as [|q s1]; [discriminate|].
    rewrite parse_members_step.
    destruct (q =? 34)%N; [|discriminate].
    destruct (Json.scanstring (S (length s1)) s1) as [[k r0]|]; [|discriminate].
    destruct (Json.skip_ws r0) as [|colon r1]; [discriminate|].
    destruct (colon =? 58)%N; [|discriminate].
    destruct (Json.scan_once float_of_literal fuel (Json.skip_ws r1))
      as [[v r2]|] eqn:Hv; [|discriminate].
    cbv zeta. intros Hrun Hnd Hall.
    destruct (dict_set_distinct k v acc Hnd Hall (IHv _ _ _ Hv)) as [Hnd' Hall'].
    destruct (Json.skip_ws r2) as [|c r3]; [discriminate|].
    destruct (c =? 125)%N; [injection Hrun as <- <-; auto|].
    destruct (c =? 44)%N; [|discriminate].
    eapply IHd; eassumption.
Qed.

Lemma loads_distinct_keys (s : pystr) (v : json) :
  Json.loads float_of_literal s = Some v → distinct_keys v.
Proof.
  unfold Json.loads.
  destruct (Json.scan_once float_of_literal (S (length s)) (Json.skip_ws s))
    as [[v' r]|] eqn:Hv; [|discriminate].
  destruct (Json.skip_ws r); [|discriminate].
  intros [= <-]. eapply (parsed_distinct_keys (S (length s))), Hv.
Qed.

(** X16.  Whatever [json.load] returns has distinct keys in every object,
    at every depth: a key repeated in the text is stored once. *)
Theorem loaded_values_have_distinct_keys (s : pystr) (v : json) :
  Json.loads float_of_literal s = Some v → distinct_keys v.
Proof. apply loads_distinct_keys. Qed.

End Parsing.

(** The text [{"a":1,"a":2}]. *)
Definition repeated_key_text : pystr :=
  [123; 34; 97; 34; 58; 49; 44; 34; 97; 34; 58; 50; 125]%N.

Lemma loaded_values_witness : distinct_keys (JDict [([97%N], JInt 2)]).
Proof.
  exact (loaded_values_have_distinct_keys Reader.float_of_literal_zero
           repeated_key_text (JDict [([97%N], JInt 2)]) eq_refl).
Defined.

(** *** Values that survive the round trip through text *)

Section RoundTrip.

Variable float_repr : float → pystr.
Variable float_of_literal : pystr → float.

(** Every float of the value is read back from its text. *)
Fixpoint floats_read_back (v : json) : Prop :=
  match v with
  | JFloat x => Json.float_round_trips float_repr float_of_literal x
  | JList l => fold_right (λ v P, floats_read_back v ∧ P) True l
  | JDict d => fold_right (λ kv P, floats_read_back (snd kv) ∧ P) True d
  | _ => True
  end.

Lemma floats_read_back_list l :
  floats_read_back (JList l) ↔ Forall floats_read_back l.
Proof.
  simpl. induction l as [|v l IH]; simpl.
  - split; [constructor|auto].
  - rewrite Forall_cons, IH. reflexivity.
Qed.

Lemma floats_read_back_dict d :
  floats_read_back (JDict d) ↔ Forall (λ kv, floats_read_back (snd kv)) d.
Proof.
  simpl. induction d as [|kv d IH]; simpl.
  - split; [constructor|auto].
  - rewrite Forall_cons, IH. reflexivity.
Qed.

Lemma well_formed_split v :
  distinct_keys v → floats_read_back v →
  Json.well_formed float_repr float_of_literal v.
Proof.
  induction v as [|b|z|x|s|l IH|d IH] using Json.json_nested_ind;
    intros Hk Hf; try exact I.
  - exact Hf.
  - apply Json.well_formed_list. apply distinct_keys_list in Hk.
    apply floats_read_back_list in Hf.
    induction IH as [|v l Hv _ IHl]; [constructor|].
    apply Forall_cons in Hk as [Hk1 Hk2]. apply Forall_cons in Hf as [Hf1 Hf2].
    constructor; auto.
  - apply Json.well_formed_dict. apply distinct_keys_dict in Hk as [Hnd Hk].
    apply floats_read_back_dict in Hf. split; [exact Hnd|]. clear Hnd.
    induction IH as [|kv d Hv _ IHd]; [constructor|].
    apply Forall_cons in Hk as [Hk1 Hk2]. apply Forall_cons in Hf as [Hf1 Hf2].
    constructor; auto.
Qed.

End RoundTrip.

(** *** Which values the writer can encode *)

Section Encodable.

Variable float_repr : float → pystr.

Lemma encodable_app_inv (s t : pystr) :
  Utf8.encodable (s ++ t) → Utf8.encodable s ∧ Utf8.encodable t.
Proof. unfold Utf8.encodable. apply Forall_app. Qed.

Lemma encodable_escape_char_inv c :
  Utf8.encodable (Json.escape_char c) →
  (c < 0x110000)%N ∧ Utf8.is_surrogate c = false.
Proof.
  unfold Json.escape_char.
  repeat match goal with
  | |- context [if ?b then _ else _] => destruct b eqn:?
  end; intros Henc;
    try (apply Forall_cons in Henc as [Hc _]; exact Hc);
    repeat match goal with
    | H : (_ =? _)%N = true |- _ => apply N.eqb_eq in H
    | H : (_ <? _)%N = true |- _ => apply N.ltb_lt in H
    end;
    (split; [lia | apply Utf8.is_surrogate_false; lia]).
Qed.

Lemma encodable_basestring_inv s :
  Utf8.encodable (Json.encode_basestring s) → Utf8.encodable s.
Proof.
  unfold Json.encode_basestring. intros Henc.
  apply (encodable_app_inv [34%N]) in Henc as [_ Henc].
  apply encodable_app_inv in Henc as [Henc _].
  induction s as [|c s IH]; [constructor|]. simpl in Henc.
  apply encodable_app_inv in Henc as [Hc Hs].
  constructor; [apply encodable_escape_char_inv, Hc | apply IH, Hs].
Qed.

Lemma encodable_join_inv sep items :
  Utf8.encodable (Json.join sep items) → Forall Utf8.encodable items.
Proof.
  induction items as [|x items IH]; [constructor|].
  destruct items as [|y items]; [intros Hx; repeat constructor; exact Hx|].
  change (Json.join sep (x :: y :: items))
    with (x ++ sep ++ Json.join sep (y :: items)).
  intros Henc. apply encodable_app_inv in Henc as [Hx Henc].
  apply encodable_app_inv in Henc as [_ Henc].
  constructor; [exact Hx | apply IH, Henc].
Qed.

Lemma strings_encodable_list l :
  Json.strings_encodable float_repr (JList l) ↔
  Forall (Json.strings_encodable float_repr) l.
Proof.
  simpl. induction l as [|v l IH]; simpl.
  - split; [constructor|auto].
  - rewrite Forall_cons, IH. reflexivity.
Qed.

Lemma strings_encodable_dict d :
  Json.strings_encodable float_repr (JDict d) ↔
  Forall (λ kv, Utf8.encodable (fst kv) ∧
                Json.strings_encodable float_repr (snd kv)) d.
Proof.
  simpl. induction d as [|kv d IH]; simpl.
  - split; [constructor|auto].
  - rewrite Forall_cons, IH. tauto.
Qed.

Lemma dumps_encodable_inv v :
  Utf8.encodable (Json.dumps float_repr v) → Json.strings_encodable float_repr v.
Proof.
  induction v as [|b|z|x|s|l IH|d IH] using Json.json_nested_ind; intros Henc;
    try exact I.
  - exact Henc.
  - apply encodable_basestring_inv, Henc.
  - apply strings_encodable_list.
    change (Json.dumps float_repr (JList l))
      with (91%N :: Json.join (lit ", ") (map (Json.dumps float_repr) l) ++ [93%N])
      in Henc.
    apply (encodable_app_inv [91%N]) in Henc as [_ Henc].
    apply encodable_app_inv in Henc as [Henc _].
    apply encodable_join_inv in Henc.
    induction IH as [|v l Hv _ IHl]; [constructor|].
    cbn [map] in Henc. apply Forall_cons in Henc as [H1 H2].
    constructor; [apply Hv, H1 | apply IHl, H2].
  - apply strings_encodable_dict.
    change (Json.dumps float_repr (JDict d))
      with (123%N :: Json.join (lit ", ")
              (map (λ kv, Json.encode_basestring (fst kv) ++ lit ": " ++
                          Json.dumps float_repr (snd kv)) d) ++ [125%N])
      in Henc.
    apply (encodable_app_inv [123%N]) in Henc as [_ Henc].
    apply encodable_app_inv in Henc as [Henc _].
    apply encodable_join_inv in Henc.
    induction IH as [|kv d Hv _ IHd]; [constructor|].
    cbn [map] in Henc. apply Forall_cons in Henc as [H1 H2].
    apply encodable_app_inv in H1 as [Hk H1].
    apply encodable_app_inv in H1 as [_ H1].
    constructor; [|apply IHd, H2].
    split; [apply encodable_basestring_inv, Hk | apply Hv, H1].
Qed.

End Encodable.

End Codec.

(** ** The update as a whole *)

Module Updates.
Import Reader MetaUpdate.

(** The table with [value] under [dataset_meta] in its header. *)
Definition with_dataset_meta (value : string) (table : Table) : Table :=
  {| metadata := Some (<["dataset_meta" := value]> (default ∅ (metadata table)));
     rows := rows table |}.

Lemma with_dataset_meta_twice (value1 value2 : string) (table : Table) :
  with_dataset_meta value2 (with_dataset_meta value1 table) =
  with_dataset_meta value2 table.
Proof.
  unfold with_dataset_meta. simpl. rewrite insert_insert_eq. reflexivity.
Qed.

Section InMemory.

Variable float_repr : float → pystr.

Lemma update_parquet_meta_unencodable (M : json) (table : Table) (h : heap) :
  Utf8.encode (Json.dumps float_repr M) = None →
  (update_parquet_meta float_repr M table h).1 = Raise UnicodeEncodeError.
Proof.
  intros Henc. unfold update_parquet_meta.
  destruct (schema_metadata table h) as [m h1].
  destruct (or_empty m h1) as [l h2].
  destruct (build_updated_meta_spec l (Json.dumps float_repr M) h2)
    as (l' & _ & ->).
  rewrite Henc. reflexivity.
Qed.

(** The outcome of the update depends on the text of the metadata only. *)
Lemma update_parquet_meta_outcome (M : json) (table : Table) (h : heap) :
  (update_parquet_meta float_repr M table h).1 =
  match Utf8.encode (Json.dumps float_repr M) with
  | Some value => Ok (with_dataset_meta value table)
  | None => Raise UnicodeEncodeError
  end.
Proof.
  destruct (Utf8.encode (Json.dumps float_repr M)) as [value|] eqn:Henc.
  - apply update_parquet_meta_encoded, Henc.
  - apply update_parquet_meta_unencodable, Henc.
Qed.

Lemma encode_dumps_is_Some (M : json) :
  is_Some (Utf8.encode (Json.dumps float_repr M)) ↔
  Json.strings_encodable float_repr M.
Proof.
  rewrite Utf8.encode_is_Some. split.
  - apply Codec.dumps_encodable_inv.
  - apply Json.dumps_encodable.
Qed.

(** X17.  The update of a table in memory fails in one way only: it
    returns a table exactly when no string of the new metadata (a key, a
    value, the text of a float) holds a lone surrogate, and otherwise it
    raises UnicodeEncodeError, whatever the table is. *)
Theorem update_raises_iff_lone_surrogate
    (M : json) (table : Table) (h : heap) :
  ((∃ table', (update_parquet_meta float_repr M table h).1 = Ok table') ↔
   Json.strings_encodable float_repr M) ∧
  (∀ e, (update_parquet_meta float_repr M table h).1 = Raise e ↔
        e = UnicodeEncodeError ∧ ¬ Json.strings_encodable float_repr M).
Proof.
  rewrite update_parquet_meta_outcome.
  pose proof (encode_dumps_is_Some M) as Henc.
  destruct (Utf8.encode (Json.dumps float_repr M)) as [value|]; split.
  - split; [intros _; apply Henc|]; eexists; reflexivity.
  - intros e. split; [discriminate|]. intros [_ Hn]. exfalso. apply Hn, Henc.
    eexists; reflexivity.
  - split; [intros [t' [=]] | intros Hs; apply Henc in Hs as [v [=]]].
  - intros e. split.
    + intros [= <-]. split; [reflexivity|]. intros Hs. apply Henc in Hs as [v [=]].
    + intros [-> _]. reflexivity.
Qed.

(** X18.  The last update wins, and repeating an update changes nothing:
    on the table an update returned, any further update gives what it
    gives on the original table, and the same update gives that table
    back. *)
Theorem last_update_wins
    (M1 : json) (table table1 : Table) (h : heap) :
  (update_parquet_meta float_repr M1 table h).1 = Ok table1 →
  (∀ M2 h1 h2, (update_parquet_meta float_repr M2 table1 h1).1 =
               (update_parquet_meta float_repr M2 table h2).1) ∧
  (∀ h1, (update_parquet_meta float_repr M1 table1 h1).1 = Ok table1).
Proof.
  rewrite update_parquet_meta_outcome.
  destruct (Utf8.encode (Json.dumps float_repr M1)) as [value1|] eqn:H1;
    [|discriminate].
  intros [= <-]. split.
  - intros M2 h1 h2. rewrite !update_parquet_meta_outcome.
    destruct (Utf8.encode (Json.dumps float_repr M2)) as [value2|];
      [|reflexivity].
    rewrite with_dataset_meta_twice. reflexivity.
  - intros h1. rewrite update_parquet_meta_outcome, H1, with_dataset_meta_twice.
    reflexivity.
Qed.

End InMemory.

Lemma last_update_wins_witness :
  ∃ table1,
    (update_parquet_meta sample_float_repr sample_meta
       {| metadata := Some old_header; rows := [sample_row] |} ∅).1 = Ok table1 ∧
    (∀ M2 h1 h2, (update_parquet_meta sample_float_repr M2 table1 h1).1 =
                 (update_parquet_meta sample_float_repr M2
                    {| metadata := Some old_header; rows := [sample_row] |} h2).1) ∧
    (∀ h1, (update_parquet_meta sample_float_repr sample_meta table1 h1).1 =
           Ok table1).
Proof.
  destruct (proj2 (encode_dumps_is_Some sample_float_repr sample_meta)
              sample_meta_encodable) as [value Hvalue].
  exists (with_dataset_meta value {| metadata := Some old_header; rows := [sample_row] |}).
  assert (Hrun : (update_parquet_meta sample_float_repr sample_meta
       {| metadata := Some old_header; rows := [sample_row] |} ∅).1 =
     Ok (with_dataset_meta value {| metadata := Some old_header; rows := [sample_row] |})).
  { rewrite update_parquet_meta_outcome, Hvalue. reflexivity. }
  split; [exact Hrun|].
  exact (last_update_wins sample_float_repr sample_meta _ _ ∅ Hrun).
Defined.

End Updates.

(** ** The update of a file ([update_parquet_meta], whole function) *)

Module Files.
Import Reader MetaUpdate.

(** The regular files, by path, with their contents. *)
Abbreviation files := (gmap string string).

(** What the file-level function can raise: its own FileNotFoundError,
    the exception of [pq.read_table] on a file that is not Parquet, an
    exception of the steps modelled above, or the exception of
    [pq.write_table]. *)
Inductive file_error : Type :=
| FileNotFoundError
| ArrowInvalid
| Raised (e : exn)
| WriteFailed.

Inductive outcome : Type :=
| Done
| Failed (e : file_error).

(** Text mode with [newline=None]: a carriage return, alone or before a
    line feed, is read as a line feed. *)
Fixpoint universal_newlines (s : pystr) : pystr :=
  match s with
  | [] => []
  | c :: s' =>
      if (c =? 13)%N then
        10%N :: match s' with
                | c' :: s'' =>
                    if (c' =? 10)%N then universal_newlines s''
                    else universal_newlines s'
                | [] => []
                end
      else c :: universal_newlines s'
  end.

(** The parsed command line of [main]. *)
Record Args : Type := mkArgs {
  args_parquet : string;
  args_json : string;
  args_output : option string;
  args_compression : string
}.

Section FileLevel.

Variable float_repr : float → pystr.
Variable float_of_literal : pystr → float.

(** pyarrow's Parquet codec, which is not modelled: [pq.read_table] yields
    a table on the bytes of a Parquet file ([None]: ArrowInvalid), and
    [pq.write_table] yields the bytes of a table under a compression
    ([None]: it raises, as it does on a compression it does not know).
    [pq.write_table] opens the path it writes before it encodes the table,
    and removes that path when it raises. *)
Variable read_table : string → option Table.
Variable write_table : Table → string → option string.

(** Source lines 40-41: [json.load] of the file opened as UTF-8 text. *)
Definition json_load (contents : string) : result json :=
  text ← or_raise UnicodeDecodeError (Utf8.decode contents);
  or_raise JSONDecodeError (Json.loads float_of_literal (universal_newlines text)).

(** [update_parquet_meta(parquet_path, json_path, output_path, compression)]:
    the outcome and the files afterwards. *)
Definition update_parquet_meta (parquet_path json_path : string)
    (output_path : option string) (compression : string)
    (fs : files) : outcome * files :=
  match fs !! parquet_path with
  | None => (Failed FileNotFoundError, fs)
  | Some parquet_bytes =>
      match fs !! json_path with
      | None => (Failed FileNotFoundError, fs)
      | Some json_bytes =>
          match json_load json_bytes with
          | Raise e => (Failed (Raised e), fs)
          | Ok new_meta_dict =>
              match read_table parquet_bytes with
              | None => (Failed ArrowInvalid, fs)
              | Some table =>
                  match (MetaUpdate.update_parquet_meta
                           float_repr new_meta_dict table ∅).1 with
                  | Raise e => (Failed (Raised e), fs)
                  | Ok new_table =>
                      let output_path := default parquet_path output_path in
                      match write_table new_table compression with
                      | Some contents => (Done, <[output_path := contents]> fs)
                      | None => (Failed WriteFailed, delete output_path fs)
                      end
                  end
              end
          end
      end
  end.

(** Source line 89: the call with the parsed arguments. *)
Definition run_update (args : Args) (fs : files) : outcome * files :=
  update_parquet_meta (args_parquet args) (args_json args)
    (args_output args) (args_compression args) fs.

(** [main]: the exit status and the files afterwards. *)
Definition main (args : Args) (fs : files) : Z * files :=
  match run_update args fs with
  | (Done, fs') => (0, fs')
  | (Failed _, fs') => (1, fs')
  end.

(** pyarrow reads back, as written, the table with a new [dataset_meta]
    entry. *)
Definition reads_back_written (compression : string) (table : Table) : Prop :=
  ∀ value contents,
    write_table (Updates.with_dataset_meta value table) compression = Some contents →
    read_table contents = Some (Updates.with_dataset_meta value table).

(** The path that is written. *)
Definition written_path (parquet_path : string) (output_path : option string)
    : string :=
  default parquet_path output_path.

Lemma update_parquet_meta_Done parquet_path json_path output_path compression
    (fs fs' : files) :
  update_parquet_meta parquet_path json_path output_path compression fs
    = (Done, fs') ↔
  ∃ parquet_bytes json_bytes new_meta_dict table value contents,
    fs !! parquet_path = Some parquet_bytes ∧
    fs !! json_path = Some json_bytes ∧
    json_load json_bytes = Ok new_meta_dict ∧
    read_table parquet_bytes = Some table ∧
    Utf8.encode (Json.dumps float_repr new_meta_dict) = Some value ∧
    write_table (Updates.with_dataset_meta value table) compression
      = Some contents ∧
    fs' = <[written_path parquet_path output_path := contents]> fs.
Proof.
  unfold update_parquet_meta, written_path. split.
  - destruct (fs !! parquet_path) as [pb|]; [|discriminate].
    destruct (fs !! json_path) as [jb|]; [|discriminate].
    destruct (json_load jb) as [M|e] eqn:HM; [|discriminate].
    destruct (read_table pb) as [table|] eqn:Ht; [|discriminate].
    rewrite Updates.update_parquet_meta_outcome.
    destruct (Utf8.encode (Json.dumps float_repr M)) as [value|] eqn:Henc;
      [|discriminate].
    destruct (write_table (Updates.with_dataset_meta value table) compression)
      as [contents|] eqn:Hw; [|discriminate].
    intros [= <-]. eauto 15.
  - intros (pb & jb & M & table & value & contents
            & -> & -> & -> & -> & Henc & Hw & ->).
    rewrite Updates.update_parquet_meta_outcome, Henc, Hw. reflexivity.
Qed.


(** X20.  A missing Parquet file or JSON file makes the update raise
    FileNotFoundError.  A failure of a step before the write (a missing
    file, a JSON file that is not UTF-8 or does not parse, a file that is
    not Parquet, metadata with a lone surrogate) leaves every file as it
    was.  A failure of [pq.write_table] removes the path it was writing
    and leaves the other files: an update that overwrites its input then
    loses the input file.  [main] turns every failure into exit status 1,
    and exits with status 0 exactly when the update returns. *)
Theorem failed_update_keeps_or_removes_the_written_file
    (args : Args) (fs : files) :
  (fs !! args_parquet args = None ∨ fs !! args_json args = None →
   (run_update args fs).1 = Failed FileNotFoundError) ∧
  (∀ e, (run_update args fs).1 = Failed e →
        main args fs = (1, (run_update args fs).2) ∧
        (e ≠ WriteFailed → (run_update args fs).2 = fs) ∧
        (e = WriteFailed →
         (run_update args fs).2 =
           delete (written_path (args_parquet args) (args_output args)) fs ∧
         (args_output args = None →
          (run_update args fs).2 !! args_parquet args = None))) ∧
  ((main args fs).1 = 0 ↔ (run_update args fs).1 = Done).
Proof.
  unfold main, run_update, update_parquet_meta, written_path.
  destruct (fs !! args_parquet args) as [pb|].
  2:{ split; [reflexivity|]. split; [|split; discriminate].
      intros e [= <-]. split; [reflexivity|]. split; [reflexivity|discriminate]. }
  destruct (fs !! args_json args) as [jb|].
  2:{ split; [reflexivity|]. split; [|split; discriminate].
      intros e [= <-]. split; [reflexivity|]. split; [reflexivity|discriminate]. }
  split; [intros [[=]|[=]]|].
  destruct (json_load jb) as [M|e0].
  2:{ split; [|split; discriminate].
      intros e [= <-]. split; [reflexivity|]. split; [reflexivity|discriminate]. }
  destruct (read_table pb) as [table|].
  2:{ split; [|split; discriminate].
      intros e [= <-]. split; [reflexivity|]. split; [reflexivity|discriminate]. }
  destruct ((MetaUpdate.update_parquet_meta float_repr M table ∅).1) as [t'|e0].
  - destruct (write_table t' (args_compression args)) as [contents|].
    + split; [intros e [=]|]. split; reflexivity.
    + split; [|split; discriminate].
      intros e [= <-]. split; [reflexivity|]. split; [congruence|].
      intros _. split; [reflexivity|].
      intros ->. simpl. apply lookup_delete_eq.
  - split; [|split; discriminate].
    intros e [= <-]. split; [reflexivity|]. split; [reflexivity|discriminate].
Qed.

(** X21.  After an update that returns, the file written reads back as a
    table with the rows and the foreign header entries of the input table
    whose [dataset_meta] entry decodes to the value of the JSON file,
    provided that the floats of that value are read back from their text
    and that pyarrow reads the written table back; no assumption on the
    keys of the JSON objects is needed. *)
Theorem updated_file_reads_back_the_json_metadata
    (parquet_path json_path : string) (output_path : option string)
    (compression : string) (fs fs' : files)
    (parquet_bytes json_bytes : string) (table : Table) (new_meta_dict : json) :
  fs !! parquet_path = Some parquet_bytes →
  read_table parquet_bytes = Some table →
  fs !! json_path = Some json_bytes →
  json_load json_bytes = Ok new_meta_dict →
  Codec.floats_read_back float_repr float_of_literal new_meta_dict →
  reads_back_written compression table →
  update_parquet_meta parquet_path json_path output_path compression fs
    = (Done, fs') →
  ∃ table' raw,
    fs' !! written_path parquet_path output_path ≫= read_table = Some table' ∧
    rows table' = rows table ∧
    (∀ k, k ≠ "dataset_meta" →
          metadata table' ≫= (.!! k) = default ∅ (metadata table) !! k) ∧
    metadata table' ≫= (.!! "dataset_meta") = Some raw ∧
    decode_entry float_of_literal raw = Ok new_meta_dict.
Proof.
  intros Hp Ht Hj HM Hfloats Hcodec Hrun.
  apply update_parquet_meta_Done in Hrun
    as (pb & jb & M & table0 & value & contents
        & Hp' & Hj' & HM' & Ht' & Henc & Hw & ->).
  simplify_eq. assert (M = new_meta_dict) as -> by congruence.
  exists (Updates.with_dataset_meta value table), value.
  rewrite lookup_insert_eq. simpl. split; [eapply Hcodec, Hw|].
  split; [reflexivity|].
  split; [intros k Hk; apply lookup_insert_ne; congruence|].
  split; [apply lookup_insert_eq|].
  apply (decode_entry_encoded float_repr); [|exact Henc].
  apply Codec.well_formed_split; [|exact Hfloats].
  unfold json_load in HM.
  destruct (Utf8.decode json_bytes) as [text|]; [|discriminate]. simpl in HM.
  destruct (Json.loads float_of_literal (universal_newlines text)) as [v|] eqn:Hv;
    [|discriminate].
  injection HM as <-.
  eapply Codec.loads_distinct_keys, Hv.
Qed.

(** X22.  Running the same update again changes no file, as long as the
    path written is not the JSON file and pyarrow reads the written table
    back. *)
Theorem repeated_update_changes_no_file
    (parquet_path json_path : string) (output_path : option string)
    (compression : string) (fs fs' : files) :
  written_path parquet_path output_path ≠ json_path →
  (∀ table, fs !! parquet_path ≫= read_table = Some table →
            reads_back_written compression table) →
  update_parquet_meta parquet_path json_path output_path compression fs
    = (Done, fs') →
  update_parquet_meta parquet_path json_path output_path compression fs'
    = (Done, fs').
Proof.
  intros Hjson Hcodec Hrun.
  apply update_parquet_meta_Done in Hrun
    as (pb & jb & M & table & value & contents
        & Hp & Hj & HM & Ht & Henc & Hw & ->).
  apply update_parquet_meta_Done.
  destruct (decide (written_path parquet_path output_path = parquet_path))
    as [Heq|Hne].
  - exists contents, jb, M, (Updates.with_dataset_meta value table), value,
      contents.
    assert (Hback : reads_back_written compression table)
      by (apply Hcodec; rewrite Hp; exact Ht).
    rewrite Heq in *. rewrite lookup_insert_eq, (Hback value contents Hw).
    rewrite lookup_insert_ne by exact Hjson.
    rewrite Updates.with_dataset_meta_twice, insert_insert_eq. auto 10.
  - exists pb, jb, M, table, value, contents.
    rewrite !lookup_insert_ne by congruence.
    rewrite insert_insert_eq. auto 10.
Qed.

End FileLevel.

(** *** The theorems at a concrete file system *)

(** A stand-in for pyarrow's codec on the tables with the rows and the
    foreign header entries of [stored_table]: the bytes of a file are its
    [dataset_meta] entry, and the only compression it knows is zstd. *)
Definition stored_table : Table :=
  {| metadata := Some {[ "created_by" := "parquet-cpp-arrow" ]};
     rows := [sample_row] |}.

Definition header_only_read (contents : string) : option Table :=
  Some (Updates.with_dataset_meta contents stored_table).

Definition header_only_write (t : Table) (compression : string)
    : option string :=
  if decide (compression = "zstd")
  then Some (default "" (metadata t ≫= (.!! "dataset_meta")))
  else None.

(** A Parquet file whose metadata is the empty object and a JSON file with
    the text of [sample_meta]. *)
Definition sample_json_bytes : string :=
  default "" (Utf8.encode (Json.dumps sample_float_repr sample_meta)).

Definition sample_files : files :=
  {[ "tracks.parquet" := "{}"; "meta.json" := sample_json_bytes ]}.

Definition sample_update (fs : files) : outcome * files :=
  update_parquet_meta sample_float_repr sample_float_of_literal
    header_only_read header_only_write "tracks.parquet" "meta.json" None "zstd" fs.

Lemma header_only_reads_back (contents : string) :
  reads_back_written header_only_read header_only_write "zstd"
    (Updates.with_dataset_meta contents stored_table).
Proof.
  intros value written. unfold header_only_read, header_only_write. simpl.
  rewrite lookup_insert_eq. simpl. intros [= <-].
  rewrite Updates.with_dataset_meta_twice. reflexivity.
Defined.

Lemma sample_json_loads :
  json_load sample_float_of_literal sample_json_bytes = Ok sample_meta.
Proof. vm_compute. reflexivity. Defined.

Lemma sample_floats_read_back :
  Codec.floats_read_back sample_float_repr sample_float_of_literal sample_meta.
Proof. simpl. repeat split. apply sample_float_round_trips. Defined.

Lemma sample_update_Done :
  sample_update sample_files = (Done, (sample_update sample_files).2).
Proof. vm_compute. reflexivity. Defined.

Lemma updated_file_reads_back_witness :
  ∃ table' raw,
    (sample_update sample_files).2 !! written_path "tracks.parquet" None
      ≫= header_only_read = Some table' ∧
    rows table' = rows (Updates.with_dataset_meta "{}" stored_table) ∧
    (∀ k, k ≠ "dataset_meta" →
          metadata table' ≫= (.!! k) =
          default ∅ (metadata (Updates.with_dataset_meta "{}" stored_table)) !! k) ∧
    metadata table' ≫= (.!! "dataset_meta") = Some raw ∧
    decode_entry sample_float_of_literal raw = Ok sample_meta.
Proof.
  exact (updated_file_reads_back_the_json_metadata
           sample_float_repr sample_float_of_literal
           header_only_read header_only_write
           "tracks.parquet" "meta.json" None "zstd"
           sample_files (sample_update sample_files).2
           "{}" sample_json_bytes
           (Updates.with_dataset_meta "{}" stored_table) sample_meta
           eq_refl eq_refl eq_refl sample_json_loads sample_floats_read_back
           (header_only_reads_back "{}") sample_update_Done).
Defined.

Lemma sample_paths_differ : written_path "tracks.parquet" None ≠ "meta.json".
Proof. discriminate. Defined.

Lemma sample_codec_reads_back :
  ∀ table, sample_files !! "tracks.parquet" ≫= header_only_read = Some table →
           reads_back_written header_only_read header_only_write "zstd" table.
Proof. intros table [= <-]. apply header_only_reads_back. Defined.

Lemma repeated_update_witness :
  sample_update (sample_update sample_files).2 =
  (Done, (sample_update sample_files).2).
Proof.
  exact (repeated_update_changes_no_file
           sample_float_repr sample_float_of_literal
           header_only_read header_only_write
           "tracks.parquet" "meta.json" None "zstd"
           sample_files (sample_update sample_files).2
           sample_paths_differ sample_codec_reads_back sample_update_Done).
Defined.

(** An unknown compression: the update fails at the write, [main] exits
    with status 1, and the Parquet file it was to overwrite is gone. *)
Example failed_overwrite_loses_the_input :
  main sample_float_repr sample_float_of_literal header_only_read header_only_write
    (mkArgs "tracks.parquet" "meta.json" None "bogus") sample_files
  = (1, {[ "meta.json" := sample_json_bytes ]}).
Proof. vm_compute. reflexivity. Qed.

End Files.

(** ** The plot as a whole *)

Module Plot.
Import Segments.

(** The loop body over the pairs of one track, and over the tracks. *)
Definition pair_loop (target : Z) (interval : float) (t : Track)
    (acc : result plot_data) (i : nat) : result plot_data :=
  st ← acc;
  pair_step target (sample_times interval t) (head_positions t)
            (frenet_s_speed t) (lane_id t) st i.

Definition track_loop (target : Z) (interval : float)
    (acc : result plot_data) (t : Track) : result plot_data :=
  st ← acc; track_segments target interval t st.

Lemma track_segments_fold target interval t st :
  track_segments target interval t st =
  foldl (pair_loop target interval t) (Ok st)
        (seq 0 (length (frame_index t) - 1)).
Proof. reflexivity. Qed.

Lemma lane_segments_fold target interval data :
  lane_segments target interval data =
  foldl (track_loop target interval) (Ok empty_plot) data.
Proof. reflexivity. Qed.

(** *** Errors *)

Lemma at_index_Raise {A} (a : list A) (i : nat) (e : exn) :
  at_index a i = Raise e → e = IndexError.
Proof. unfold at_index. destruct (a !! i); simpl; congruence. Qed.

Ltac bind_cases H :=
  repeat match type of H with
  | context [at_index ?a ?i] =>
      let E := fresh "E" in
      destruct (at_index a i) eqn:E; simpl in H;
      [|apply at_index_Raise in E; congruence]
  end.

Lemma pair_step_Raise target times head_s s_speeds lane_ids st i e :
  pair_step target times head_s s_speeds lane_ids st i = Raise e →
  e = IndexError.
Proof.
  unfold pair_step. intros H.
  destruct (at_index lane_ids i) as [a|e0] eqn:Ea; simpl in H;
    [|apply at_index_Raise in Ea; congruence].
  destruct (at_index lane_ids (i + 1)) as [b|e0] eqn:Eb; simpl in H;
    [|apply at_index_Raise in Eb; congruence].
  repeat case_decide; bind_cases H; discriminate.
Qed.

Lemma pair_loop_Raise target interval t (l : list nat) (e : exn) :
  foldl (pair_loop target interval t) (Raise e) l = Raise e.
Proof. induction l as [|i l IH]; [reflexivity|exact IH]. Qed.

Lemma track_loop_Raise target interval (l : list Track) (e : exn) :
  foldl (track_loop target interval) (Raise e) l = Raise e.
Proof. induction l as [|t l IH]; [reflexivity|exact IH]. Qed.

Lemma pair_fold_Raise target interval t (l : list nat) st e :
  foldl (pair_loop target interval t) (Ok st) l = Raise e → e = IndexError.
Proof.
  revert st. induction l as [|i l IH]; intros st; [discriminate|].
  simpl.
  destruct (pair_step target (sample_times interval t) (head_positions t)
              (frenet_s_speed t) (lane_id t) st i) as [st'|e'] eqn:Hstep.
  - apply IH.
  - rewrite pair_loop_Raise. intros [= <-]. eapply pair_step_Raise, Hstep.
Qed.

Lemma track_fold_Raise target interval (l : list Track) st e :
  foldl (track_loop target interval) (Ok st) l = Raise e → e = IndexError.
Proof.
  revert st. induction l as [|t l IH]; intros st; [discriminate|].
  simpl. destruct (track_segments target interval t st) as [st'|e'] eqn:Ht.
  - apply IH.
  - rewrite track_loop_Raise. intros [= <-].
    rewrite track_segments_fold in Ht. eapply pair_fold_Raise, Ht.
Qed.

(** A pair whose lane the array lacks stops the loop. *)
Lemma pair_step_short_lane target times head_s s_speeds lane_ids st i :
  lane_ids !! (i + 1)%nat = None →
  pair_step target times head_s s_speeds lane_ids st i = Raise IndexError.
Proof.
  intros Hn. unfold pair_step, at_index. rewrite Hn.
  destruct (lane_ids !! i); reflexivity.
Qed.

Lemma pair_fold_short_lane target interval t st (l1 l2 : list nat) (i : nat) :
  lane_id t !! (i + 1)%nat = None →
  foldl (pair_loop target interval t) (Ok st) (l1 ++ i :: l2) = Raise IndexError.
Proof.
  intros Hn. rewrite foldl_app. simpl.
  destruct (foldl (pair_loop target interval t) (Ok st) l1) as [st1|e] eqn:H1.
  - simpl. rewrite pair_step_short_lane by exact Hn. apply pair_loop_Raise.
  - apply pair_fold_Raise in H1 as ->. apply pair_loop_Raise.
Qed.

Lemma track_segments_short_lane target interval t st :
  (2 ≤ length (frame_index t))%nat →
  (length (lane_id t) < length (frame_index t))%nat →
  track_segments target interval t st = Raise IndexError.
Proof.
  intros H2 Hshort. rewrite track_segments_fold.
  set (i := (length (lane_id t) - 1)%nat).
  set (n := (length (frame_index t) - 1)%nat).
  assert (Hi : (i < n)%nat) by (unfold i, n; lia).
  replace (seq 0 n) with (seq 0 i ++ i :: seq (S i) (n - S i)).
  - apply pair_fold_short_lane. apply lookup_ge_None. unfold i. lia.
  - replace n with (i + S (n - S i))%nat at 2 by lia.
    rewrite seq_app. reflexivity.
Qed.

(** X23.  A track with at least two frames whose [lane_id] array is
    shorter than its [frame_index] makes the plot fail: the loop over the
    tracks raises IndexError for every target lane, and so does the whole
    function as soon as [unique_lane_ids] holds a lane other than -1.
    The data is never silently truncated. *)
Theorem short_lane_array_raises_IndexError
    (trajectory_data : list Track) (t : Track) :
  t ∈ trajectory_data →
  (2 ≤ length (frame_index t))%nat →
  (length (lane_id t) < length (frame_index t))%nat →
  (∀ target interval,
     lane_segments target interval trajectory_data = Raise IndexError) ∧
  (∀ lanes interval lane,
     lane ∈ lanes → lane ≠ -1 →
     plot_trajectory_spacetime_diagram trajectory_data
       {| unique_lane_ids := Some lanes; frame_interval := Some interval |}
     = Raise IndexError).
Proof.
  intros Hin H2 Hshort.
  assert (Hlane : ∀ target interval,
            lane_segments target interval trajectory_data = Raise IndexError).
  { intros target interval. rewrite lane_segments_fold.
    apply list_elem_of_split in Hin as (l1 & l2 & ->).
    rewrite foldl_app. simpl.
    destruct (foldl (track_loop target interval) (Ok empty_plot) l1)
      as [st1|e] eqn:H1.
    - simpl. rewrite track_segments_short_lane by assumption.
      apply track_loop_Raise.
    - apply track_fold_Raise in H1 as ->. apply track_loop_Raise. }
  split; [exact Hlane|].
  intros lanes interval lane Hl Hne. unfold plot_trajectory_spacetime_diagram.
  simpl. induction lanes as [|l lanes IH]; [inversion Hl|].
  simpl. destruct (decide (l = -1)) as [->|Hl1].
  - apply IH. apply elem_of_cons in Hl as [->|Hl]; [contradiction|exact Hl].
  - rewrite Hlane. reflexivity.
Qed.

(** *** The data handed to the renderer *)

(** [LineCollection(lines, array=speeds)] and [scatter(x, y)] need parallel
    arrays. *)
Definition parallel (st : plot_data) : Prop :=
  length (lines st) = length (speeds st) ∧
  length (lc_points_x st) = length (lc_points_y st).

Lemma pair_step_parallel target times head_s s_speeds lane_ids st i st' :
  parallel st →
  pair_step target times head_s s_speeds lane_ids st i = Ok st' →
  parallel st'.
Proof.
  intros [Hl Hp]. unfold pair_step. intros H.
  destruct (at_index lane_ids i) as [a|e0]; simpl in H; [|discriminate].
  destruct (at_index lane_ids (i + 1)) as [b|e0]; simpl in H; [|discriminate].
  repeat case_decide;
    repeat match type of H with
    | context [at_index ?a ?i] =>
        destruct (at_index a i); simpl in H; [|discriminate]
    end;
    injection H as <-; unfold parallel; simpl; rewrite ?length_app; simpl;
    split; lia.
Qed.

Lemma pair_fold_parallel target interval t (l : list nat) :
  ∀ st st', parallel st →
  foldl (pair_loop target interval t) (Ok st) l = Ok st' → parallel st'.
Proof.
  induction l as [|i l IH]; intros st st' Hst; [intros [= <-]; exact Hst|].
  simpl.
  destruct (pair_step target (sample_times interval t) (head_positions t)
              (frenet_s_speed t) (lane_id t) st i) as [st1|e] eqn:Hstep.
  - apply IH. eapply pair_step_parallel; eassumption.
  - rewrite pair_loop_Raise. discriminate.
Qed.

Lemma track_fold_parallel target interval (l : list Track) :
  ∀ st st', parallel st →
  foldl (track_loop target interval) (Ok st) l = Ok st' → parallel st'.
Proof.
  induction l as [|t l IH]; intros st st' Hst; [intros [= <-]; exact Hst|].
  simpl. destruct (track_segments target interval t st) as [st1|e] eqn:Ht.
  - apply IH. rewrite track_segments_fold in Ht.
    eapply pair_fold_parallel; eassumption.
  - rewrite track_loop_Raise. discriminate.
Qed.

Lemma lanes_to_render_Ok (lanes : list Z) interval data :
  ∀ out, lanes_to_render lanes interval data = Ok out →
  out.*1 `sublist_of` lanes ∧
  ∀ lane pd, (lane, pd) ∈ out ↔
    lane ∈ lanes ∧ lane ≠ -1 ∧
    lane_segments lane interval data = Ok pd ∧ lines pd ≠ [].
Proof.
  induction lanes as [|l lanes IH]; intros out; simpl.
  - intros [= <-]. split; [constructor|].
    intros lane pd. split; [intros Hin; inversion Hin|].
    intros (Hin & _). inversion Hin.
  - destruct (decide (l = -1)) as [->|Hl].
    + intros Hout. destruct (IH out Hout) as [Hsub Hmem]. split.
      * apply sublist_cons, Hsub.
      * intros lane pd. rewrite Hmem, elem_of_cons. split; [tauto|].
        intros ([->|Hin] & Hne & H); [contradiction|tauto].
    + destruct (lane_segments l interval data) as [pd0|e] eqn:Hl0;
        [|discriminate]. simpl.
      destruct (lanes_to_render lanes interval data) as [later|e];
        [|discriminate]. simpl.
      destruct (IH later eq_refl) as [Hsub Hmem].
      destruct (lines pd0) as [|seg segs] eqn:Hlines; intros [= <-].
      * split; [apply sublist_cons, Hsub|].
        intros lane pd. rewrite Hmem, elem_of_cons. split; [tauto|].
        intros ([->|Hin] & Hne & Hpd & Hnil); [|tauto].
        rewrite Hl0 in Hpd. injection Hpd as <-. contradiction.
      * split; [simpl; apply sublist_skip, Hsub|].
        intros lane pd. rewrite !elem_of_cons, Hmem. split.
        -- intros [[= -> ->]|H]; [|tauto].
           split; [left; reflexivity|]. split; [exact Hl|].
           split; [exact Hl0|]. rewrite Hlines. discriminate.
        -- intros ([->|Hin] & Hne & Hpd & Hnil); [|tauto].
           left. rewrite Hl0 in Hpd. injection Hpd as <-. reflexivity.
Qed.

(** X3.  What the plot hands to the renderer: the lanes drawn are, in the
    order of [unique_lane_ids], exactly the lanes other than -1 with at
    least one segment, each with the data of the loop over the tracks; and
    in that data the segments and their speeds, and the two coordinates of
    the lane-change points, are arrays of equal length. *)
Theorem rendered_lanes_have_segments
    (trajectory_data : list Track) (meta_data : Meta)
    (out : list (Z * plot_data)) :
  plot_trajectory_spacetime_diagram trajectory_data meta_data = Ok out →
  ∃ interval,
    frame_interval meta_data = Some interval ∧
    out.*1 `sublist_of` default [] (unique_lane_ids meta_data) ∧
    ∀ lane pd, (lane, pd) ∈ out ↔
      lane ∈ default [] (unique_lane_ids meta_data) ∧ lane ≠ -1 ∧
      lane_segments lane interval trajectory_data = Ok pd ∧
      lines pd ≠ [] ∧ parallel pd.
Proof.
  unfold plot_trajectory_spacetime_diagram.
  destruct (frame_interval meta_data) as [interval|]; [|discriminate]. simpl.
  intros Hout. exists interval. split; [reflexivity|].
  destruct (lanes_to_render_Ok _ _ _ _ Hout) as [Hsub Hmem].
  split; [exact Hsub|]. intros lane pd. rewrite Hmem. split.
  - intros (Hin & Hne & Hpd & Hnil). repeat (split; [assumption|]).
    rewrite lane_segments_fold in Hpd.
    eapply track_fold_parallel; [|exact Hpd]. split; reflexivity.
  - tauto.
Qed.

(** *** Lanes without traffic *)

Lemma pair_step_off_lane target times head_s s_speeds lane_ids st i a b :
  lane_ids !! i = Some a → lane_ids !! (i + 1)%nat = Some b →
  a ≠ target → b ≠ target →
  pair_step target times head_s s_speeds lane_ids st i = Ok st.
Proof.
  intros Ha Hb Hna Hnb. unfold pair_step, at_index. rewrite Ha, Hb. simpl.
  rewrite !decide_False by tauto. reflexivity.
Qed.

Lemma track_segments_off_lane target interval t st :
  (length (frame_index t) ≤ length (lane_id t))%nat →
  target ∉ lane_id t →
  track_segments target interval t st = Ok st.
Proof.
  intros Hlen Hnot. rewrite track_segments_fold.
  assert (H : ∀ m, (m ≤ length (frame_index t) - 1)%nat →
            foldl (pair_loop target interval t) (Ok st) (seq 0 m) = Ok st).
  { induction m as [|m IH]; intros Hm; [reflexivity|].
    rewrite seq_S, foldl_snoc, IH by lia. simpl.
    destruct (lookup_lt_is_Some_2 (lane_id t) m) as [a Ha]; [lia|].
    destruct (lookup_lt_is_Some_2 (lane_id t) (m + 1)) as [b Hb]; [lia|].
    apply (pair_step_off_lane _ _ _ _ _ _ _ a b Ha Hb).
    - intros ->. apply Hnot. eapply list_elem_of_lookup_2, Ha.
    - intros ->. apply Hnot. eapply list_elem_of_lookup_2, Hb. }
  apply H. lia.
Qed.

(** X24.  A lane in which no vehicle is ever observed is not drawn: when
    the [lane_id] array of every track covers its frames and never holds
    the target lane, the loop over the tracks yields no segment and no
    lane-change point, without reading any position, speed or time. *)
Theorem lane_without_traffic_is_empty
    (target : Z) (interval : float) (trajectory_data : list Track) :
  (∀ t, t ∈ trajectory_data →
        (length (frame_index t) ≤ length (lane_id t))%nat ∧
        target ∉ lane_id t) →
  lane_segments target interval trajectory_data = Ok empty_plot ∧
  ∀ lanes,
    lanes_to_render (target :: lanes) interval trajectory_data =
    lanes_to_render lanes interval trajectory_data.
Proof.
  intros Hoff.
  assert (Hempty : lane_segments target interval trajectory_data = Ok empty_plot).
  { rewrite lane_segments_fold. generalize empty_plot as st.
    induction trajectory_data as [|t data IH]; intros st; [reflexivity|].
    simpl. destruct (Hoff t) as [Hlen Hnot]; [left|].
    rewrite track_segments_off_lane by assumption.
    apply IH. intros t' Hin. apply Hoff. right. exact Hin. }
  split; [exact Hempty|].
  intros lanes. simpl. destruct (decide (target = -1)); [reflexivity|].
  rewrite Hempty. simpl.
  destruct (lanes_to_render lanes interval trajectory_data); reflexivity.
Qed.

(** *** Aligned data *)

(** The emissions of a track for a target lane, pair by pair. *)
Definition track_emissions (target : Z) (interval : float) (t : Track)
    : list emission :=
  spec_emission target interval t <$> seq 0 (length (frame_index t) - 1).

Lemma lane_segments_aligned target interval (data : list Track) :
  Forall aligned data →
  ∀ st, foldl (track_loop target interval) (Ok st) data =
        Ok (foldl (λ st t, foldl emit st (track_emissions target interval t))
                  st data).
Proof.
  induction 1 as [|t data Ht _ IH]; intros st; [reflexivity|].
  simpl. unfold track_segments.
  rewrite (track_segments_prefix target interval t st _ Ht) by lia.
  apply IH.
Qed.

Lemma lanes_to_render_total (lanes : list Z) interval data :
  (∀ lane, ∃ pd, lane_segments lane interval data = Ok pd) →
  ∃ out, lanes_to_render lanes interval data = Ok out.
Proof.
  intros Hall. induction lanes as [|l lanes [later IH]]; simpl; [eauto|].
  destruct (decide (l = -1)); [eauto|].
  destruct (Hall l) as [pd ->]. rewrite IH. simpl. eauto.
Qed.

(** X25.  On tracks whose arrays cover their frames and with a frame
    interval in the metadata the plot never raises, whatever
    [unique_lane_ids] holds (missing, empty, with repeated lanes), and the
    data of a lane is the emissions of the tracks, track by track and pair
    by pair in order. *)
Theorem aligned_tracks_always_plot
    (trajectory_data : list Track) (meta_data : Meta) (interval : float) :
  Forall aligned trajectory_data →
  frame_interval meta_data = Some interval →
  (∃ out, plot_trajectory_spacetime_diagram trajectory_data meta_data = Ok out) ∧
  ∀ target,
    lane_segments target interval trajectory_data =
    Ok (foldl (λ st t, foldl emit st (track_emissions target interval t))
              empty_plot trajectory_data).
Proof.
  intros Hal Hint.
  assert (Hlane : ∀ target,
            lane_segments target interval trajectory_data =
            Ok (foldl (λ st t, foldl emit st (track_emissions target interval t))
                      empty_plot trajectory_data)).
  { intros target. rewrite lane_segments_fold.
    apply lane_segments_aligned, Hal. }
  split; [|exact Hlane].
  unfold plot_trajectory_spacetime_diagram. rewrite Hint. simpl.
  apply lanes_to_render_total. intros lane. rewrite Hlane. eauto.
Qed.

(** *** The theorems at concrete tracks *)

(** Three frames, but a single lane sample. *)
Definition short_lane_track : Track :=
  {| frame_index := [10; 11; 12];
     frenet_s := [0; 1; 2]%float;
     frenet_s_speed := [3; 3; 3]%float;
     lane_id := [1];
     vehicle_length := None |}.

Lemma short_lane_array_witness :
  (∀ target interval,
     lane_segments target interval [short_lane_track] = Raise IndexError) ∧
  (∀ lanes interval lane,
     lane ∈ lanes → lane ≠ -1 →
     plot_trajectory_spacetime_diagram [short_lane_track]
       {| unique_lane_ids := Some lanes; frame_interval := Some interval |}
     = Raise IndexError).
Proof.
  apply (short_lane_array_raises_IndexError [short_lane_track] short_lane_track).
  - left.
  - simpl. lia.
  - simpl. lia.
Defined.

Definition example_meta : Meta :=
  {| unique_lane_ids := Some [-1; 1; 2; 3]; frame_interval := Some 0.5%float |}.

Definition example_out : list (Z * plot_data) :=
  [ (1, {| lines := [((5, 2.5), (5.5, 3.5))]%float;
           speeds := [3]%float;
           lc_points_x := [5.5; 7]%float;
           lc_points_y := [3.5; 6.5]%float |});
    (2, {| lines := [((6, 4.5), (6.5, 5.5))]%float;
           speeds := [3]%float;
           lc_points_x := [6; 6.5]%float;
           lc_points_y := [4.5; 5.5]%float |}) ].

Lemma example_plot_out :
  plot_trajectory_spacetime_diagram [example_track] example_meta = Ok example_out.
Proof. vm_compute. reflexivity. Defined.

Lemma rendered_lanes_witness :
  ∃ interval,
    frame_interval example_meta = Some interval ∧
    example_out.*1 `sublist_of` default [] (unique_lane_ids example_meta) ∧
    ∀ lane pd, (lane, pd) ∈ example_out ↔
      lane ∈ default [] (unique_lane_ids example_meta) ∧ lane ≠ -1 ∧
      lane_segments lane interval [example_track] = Ok pd ∧
      lines pd ≠ [] ∧ parallel pd.
Proof.
  exact (rendered_lanes_have_segments [example_track] example_meta example_out
           example_plot_out).
Defined.

Lemma example_track_off_lane_3 :
  ∀ t, t ∈ [example_track] →
       (length (frame_index t) ≤ length (lane_id t))%nat ∧ 3 ∉ lane_id t.
Proof.
  intros t Hin. apply list_elem_of_singleton in Hin as ->.
  split; [simpl; lia|]. apply (bool_decide_unpack _). vm_compute. exact I.
Defined.

Lemma lane_without_traffic_witness :
  lane_segments 3 0.5 [example_track] = Ok empty_plot ∧
  ∀ lanes,
    lanes_to_render (3 :: lanes) 0.5 [example_track] =
    lanes_to_render lanes 0.5 [example_track].
Proof.
  exact (lane_without_traffic_is_empty 3 0.5 [example_track]
           example_track_off_lane_3).
Defined.

Lemma aligned_tracks_witness :
  (∃ out, plot_trajectory_spacetime_diagram [example_track] example_meta = Ok out) ∧
  ∀ target,
    lane_segments target 0.5 [example_track] =
    Ok (foldl (λ st t, foldl emit st (track_emissions target 0.5 t))
              empty_plot [example_track]).
Proof.
  exact (aligned_tracks_always_plot [example_track] example_meta 0.5
           (Forall_cons_2 _ _ _ example_track_aligned (Forall_nil_2 _)) eq_refl).
Defined.

End Plot.
